(** * Roam query blocks: from the AST to Datalog

    A shallow embedding of the query compiler of roam-research-mcp
    ([src/query/types.ts], [src/query/parser.ts],
    [src/query/generator.ts], [src/query/index.ts]) with the properties
    of it that the specification states and further properties read off
    the code.

    Conventions of the embedding.
    - A JavaScript string is a [string]: one [ascii] per UTF-16 code unit,
      so the texts covered are those whose code units are all below 256.
      On that domain [toLowerCase], [trim] and the regular expressions of
      the source are modelled exactly.
    - A JavaScript number is a [jsnum]: an exact integer or [NaN].  The
      numbers the compiler handles are counters, limits and millisecond
      time values; where a value leaves the range in which doubles are
      exact, the [Date] it goes to is invalid in the source and [NaN]
      here.
    - [throw] is the [Throw] constructor of [Exc]; [try]/[catch] is
      [try_catch].
    - The fields of the generator object and the count of readings of the
      system clock are threaded as a [GenState]; the clock, the time zone
      and the parsing of date strings by [Date] belong to the host and
      are the fields of an [Env]. *)

From Stdlib Require Import ZArith List String Ascii Bool Lia DecimalString
  DecimalNat.
Import ListNotations.

Open Scope list_scope.
Open Scope string_scope.

(* ================================================================== *)
(** * Strings *)
(* ================================================================== *)

Module Str.

Definition dquote : ascii := "034"%char.
Definition backslash : ascii := "\"%char.
Definition newline : ascii := "010"%char.

Definition chr (c : ascii) : string := String c EmptyString.

(** [arr.join(sep)] *)
Definition join (sep : string) (arr : list string) : string :=
  String.concat sep arr.

(** [String(n)] for a counter and for an integer. *)
Definition ofNat (n : nat) : string := NilZero.string_of_uint (Nat.to_uint n).
Definition ofZ (z : Z) : string := NilZero.string_of_int (Z.to_int z).

(** [str.replace(/c/g, by)] for a one-character pattern. *)
Fixpoint replaceAllChar (c : ascii) (by_ : string) (str : string) : string :=
  match str with
  | EmptyString => EmptyString
  | String a rest =>
      if Ascii.eqb a c then by_ ++ replaceAllChar c by_ rest
      else String a (replaceAllChar c by_ rest)
  end.

Definition code (c : ascii) : nat := nat_of_ascii c.

(** The code units below 256 matched by [\s] (and removed by [trim]):
    TAB, LF, VT, FF, CR, SPACE and NO-BREAK SPACE. *)
Definition isWhiteSpace (c : ascii) : bool :=
  let n := code c in
  (((9 <=? n) && (n <=? 13)) || (n =? 32) || (n =? 160))%nat.

(** [\d] *)
Definition isDigit (c : ascii) : bool :=
  let n := code c in ((48 <=? n) && (n <=? 57))%nat.

(** [toLowerCase] on one code unit below 256: A-Z, and the capital
    letters of Latin-1 (U+00C0..U+00DE except the multiplication sign). *)
Definition lowerChar (c : ascii) : ascii :=
  let n := code c in
  if (((65 <=? n) && (n <=? 90))
      || ((192 <=? n) && (n <=? 222) && negb (n =? 215)))%nat
  then ascii_of_nat (n + 32) else c.

Fixpoint toLowerCase (s : string) : string :=
  match s with
  | EmptyString => EmptyString
  | String c rest => String (lowerChar c) (toLowerCase rest)
  end.

Fixpoint trimStart (s : string) : string :=
  match s with
  | EmptyString => EmptyString
  | String c rest => if isWhiteSpace c then trimStart rest else s
  end.

(** [trimEnd], right to left: the result of the tail decides whether
    this character is still part of the trailing white space. *)
Fixpoint trimEnd (s : string) : string :=
  match s with
  | EmptyString => EmptyString
  | String c rest =>
      match trimEnd rest with
      | EmptyString => if isWhiteSpace c then EmptyString else chr c
      | r => String c r
      end
  end.

Definition trim (s : string) : string := trimEnd (trimStart s).

(** [s.slice(from, to)] for [0 <= from <= to]. *)
Definition slice (s : string) (from to : nat) : string :=
  substring from (to - from) s.

(** [s.includes(sub)] *)
Definition includes (s sub : string) : bool :=
  match index 0 sub s with Some _ => true | None => false end.

End Str.

(* ================================================================== *)
(** * Numbers, values and exceptions *)
(* ================================================================== *)

Inductive jsnum : Type :=
| Num (z : Z)
| NaN.

Definition jsadd (a b : jsnum) : jsnum :=
  match a, b with
  | Num x, Num y => Num (x + y)
  | _, _ => NaN
  end.

Definition jssub (a b : jsnum) : jsnum :=
  match a, b with
  | Num x, Num y => Num (x - y)
  | _, _ => NaN
  end.

Definition jsmul (a b : jsnum) : jsnum :=
  match a, b with
  | Num x, Num y => Num (x * y)
  | _, _ => NaN
  end.

(** [a < b]: false as soon as one side is [NaN]. *)
Definition jslt (a b : jsnum) : bool :=
  match a, b with
  | Num x, Num y => (x <? y)%Z
  | _, _ => false
  end.

(** The dynamically typed values that cross the interfaces: query
    arguments ([(string | number)[]]) and the cells of result rows. *)
Inductive Value : Type :=
| VUndefined
| VStr (s : string)
| VNum (n : jsnum).

(** What a [throw] or a rejected promise carries: an [Error] object with
    its message; any other value that [String(...)] converts, kept as that
    rendering; or a value that is no [Error] and that [String(...)] cannot
    convert (an object without [toString] and [valueOf], such as
    [Object.create(null)], or one whose [toString] throws), kept as what
    the conversion throws. *)
Inductive Thrown : Type :=
| ErrorObj (message : string)
| OtherValue (rendered : string)
| NoString (raised : Thrown).

Inductive Exc (A : Type) : Type :=
| Ok (a : A)
| Throw (e : Thrown).
Arguments Ok {A} a.
Arguments Throw {A} e.

Definition exc_bind {A B} (m : Exc A) (k : A -> Exc B) : Exc B :=
  match m with
  | Ok a => k a
  | Throw e => Throw e
  end.

(** [try { body } catch (error) { handler(error) }] *)
Definition try_catch {A} (body : Exc A) (handler : Thrown -> Exc A) : Exc A :=
  match body with
  | Ok a => Ok a
  | Throw e => handler e
  end.

(* ================================================================== *)
(** * The AST and the clause set ([types.ts]) *)
(* ================================================================== *)

#[warnings="-register-all"]
Inductive QueryNode : Type :=
| And (children : list QueryNode)
| Or (children : list QueryNode)
| Not (child : QueryNode)
| Between (startDate endDate : string)
| Tag (value : string)
| BlockRef (uid : string)
| Search (text : string)
| DailyNotes
| By (user : string)
| CreatedBy (user : string)
| EditedBy (user : string).

Record DatalogClauses : Type := mkClauses {
  where_ : list string;
  inputs : list string;
  inputValues : list Value
}.

Record QueryOptions : Type := mkOptions {
  limit : option Z;
  offset : option Z;
  orderBy : option string;
  pageUid : option string
}.

(* ================================================================== *)
(** * The [Date] object of the runtime (ECMA-262, Date objects) *)
(* ================================================================== *)

Module JSDate.
Local Open Scope Z_scope.

Definition msPerDay : Z := 86400000.

Definition Day (t : Z) : Z := t / msPerDay.

Definition DayFromYear (y : Z) : Z :=
  365 * (y - 1970) + (y - 1969) / 4 - (y - 1901) / 100 + (y - 1601) / 400.

Definition isLeapYear (y : Z) : bool :=
  (y mod 4 =? 0) && (negb (y mod 100 =? 0) || (y mod 400 =? 0)).

Definition DaysInYear (y : Z) : Z := if isLeapYear y then 366 else 365.

(** The year a day number falls in: the largest [y] with
    [DayFromYear y <= d].  The mean year has 146097/400 days, which
    gives an estimate that is off by at most one. *)
Definition yearFromDay (d : Z) : Z :=
  let y := 1970 + (400 * d) / 146097 in
  if d <? DayFromYear y then y - 1
  else if DayFromYear (y + 1) <=? d then y + 1
  else y.

Definition YearFromTime (t : Z) : Z := yearFromDay (Day t).

Definition DayWithinYear (t : Z) : Z := Day t - DayFromYear (YearFromTime t).

Definition InLeapYear (t : Z) : Z :=
  if isLeapYear (YearFromTime t) then 1 else 0.

(** Day number, within its year, of the first day of month [m]
    (0 = January), [leap] being 1 in a leap year. *)
Definition monthStart (leap m : Z) : Z :=
  if m =? 0 then 0
  else if m =? 1 then 31
  else if m =? 2 then 59 + leap
  else if m =? 3 then 90 + leap
  else if m =? 4 then 120 + leap
  else if m =? 5 then 151 + leap
  else if m =? 6 then 181 + leap
  else if m =? 7 then 212 + leap
  else if m =? 8 then 243 + leap
  else if m =? 9 then 273 + leap
  else if m =? 10 then 304 + leap
  else 334 + leap.

Definition MonthFromTime (t : Z) : Z :=
  let d := DayWithinYear t in
  let leap := InLeapYear t in
  if d <? 31 then 0
  else if d <? 59 + leap then 1
  else if d <? 90 + leap then 2
  else if d <? 120 + leap then 3
  else if d <? 151 + leap then 4
  else if d <? 181 + leap then 5
  else if d <? 212 + leap then 6
  else if d <? 243 + leap then 7
  else if d <? 273 + leap then 8
  else if d <? 304 + leap then 9
  else if d <? 334 + leap then 10
  else 11.

Definition DateFromTime (t : Z) : Z :=
  DayWithinYear t - monthStart (InLeapYear t) (MonthFromTime t) + 1.

Definition WeekDay (t : Z) : Z := (Day t + 4) mod 7.

(** [MakeDay(year, month, date)]: months outside 0..11 carry into the
    year, days outside the month carry into the following months. *)
Definition MakeDay (year month date : Z) : Z :=
  let ym := year + month / 12 in
  let mn := month mod 12 in
  DayFromYear ym + monthStart (if isLeapYear ym then 1 else 0) mn + date - 1.

Definition MakeDate (day time : Z) : Z := day * msPerDay + time.

Definition maxTime : Z := 8640000000000000.

Definition TimeClip (t : Z) : jsnum :=
  if Z.abs t >? maxTime then NaN else Num t.

(** The time zone of the host: [LocalTZA t isUTC] is the offset of local
    time in milliseconds, at UTC instant [t] when [isUTC], at local
    time [t] otherwise. *)
Section Zone.
Variable LocalTZA : Z -> bool -> Z.

Definition LocalTime (t : Z) : Z := t + LocalTZA t true.
Definition UTC (t : Z) : Z := t - LocalTZA t false.

(** [new Date(year, month, date).getTime()] *)
Definition fromFields (year month date : jsnum) : jsnum :=
  match year, month, date with
  | Num y, Num m, Num dt =>
      let yr := if (0 <=? y) && (y <=? 99) then 1900 + y else y in
      TimeClip (UTC (MakeDate (MakeDay yr m dt) 0))
  | _, _, _ => NaN
  end.

(** The getters of a [Date] whose time value is [tv]. *)
Definition getFullYear (tv : jsnum) : jsnum :=
  match tv with Num t => Num (YearFromTime (LocalTime t)) | NaN => NaN end.
Definition getMonth (tv : jsnum) : jsnum :=
  match tv with Num t => Num (MonthFromTime (LocalTime t)) | NaN => NaN end.
Definition getDate (tv : jsnum) : jsnum :=
  match tv with Num t => Num (DateFromTime (LocalTime t)) | NaN => NaN end.
Definition getDay (tv : jsnum) : jsnum :=
  match tv with Num t => Num (WeekDay (LocalTime t)) | NaN => NaN end.
End Zone.

(** [new Date(value).getTime()] for a number [value]. *)
Definition fromValue (value : jsnum) : jsnum :=
  match value with Num t => TimeClip t | NaN => NaN end.

End JSDate.

(* ================================================================== *)
(** * The generator ([generator.ts]) *)
(* ================================================================== *)

(** What the generator takes from its host: the system clock (the value
    of its n-th reading, as milliseconds since the epoch), the time zone,
    and [new Date(text).getTime()], whose accepted formats beyond ISO are
    left to the implementation by ECMA-262. *)
Record Env : Type := mkEnv {
  clock : nat -> Z;
  LocalTZA : Z -> bool -> Z;
  DateParse : string -> jsnum
}.

(** The two counters of a [DatalogGenerator], and how many times the
    clock has been read so far. *)
Record GenState : Type := mkGenState {
  refCounter : nat;
  inputCounter : nat;
  clockReads : nat
}.

Definition Gen (A : Type) : Type := GenState -> Exc (A * GenState).

Definition ret {A} (a : A) : Gen A := fun st => Ok (a, st).

Definition bind {A B} (m : Gen A) (k : A -> Gen B) : Gen B :=
  fun st =>
    match m st with
    | Ok (a, st') => k a st'
    | Throw e => Throw e
    end.

Definition throw {A} (e : Thrown) : Gen A := fun _ => Throw e.

Notation "x <- m ;; k" := (bind m (fun x => k))
  (at level 61, m at next level, right associativity).

(** [this.refCounter++] *)
Definition nextRef : Gen nat :=
  fun st => Ok (refCounter st,
                mkGenState (S (refCounter st)) (inputCounter st) (clockReads st)).

(** [this.inputCounter++] *)
Definition nextInput : Gen nat :=
  fun st => Ok (inputCounter st,
                mkGenState (refCounter st) (S (inputCounter st)) (clockReads st)).

(** [new Date()]: the time value of one more reading of the clock. *)
Definition newDateNow (env : Env) : Gen Z :=
  fun st => Ok (clock env (clockReads st),
                mkGenState (refCounter st) (inputCounter st) (S (clockReads st))).

Definition escapeString (str : string) : string :=
  Str.replaceAllChar Str.dquote (String Str.backslash (Str.chr Str.dquote))
    (Str.replaceAllChar Str.backslash
       (String Str.backslash (Str.chr Str.backslash)) str).

(** A string literal of the target language: the text between quotes. *)
Definition quoted (s : string) : string :=
  Str.chr Str.dquote ++ s ++ Str.chr Str.dquote.

Definition emptyClauses : DatalogClauses := mkClauses [] [] [].

(** ** Date resolution *)

Definition dayMs : Z := (24 * 60 * 60 * 1000)%Z.

(** Longest prefix of characters satisfying [p], and what follows it. *)
Fixpoint span (p : ascii -> bool) (s : string) : string * string :=
  match s with
  | EmptyString => (EmptyString, EmptyString)
  | String c rest =>
      if p c then let (a, b) := span p rest in (String c a, b)
      else (EmptyString, s)
  end.

Definition stripPrefix (pre s : string) : option string :=
  if prefix pre s
  then Some (substring (length pre) (length s - length pre) s)
  else None.

Definition isEmpty (s : string) : bool :=
  match s with EmptyString => true | _ => false end.

(** [parseInt(digits, 10)] on a run of decimal digits. *)
Fixpoint parseDigits (acc : Z) (digits : string) : Z :=
  match digits with
  | EmptyString => acc
  | String c rest =>
      parseDigits (10 * acc + Z.of_nat (Str.code c - 48))%Z rest
  end.

Definition parseInt10 (digits : string) : Z := parseDigits 0%Z digits.

(** [(day|week|month|year)] at the head of [s]: the unit and the rest. *)
Definition matchUnit (s : string) : option (string * string) :=
  match stripPrefix "day" s with
  | Some r => Some ("day", r)
  | None =>
  match stripPrefix "week" s with
  | Some r => Some ("week", r)
  | None =>
  match stripPrefix "month" s with
  | Some r => Some ("month", r)
  | None =>
  match stripPrefix "year" s with
  | Some r => Some ("year", r)
  | None => None
  end end end end.

(** [\s+ago$] *)
Definition matchAgoTail (s : string) : bool :=
  let (ws, r) := span Str.isWhiteSpace s in
  negb (isEmpty ws) && (r =? "ago").

(** [dateStr.match(/^(\d+)\s+(day|week|month|year)s?\s+ago$/)]: the two
    groups of a match.  Each repetition is followed by a pattern that
    cannot start with a character it repeats, so only its longest match
    is tried; [s?] is tried with the [s] first, then without. *)
Definition matchAgo (dateStr : string) : option (string * string) :=
  let (digits, r1) := span Str.isDigit dateStr in
  if isEmpty digits then None else
  let (ws, r2) := span Str.isWhiteSpace r1 in
  if isEmpty ws then None else
  match matchUnit r2 with
  | None => None
  | Some (unit, r3) =>
      let withS := match stripPrefix "s" r3 with
                   | Some r4 => matchAgoTail r4
                   | None => false
                   end in
      if withS || matchAgoTail r3 then Some (digits, unit) else None
  end.

(** [/(\d+)(st|nd|rd|th)/] matched at the head of [s]: the replacement
    of the match by its first group, followed by the rest of [s]. *)
Definition ordinalAt (s : string) : option string :=
  let (digits, r) := span Str.isDigit s in
  if isEmpty digits then None
  else if prefix "st" r || prefix "nd" r || prefix "rd" r || prefix "th" r
       then Some (digits ++ substring 2 (length r - 2) r)
       else None.

(** [dateStr.replace(/(\d+)(st|nd|rd|th)/, '$1')]: the leftmost match
    only, the pattern having no [g] flag. *)
Fixpoint stripOrdinal (s : string) : string :=
  match ordinalAt s with
  | Some replaced => replaced
  | None =>
      match s with
      | EmptyString => EmptyString
      | String c rest => String c (stripOrdinal rest)
      end
  end.

Section Dates.
Variable env : Env.

Let newDate3 := JSDate.fromFields (LocalTZA env).
Let fullYear := JSDate.getFullYear (LocalTZA env).
Let month := JSDate.getMonth (LocalTZA env).
Let date := JSDate.getDate (LocalTZA env).

Definition subtractFromDate (d : jsnum) (amount : Z) (unit : string) : jsnum :=
  if unit =? "day" then
    JSDate.fromValue (jssub d (Num (amount * 24 * 60 * 60 * 1000)%Z))
  else if unit =? "week" then
    JSDate.fromValue (jssub d (Num (amount * 7 * 24 * 60 * 60 * 1000)%Z))
  else if unit =? "month" then
    newDate3 (fullYear d) (jssub (month d) (Num amount)) (date d)
  else if unit =? "year" then
    newDate3 (jssub (fullYear d) (Num amount)) (month d) (date d)
  else d.

(** [null] is [None]. *)
Definition parseRelativeDate (dateStr : string) : Gen (option jsnum) :=
  t <- newDateNow env ;;
  let now := Num t in
  let startOfToday := newDate3 (fullYear now) (month now) (date now) in
  ret
    (if dateStr =? "today" then Some startOfToday
     else if dateStr =? "yesterday" then
       Some (JSDate.fromValue (jssub startOfToday (Num dayMs)))
     else if dateStr =? "tomorrow" then
       Some (JSDate.fromValue (jsadd startOfToday (Num dayMs)))
     else if (dateStr =? "last week") || (dateStr =? "a week ago") then
       Some (JSDate.fromValue (jssub startOfToday (Num (7 * dayMs)%Z)))
     else if dateStr =? "this week" then
       let dayOfWeek := JSDate.getDay (LocalTZA env) now in
       Some (JSDate.fromValue
               (jssub startOfToday (jsmul dayOfWeek (Num dayMs))))
     else if dateStr =? "next week" then
       Some (JSDate.fromValue (jsadd startOfToday (Num (7 * dayMs)%Z)))
     else if (dateStr =? "last month") || (dateStr =? "a month ago") then
       Some (newDate3 (fullYear now) (jssub (month now) (Num 1%Z)) (date now))
     else if dateStr =? "this month" then
       Some (newDate3 (fullYear now) (month now) (Num 1%Z))
     else if dateStr =? "next month" then
       Some (newDate3 (fullYear now) (jsadd (month now) (Num 1%Z)) (date now))
     else if (dateStr =? "last year") || (dateStr =? "a year ago") then
       Some (newDate3 (jssub (fullYear now) (Num 1%Z)) (month now) (date now))
     else if dateStr =? "this year" then
       Some (newDate3 (fullYear now) (Num 0%Z) (Num 1%Z))
     else if dateStr =? "next year" then
       Some (newDate3 (jsadd (fullYear now) (Num 1%Z)) (month now) (date now))
     else
       match matchAgo dateStr with
       | Some (digits, unit) =>
           Some (subtractFromDate startOfToday (parseInt10 digits) unit)
       | None => None
       end).

Definition roamDateToTimestamp (dateStr : string) : Gen jsnum :=
  let normalized := Str.trim (Str.toLowerCase dateStr) in
  relativeDate <- parseRelativeDate normalized ;;
  match relativeDate with
  | Some r => ret r
  | None =>
      let cleaned := stripOrdinal dateStr in
      match DateParse env cleaned with
      | NaN =>
          match DateParse env dateStr with
          | Num iso => ret (Num iso)
          | NaN => throw (ErrorObj ("Cannot parse date: " ++ dateStr))
          end
      | Num t => ret (Num t)
      end
  end.
End Dates.

(** ** Clause generation *)

(** [(and f1 f2 ...)] *)
Definition andGroup (fragments : list string) : string :=
  "(and " ++ Str.join " " fragments ++ ")".

(** One fragment is used as it is, any other number is grouped. *)
Definition oneOrGroup (fragments : list string) : string :=
  match fragments with
  | [f] => f
  | _ => andGroup fragments
  end.

Definition orJoin (blockVar : string) (orBranches : list string) : string :=
  "(or-join [" ++ blockVar ++ "] " ++ Str.join " " orBranches ++ ")".

Section Children.
(** The recursive call [this.generateNode(child, blockVar)]. *)
Variable generateChild : QueryNode -> Gen DatalogClauses.

(** The loop of [generateAnd]; [acc] holds the arrays [where],
    [inputs] and [inputValues] built so far. *)
Fixpoint andLoop (children : list QueryNode) (acc : DatalogClauses)
  : Gen DatalogClauses :=
  match children with
  | [] => ret acc
  | child :: rest =>
      childClauses <- generateChild child ;;
      andLoop rest
        (mkClauses (where_ acc ++ where_ childClauses)
                   (inputs acc ++ inputs childClauses)
                   (inputValues acc ++ inputValues childClauses))
  end.

Definition generateAnd (children : list QueryNode) : Gen DatalogClauses :=
  andLoop children emptyClauses.

(** The loop of [generateOr]; the accumulated [where_] holds the array
    [orBranches]. *)
Fixpoint orLoop (children : list QueryNode) (acc : DatalogClauses)
  : Gen DatalogClauses :=
  match children with
  | [] => ret acc
  | child :: rest =>
      childClauses <- generateChild child ;;
      orLoop rest
        (mkClauses (where_ acc ++ [oneOrGroup (where_ childClauses)])
                   (inputs acc ++ inputs childClauses)
                   (inputValues acc ++ inputValues childClauses))
  end.

Definition generateOr (children : list QueryNode) (blockVar : string)
  : Gen DatalogClauses :=
  acc <- orLoop children emptyClauses ;;
  ret (mkClauses [orJoin blockVar (where_ acc)] (inputs acc) (inputValues acc)).

Definition generateNot (child : QueryNode) : Gen DatalogClauses :=
  childClauses <- generateChild child ;;
  let notContent := oneOrGroup (where_ childClauses) in
  let notClause := "(not " ++ notContent ++ ")" in
  ret (mkClauses [notClause] (inputs childClauses) (inputValues childClauses)).
End Children.

Definition generateBetween (env : Env) (startDate endDate blockVar : string)
  : Gen DatalogClauses :=
  i <- nextInput ;;
  let startVar := "?start-date-" ++ Str.ofNat i in
  j <- nextInput ;;
  let endVar := "?end-date-" ++ Str.ofNat j in
  startTs <- roamDateToTimestamp env startDate ;;
  endRaw <- roamDateToTimestamp env endDate ;;
  let endTs := jsadd endRaw (Num (24 * 60 * 60 * 1000 - 1)%Z) in
  ret (mkClauses
         [ "[" ++ blockVar ++ " :create/time ?create-time]";
           "[(>= ?create-time " ++ startVar ++ ")]";
           "[(<= ?create-time " ++ endVar ++ ")]" ]
         [startVar; endVar]
         [VNum startTs; VNum endTs]).

Definition generateTag (tagName blockVar : string) : Gen DatalogClauses :=
  n <- nextRef ;;
  let refVar := "?ref-" ++ Str.ofNat n in
  ret (mkClauses
         [ "[" ++ refVar ++ " :node/title " ++ quoted (escapeString tagName) ++ "]";
           "[" ++ blockVar ++ " :block/refs " ++ refVar ++ "]" ]
         [] []).

Definition generateBlockRef (uid blockVar : string) : Gen DatalogClauses :=
  n <- nextRef ;;
  let refVar := "?block-ref-" ++ Str.ofNat n in
  ret (mkClauses
         [ "[" ++ refVar ++ " :block/uid " ++ quoted (escapeString uid) ++ "]";
           "[" ++ blockVar ++ " :block/refs " ++ refVar ++ "]" ]
         [] []).

Definition generateSearch (text blockVar : string) : Gen DatalogClauses :=
  ret (mkClauses
         [ "[(clojure.string/includes? ?block-str "
             ++ quoted (escapeString text) ++ ")]" ]
         [] []).

Definition dailyTitlePattern : string :=
  "^(January|February|March|April|May|June|July|August|September|October|November|December) \d{1,2}(st|nd|rd|th), \d{4}$".

Definition generateDailyNotes (blockVar : string) : Gen DatalogClauses :=
  ret (mkClauses
         [ "[" ++ blockVar ++ " :block/page ?daily-page]";
           "[?daily-page :node/title ?daily-title]";
           "[(re-find #" ++ quoted dailyTitlePattern ++ " ?daily-title)]" ]
         [] []).

Definition nl (indent : nat) : string :=
  String Str.newline (String.concat EmptyString (repeat " " indent)).

Definition generateBy (user blockVar : string) : Gen DatalogClauses :=
  let escapedUser := escapeString user in
  ret (mkClauses
         [ "(or-join [" ++ blockVar ++ "]" ++ nl 8
             ++ "(and [" ++ blockVar ++ " :create/user ?by-creator]" ++ nl 13
             ++ "[?by-creator :user/display-name " ++ quoted escapedUser ++ "])" ++ nl 8
             ++ "(and [" ++ blockVar ++ " :edit/user ?by-editor]" ++ nl 13
             ++ "[?by-editor :user/display-name " ++ quoted escapedUser ++ "]))" ]
         [] []).

Definition generateUserClause (user blockVar attribute varName : string)
  : Gen DatalogClauses :=
  ret (mkClauses
         [ "[" ++ blockVar ++ " " ++ attribute ++ " ?" ++ varName ++ "]";
           "[?" ++ varName ++ " :user/display-name "
             ++ quoted (escapeString user) ++ "]" ]
         [] []).

Definition generateCreatedBy (user blockVar : string) : Gen DatalogClauses :=
  generateUserClause user blockVar ":create/user" "creator".

Definition generateEditedBy (user blockVar : string) : Gen DatalogClauses :=
  generateUserClause user blockVar ":edit/user" "editor".

Fixpoint generateNode (env : Env) (node : QueryNode) (blockVar : string)
  {struct node} : Gen DatalogClauses :=
  match node with
  | And children =>
      generateAnd (fun child => generateNode env child blockVar) children
  | Or children =>
      generateOr (fun child => generateNode env child blockVar) children blockVar
  | Not child =>
      generateNot (fun c => generateNode env c blockVar) child
  | Between startDate endDate => generateBetween env startDate endDate blockVar
  | Tag value => generateTag value blockVar
  | BlockRef uid => generateBlockRef uid blockVar
  | Search text => generateSearch text blockVar
  | DailyNotes => generateDailyNotes blockVar
  | By user => generateBy user blockVar
  | CreatedBy user => generateCreatedBy user blockVar
  | EditedBy user => generateEditedBy user blockVar
  end.

(** [generate]: both counters are reset, then the node is generated
    against the subject variable [?b]. *)
Definition generate (env : Env) (node : QueryNode) : Gen DatalogClauses :=
  fun st =>
    generateNode env node "?b" (mkGenState 0 0 (clockReads st)).

(* ================================================================== *)
(** * The query builder ([buildDatalogQuery]) *)
(* ================================================================== *)

(** The options of [buildDatalogQuery]; the fields [select], [limit],
    [offset], [orderBy] and [pageUid] of the source carry the prefix
    [bo_] here, [QueryOptions] having fields of the same names. *)
Record BuildOptions : Type := mkBuildOptions {
  bo_select : option (list string);
  bo_limit : option Z;
  bo_offset : option Z;
  bo_orderBy : option string;
  bo_pageUid : option string
}.

(** [buildDatalogQuery(clauses)]: the options default to [{}]. *)
Definition noOptions : BuildOptions := mkBuildOptions None None None None None.

Record BuiltQuery : Type := mkBuilt {
  query : string;
  args : list Value
}.

(** [if (s)] on an optional string: [undefined] and the empty string are
    both falsy. *)
Definition truthy (s : option string) : bool :=
  match s with
  | Some v => negb (isEmpty v)
  | None => false
  end.

Definition defaultSelect : list string :=
  ["?block-uid"; "?block-str"; "?page-title"].

(** The [:in] clause, shared by both builders. *)
Definition inClause (clauses : DatalogClauses) (pageUid : option string) : string :=
  let s0 := ":in $" in
  let s1 := match inputs clauses with
            | [] => s0
            | _ => s0 ++ " " ++ Str.join " " (inputs clauses)
            end in
  if truthy pageUid then s1 ++ " ?target-page-uid" else s1.

(** The numbers of the options, [limit] and [offset], are taken as
    integers that JavaScript prints as their decimal numeral (the
    integers a number represents exactly, below 1e21 in magnitude);
    [Str.ofZ] is their [`${n}`].  A number that JavaScript prints
    otherwise (a fraction, [NaN], an infinity, an integer from 1e21 on,
    which is printed with an exponent) is outside this model. *)
Definition limitModifier (limit : option Z) : list string :=
  match limit with
  | Some l => if (l =? -1)%Z then [] else [":limit " ++ Str.ofZ l]
  | None => []
  end.

Definition offsetModifier (offset : option Z) : list string :=
  let off := match offset with Some o => o | None => 0%Z end in
  if (off >? 0)%Z then [":offset " ++ Str.ofZ off] else [].

Definition orderModifier (orderBy : option string) : list string :=
  match orderBy with
  | Some o => if truthy orderBy then [":order " ++ o] else []
  | None => []
  end.

Definition modifiers (options : BuildOptions) : list string :=
  (limitModifier (bo_limit options) ++ offsetModifier (bo_offset options)
     ++ orderModifier (bo_orderBy options))%list.

Definition pageScopeClause : string := "[?p :block/uid ?target-page-uid]".

Definition pageScope (pageUid : option string) : list string :=
  if truthy pageUid then [pageScopeClause] else [].

Definition baseClauses (pageUid : option string) : list string :=
  ([ "[?b :block/string ?block-str]";
     "[?b :block/uid ?block-uid]";
     "[?b :block/page ?p]";
     "[?p :node/title ?page-title]" ] ++ pageScope pageUid)%list.

Definition allWhereClauses (clauses : DatalogClauses) (pageUid : option string)
  : list string :=
  (baseClauses pageUid ++ where_ clauses)%list.

(** [[...clauses.inputValues]], then [args.push(pageUid)] under
    [if (pageUid)]; shared by both builders. *)
Definition buildArgs (clauses : DatalogClauses) (pageUid : option string)
  : list Value :=
  match pageUid with
  | Some uid => if truthy pageUid then (inputValues clauses ++ [VStr uid])%list
                else inputValues clauses
  | None => inputValues clauses
  end.

Definition renderQuery (select : list string) (inCl : string)
  (mods whereClauses : list string) : string :=
  "[:find " ++ Str.join " " select ++ nl 18
    ++ inCl ++ " " ++ Str.join " " mods ++ nl 18
    ++ ":where" ++ nl 18
    ++ Str.join (nl 18) whereClauses ++ "]".

Definition buildDatalogQuery (clauses : DatalogClauses) (options : BuildOptions)
  : BuiltQuery :=
  let select := match bo_select options with
                | Some sel => sel
                | None => defaultSelect
                end in
  let pageUid := bo_pageUid options in
  mkBuilt
    (renderQuery select (inClause clauses pageUid) (modifiers options)
       (allWhereClauses clauses pageUid))
    (buildArgs clauses pageUid).

(* ================================================================== *)
(** * The executor ([index.ts]) *)
(* ================================================================== *)

Definition countBaseClauses (pageUid : option string) : list string :=
  ([ "[?b :block/string ?block-str]";
     "[?b :block/uid ?block-uid]";
     "[?b :block/page ?p]" ] ++ pageScope pageUid)%list.

Definition countWhereClauses (clauses : DatalogClauses) (pageUid : option string)
  : list string :=
  (countBaseClauses pageUid ++ where_ clauses)%list.

Definition renderCountQuery (inCl : string) (whereClauses : list string) : string :=
  "[:find (count ?b)" ++ nl 20
    ++ inCl ++ nl 20
    ++ ":where" ++ nl 20
    ++ Str.join (nl 20) whereClauses ++ "]".

Definition buildCountQuery (clauses : DatalogClauses) (pageUid : option string)
  : BuiltQuery :=
  mkBuilt
    (renderCountQuery (inClause clauses pageUid) (countWhereClauses clauses pageUid))
    (buildArgs clauses pageUid).

Record Match : Type := mkMatch {
  block_uid : Value;
  content : string;
  page_title : Value
}.

(** [query_text] is the field [query] of the source. *)
Record QueryResult : Type := mkResult {
  success : bool;
  matches : list Match;
  message : string;
  total_count : option Value;
  query_text : option string
}.

(** The collaborators of the executor: the parser ([QueryParser.parse]),
    the query capability ([q(graph, query, args)], whose rows are arrays
    of cells) and the resolution of references in a text
    ([resolveRefs(graph, content)]).  Each may fail.  The resolutions of
    the rows of one result run concurrently: [settledAt i] is the instant
    at which the promise of row [i] settles. *)
Record Host : Type := mkHost {
  parse : string -> Exc QueryNode;
  q : string -> list Value -> Exc (list (list Value));
  resolveRefs : Value -> Exc string;
  settledAt : nat -> nat
}.

(** [row[i]]: [undefined] past the end of the row. *)
Definition cell (row : list Value) (i : nat) : Value := nth i row VUndefined.

(** [rawResults.map(async ([uid, content, pageTitle]) => ...)]: one
    promise per row, from row [i] on, each with the instant at which it
    settles and its outcome. *)
Fixpoint rowPromises (host : Host) (i : nat) (rawResults : list (list Value))
  : list (nat * Exc Match) :=
  match rawResults with
  | [] => []
  | row :: rest =>
      (settledAt host i,
       exc_bind (resolveRefs host (cell row 1)) (fun resolvedContent =>
       Ok (mkMatch (cell row 0) resolvedContent (cell row 2))))
      :: rowPromises host (S i) rest
  end.

(** The rejection that comes first in time, the leftmost of those of
    one instant. *)
Fixpoint firstRejection {A} (promises : list (nat * Exc A)) : option (nat * Thrown) :=
  match promises with
  | [] => None
  | (_, Ok _) :: rest => firstRejection rest
  | (t, Throw e) :: rest =>
      match firstRejection rest with
      | Some (t', e') => if (t' <? t)%nat then Some (t', e') else Some (t, e)
      | None => Some (t, e)
      end
  end.

Fixpoint fulfilled {A} (promises : list (nat * Exc A)) : list A :=
  match promises with
  | [] => []
  | (_, Ok a) :: rest => a :: fulfilled rest
  | (_, Throw _) :: rest => fulfilled rest
  end.

(** [await Promise.all(promises)]: the values in the order of the
    promises when all are fulfilled, and otherwise the rejection that
    comes first in time. *)
Definition promiseAll {A} (promises : list (nat * Exc A)) : Exc (list A) :=
  match firstRejection promises with
  | Some (_, e) => Throw e
  | None => Ok (fulfilled promises)
  end.

Definition resolveRows (host : Host) (rawResults : list (list Value))
  : Exc (list Match) :=
  promiseAll (rowPromises host 0 rawResults).

(** [countResults[0]?.[0] ?? 0] *)
Definition firstCount (countResults : list (list Value)) : Value :=
  match countResults with
  | (VUndefined :: _) :: _ => VNum (Num 0%Z)
  | (v :: _) :: _ => v
  | _ => VNum (Num 0%Z)
  end.

(** [error instanceof Error ? error.message : String(error)], which
    throws when [String] cannot convert the value. *)
Definition errorMessage (e : Thrown) : Exc string :=
  match e with
  | ErrorObj m => Ok m
  | OtherValue rendered => Ok rendered
  | NoString raised => Throw raised
  end.

(** The [catch] block of [execute]. *)
Definition failure (e : Thrown) : Exc QueryResult :=
  exc_bind (errorMessage e) (fun message =>
  Ok (mkResult false [] message None None)).

(** The body of the [try] block of [execute]. *)
Definition executeBody (host : Host) (env : Env) (queryBlock : string)
  (options : QueryOptions) (st : GenState) : Exc QueryResult :=
  exc_bind (parse host queryBlock) (fun ast =>
  exc_bind (generate env ast st) (fun generated =>
  let clauses := fst generated in
  let built := buildDatalogQuery clauses
                 (mkBuildOptions None (limit options) (offset options)
                    (if truthy (orderBy options) then orderBy options
                     else Some "?block-uid asc")
                    (pageUid options)) in
  exc_bind (q host (query built) (args built)) (fun rawResults =>
  exc_bind (resolveRows host rawResults) (fun resolvedResults =>
  let bounded := match limit options with
                 | Some l => negb (l =? -1)%Z
                 | None => false
                 end in
  exc_bind
    (if bounded then
       let countQuery := buildCountQuery clauses (pageUid options) in
       exc_bind (q host (query countQuery) (args countQuery)) (fun countResults =>
       Ok (firstCount countResults))
     else Ok (VNum (Num (Z.of_nat (List.length resolvedResults)))))
    (fun totalCount =>
  Ok (mkResult true resolvedResults
        ("Found " ++ Str.ofNat (List.length resolvedResults)
           ++ " block(s) matching query")
        (Some totalCount) (Some (query built)))))))).

Definition execute (host : Host) (env : Env) (queryBlock : string)
  (options : QueryOptions) (st : GenState) : Exc QueryResult :=
  try_catch (executeBody host env queryBlock options st) failure.

(** [QueryExecutor.parse], the entry point that parses and generates
    without executing; the method is named [parseOnly] here, [parse]
    being the parser of the host.  Its errors are not caught. *)
Definition parseOnly (host : Host) (env : Env) (queryBlock : string)
  (st : GenState) : Exc (QueryNode * BuiltQuery) :=
  exc_bind (parse host queryBlock) (fun ast =>
  exc_bind (generate env ast st) (fun generated =>
  let clauses := fst generated in
  let datalog := buildDatalogQuery clauses noOptions in
  Ok (ast, datalog))).

(** ** Block-extraction utilities *)

Definition wrapperPrefix : string := "{{[[query]]:".

(** [Canonicalize] of ECMA-262 for a pattern with the [i] flag and
    without the [u] flag: the code unit of the upper-case form, unless
    that form is longer than one code unit (U+00DF) or would turn a
    non-ASCII character into an ASCII one.  U+00B5 and U+00FF have
    upper-case forms above 255. *)
Definition canonicalize (c : ascii) : nat :=
  let n := Str.code c in
  if (((97 <=? n) && (n <=? 122))
      || ((224 <=? n) && (n <=? 254) && negb (n =? 247)))%nat then n - 32
  else if (n =? 181)%nat then 924
  else if (n =? 255)%nat then 376
  else n.

(** The characters of a literal pattern, one by one, ignoring case. *)
Fixpoint matchLiteralCI (pattern text : string) : bool :=
  match pattern, text with
  | EmptyString, _ => true
  | String p pattern', String c text' =>
      (canonicalize p =? canonicalize c)%nat && matchLiteralCI pattern' text'
  | String _ _, EmptyString => false
  end.

(** [\s*] followed by the pattern [next]: the longest run of white
    space first, then shorter ones. *)
Fixpoint matchSpacesThen (next : string -> bool) (text : string) : bool :=
  match text with
  | EmptyString => next text
  | String c rest =>
      if Str.isWhiteSpace c then matchSpacesThen next rest || next text
      else next text
  end.

(** [/^\s*\{\{\[\[query\]\]:/i.test(text)] *)
Definition isQueryBlock (text : string) : bool :=
  matchSpacesThen (matchLiteralCI wrapperPrefix) text.

(** The inner loop of [extractQueryBlocks]: the values of [depth] and
    [pos] when it ends.  Every turn advances [pos], so [fuel] turns
    suffice once [fuel] is at least the length of the text. *)
Fixpoint scanBraces (fuel : nat) (text : string) (depth pos : nat) : nat * nat :=
  match fuel with
  | O => (depth, pos)
  | S fuel' =>
      if ((pos <? length text) && (0 <? depth))%nat then
        let depth' :=
          match get pos text with
          | Some c =>
              if Ascii.eqb c "{" then S depth
              else if Ascii.eqb c "}" then depth - 1
              else depth
          | None => depth
          end in
        scanBraces fuel' text depth' (S pos)
      else (depth, pos)
  end.

(** The outer loop; [text.indexOf(prefix, startIdx)] is [index]. *)
Fixpoint extractLoop (fuel : nat) (text : string) (startIdx : nat)
  (found : list string) : list string :=
  match fuel with
  | O => found
  | S fuel' =>
      if (startIdx <? length text)%nat then
        match index startIdx wrapperPrefix text with
        | None => found
        | Some foundIdx =>
            let (depth, pos) :=
              scanBraces (length text) text 2 (foundIdx + length wrapperPrefix) in
            let found' :=
              if (depth =? 0)%nat
              then (found ++ [Str.slice text foundIdx pos])%list
              else found in
            extractLoop fuel' text pos found'
        end
      else found
  end.

Definition extractQueryBlocks (text : string) : list string :=
  extractLoop (length text) text 0 [].

(* ================================================================== *)
(** * The parser ([parser.ts]) *)
(* ================================================================== *)

Module QueryParser.

(** [QueryParseError]: an [Error] with a message and the position of the
    parser at the [throw]; every [throw] of the parser passes
    [this.pos]. *)
Record QueryParseError : Type := mkParseError {
  pe_message : string;
  pe_position : nat
}.

(** What a method of the parser does: it returns a value, with the text
    that remains from [this.pos] on and [this.pos] itself, or it throws.
    The recursion on nested expressions is bounded by fuel; running out
    of it is kept apart from the errors and never happens
    ([parseWithName_fuel]). *)
Inductive Outcome (A : Type) : Type :=
| Done (value : A) (rest : string) (pos : nat)
| Fail (error : QueryParseError)
| NoFuel.
Arguments Done {A} value rest pos.
Arguments Fail {A} error.
Arguments NoFuel {A}.

(** A method reads from [this.input.slice(this.pos)], the text that
    remains, at [this.pos]. *)
Definition Parser (A : Type) : Type := string -> nat -> Outcome A.

Definition failAt {A} (message : string) (pos : nat) : Outcome A :=
  Fail (mkParseError message pos).

Definition pure {A} (a : A) : Parser A := fun s pos => Done a s pos.

Definition bindP {A B} (p : Parser A) (k : A -> Parser B) : Parser B :=
  fun s pos =>
    match p s pos with
    | Done a rest pos' => k a rest pos'
    | Fail e => Fail e
    | NoFuel => NoFuel
    end.

Notation "x <~ p ;; k" := (bindP p (fun x => k))
  (at level 61, p at next level, right associativity).

(** [this.pos] once [s] is read down to its suffix [rest]. *)
Definition advance (s : string) (pos : nat) (rest : string) : nat :=
  pos + (String.length s - String.length rest).

Fixpoint skipWhitespace (s : string) (pos : nat) : Outcome unit :=
  match s with
  | String c rest =>
      if Str.isWhiteSpace c then skipWhitespace rest (S pos) else Done tt s pos
  | EmptyString => Done tt s pos
  end.

(** [this.input[this.pos] || 'EOF'] *)
Definition found (s : string) : string :=
  match s with
  | String a _ => Str.chr a
  | EmptyString => "EOF"
  end.

Definition expect (char : ascii) : Parser unit :=
  fun s pos =>
    let error := failAt ("Expected '" ++ Str.chr char ++ "' at position "
                           ++ Str.ofNat pos ++ ", found '" ++ found s ++ "'") pos in
    match s with
    | String a rest => if Ascii.eqb a char then Done tt rest (S pos) else error
    | EmptyString => error
    end.

(** [s] without its prefix [w], when it has it. *)
Fixpoint dropPrefix (w s : string) : option string :=
  match w, s with
  | EmptyString, _ => Some s
  | String a w', String b s' =>
      if Ascii.eqb a b then dropPrefix w' s' else None
  | String _ _, EmptyString => None
  end.

(** [s.startsWith(w)], and [s.slice(0, 2) === w] for a [w] of two
    characters. *)
Definition startsWith (w s : string) : bool :=
  match dropPrefix w s with
  | Some _ => true
  | None => false
  end.

Definition consFst {A} (c : string) (r : string * A) : string * A :=
  (c ++ fst r, snd r).

Definition consSome (c : string) (r : option (string * string))
  : option (string * string) :=
  match r with
  | Some (value, rest) => Some (c ++ value, rest)
  | None => None
  end.

(** The loop shared by [parseQuotedString] and the quoted branch of
    [parseSearch], from just past the opening quote: the text read, and
    what remains when the loop ends, which is empty or starts with the
    closing quote.  A backslash before a quote makes the quote part of
    the text. *)
Fixpoint scanQuoted (s : string) : string * string :=
  match s with
  | EmptyString => (EmptyString, EmptyString)
  | String c rest =>
      if Ascii.eqb c Str.dquote then (EmptyString, s)
      else
        match rest with
        | String c' rest' =>
            if Ascii.eqb c Str.backslash && Ascii.eqb c' Str.dquote
            then consFst (Str.chr Str.dquote) (scanQuoted rest')
            else consFst (Str.chr c) (scanQuoted rest)
        | EmptyString => (Str.chr c, EmptyString)
        end
  end.

Definition parseQuotedString : Parser string :=
  _ <~ expect Str.dquote ;;
  fun s pos =>
    let (value, rest) := scanQuoted s in
    match rest with
    | String _ rest' => Done value rest' (advance s pos rest')
    | EmptyString => failAt "Unclosed quoted string" (advance s pos rest)
    end.

(** The loop of [parseTag], from just past the opening brackets: the
    text up to the closing brackets that match them, and what follows;
    nothing when the text ends first.  [depth] here is the [depth] of the
    source less one, the number of nested pairs that are open. *)
Fixpoint scanTag (s : string) (depth : nat) : option (string * string) :=
  match s with
  | EmptyString => None
  | String c rest =>
      match rest with
      | String c' rest' =>
          if Ascii.eqb c "]" && Ascii.eqb c' "]" then
            match depth with
            | O => Some (EmptyString, rest')
            | S depth' => consSome "]]" (scanTag rest' depth')
            end
          else if Ascii.eqb c "[" && Ascii.eqb c' "[" then
            consSome "[[" (scanTag rest' (S depth))
          else consSome (Str.chr c) (scanTag rest depth)
      | EmptyString => None
      end
  end.

(** [parseTag], which returns the value of the tag node. *)
Definition parseTag : Parser string :=
  _ <~ expect "[" ;;
  _ <~ expect "[" ;;
  fun s pos =>
    match scanTag s 0 with
    | Some (value, rest) => Done (Str.trim value) rest (advance s pos rest)
    | None => failAt "Unclosed tag reference" (pos + String.length s)
    end.

(** The loop of [parseBlockRef], from just past the opening
    parentheses: the text up to the first [))], or up to the end of the
    input when there is none, and what follows. *)
Fixpoint scanBlockRef (s : string) : string * string :=
  match s with
  | EmptyString => (EmptyString, EmptyString)
  | String c rest =>
      match rest with
      | String c' rest' =>
          if Ascii.eqb c ")" && Ascii.eqb c' ")" then (EmptyString, rest')
          else consFst (Str.chr c) (scanBlockRef rest)
      | EmptyString => (Str.chr c, EmptyString)
      end
  end.

(** [parseBlockRef], which returns the identifier of the node. *)
Definition parseBlockRef : Parser string :=
  _ <~ expect "(" ;;
  _ <~ expect "(" ;;
  fun s pos =>
    let (uid, rest) := scanBlockRef s in
    if isEmpty uid then failAt "Empty block reference" (advance s pos rest)
    else Done (Str.trim uid) rest (advance s pos rest).

(** Plain text up to a closing brace, which is left in place, or up to
    the end of the input. *)
Fixpoint scanToBrace (s : string) : string * string :=
  match s with
  | EmptyString => (EmptyString, EmptyString)
  | String c rest =>
      if Ascii.eqb c "}" then (EmptyString, s)
      else consFst (Str.chr c) (scanToBrace rest)
  end.

Definition parseSearch : Parser QueryNode :=
  _ <~ skipWhitespace ;;
  fun s pos =>
    match s with
    | String c body =>
        if Ascii.eqb c Str.dquote then
          let (text, rest) := scanQuoted body in
          match rest with
          | String _ rest' => Done (Search text) rest' (advance s pos rest')
          | EmptyString => Done (Search text) rest (advance s pos rest)
          end
        else
          let (text, rest) := scanToBrace s in
          Done (Search (Str.trim text)) rest (advance s pos rest)
    | EmptyString => Done (Search EmptyString) s pos
    end.

Definition parseDailyNotes : Parser QueryNode := pure DailyNotes.

Definition parseUserIdentifier : Parser string :=
  fun s pos =>
    if startsWith "[[" s then parseTag s pos
    else
      let (user, rest) := scanToBrace s in
      Done (Str.trim user) rest (advance s pos rest).

(** The node of type ['by'], ['created-by'] or ['edited-by']. *)
Definition userNode (type user : string) : QueryNode :=
  if type =? "by" then By user
  else if type =? "created-by" then CreatedBy user
  else EditedBy user.

Definition parseUserClause (type : string) : Parser QueryNode :=
  _ <~ skipWhitespace ;;
  user <~ parseUserIdentifier ;;
  pure (userNode type user).

Definition parseBetween : Parser QueryNode :=
  _ <~ skipWhitespace ;;
  startTag <~ parseTag ;;
  _ <~ skipWhitespace ;;
  endTag <~ parseTag ;;
  pure (Between startTag endTag).

(** [/[a-zA-Z]/] *)
Definition isLetter (c : ascii) : bool :=
  let n := Str.code c in
  (((97 <=? n) && (n <=? 122)) || ((65 <=? n) && (n <=? 90)))%nat.

Definition parseIdentifier : Parser string :=
  fun s pos =>
    let (id, rest) := span isLetter s in
    Done id rest (advance s pos rest).

Definition knownMultiWord : list string :=
  ["created by"; "edited by"; "daily notes"].

(** [s.slice(n)] *)
Fixpoint sliceFrom (n : nat) (s : string) : string :=
  match n, s with
  | S n', String _ rest => sliceFrom n' rest
  | _, _ => s
  end.

(** The [for] loop of [parseOperatorName] over the multi-word
    operators. *)
Fixpoint matchMultiWord (ops : list string) (remaining : string) : option string :=
  match ops with
  | [] => None
  | op :: others =>
      if startsWith op remaining then Some op
      else matchMultiWord others remaining
  end.

Definition parseOperatorName : Parser string :=
  fun s pos =>
    let remaining := Str.toLowerCase s in
    match matchMultiWord knownMultiWord remaining with
    | Some op =>
        Done op (sliceFrom (String.length op) s) (pos + String.length op)
    | None => parseIdentifier s pos
    end.

(** The node [{ type, children }] for the type ['and'] or ['or']. *)
Definition andOrNode (type : string) (children : list QueryNode) : QueryNode :=
  if type =? "and" then And children else Or children.

Section Operator.
(** [parseExpression], and the [while] loop of [parseAndOr] from a list
    of children read so far (last first), at the nesting that the fuel
    left allows. *)
Variable expression : Parser QueryNode.
Variable children : list QueryNode -> Parser (list QueryNode).

Definition parseAndOr (type : string) : Parser QueryNode :=
  _ <~ skipWhitespace ;;
  nodes <~ children [] ;;
  fun s pos =>
    match nodes with
    | [] => failAt (type ++ " operator requires at least one child") pos
    | _ :: _ => Done (andOrNode type nodes) s pos
    end.

Definition parseNot : Parser QueryNode :=
  _ <~ skipWhitespace ;;
  child <~ expression ;;
  pure (Not child).

(** The [switch] of [parseOperator]. *)
Definition parseClause (operator : string) : Parser QueryNode :=
  let name := Str.toLowerCase operator in
  if name =? "and" then parseAndOr "and"
  else if name =? "or" then parseAndOr "or"
  else if name =? "not" then parseNot
  else if name =? "between" then parseBetween
  else if name =? "search" then parseSearch
  else if name =? "daily notes" then parseDailyNotes
  else if name =? "by" then parseUserClause "by"
  else if name =? "created by" then parseUserClause "created-by"
  else if name =? "edited by" then parseUserClause "edited-by"
  else fun s pos => failAt ("Unknown operator: " ++ operator) pos.

Definition parseOperator : Parser QueryNode :=
  _ <~ expect "{" ;;
  _ <~ skipWhitespace ;;
  operator <~ parseOperatorName ;;
  _ <~ skipWhitespace ;;
  _ <~ expect ":" ;;
  _ <~ skipWhitespace ;;
  node <~ parseClause operator ;;
  _ <~ skipWhitespace ;;
  _ <~ expect "}" ;;
  pure node.

(** The body of [parseExpression]. *)
Definition parseExpressionWith : Parser QueryNode :=
  _ <~ skipWhitespace ;;
  fun s pos =>
    if startsWith "{" s then parseOperator s pos
    else if startsWith "[[" s then
      (value <~ parseTag ;; pure (Tag value)) s pos
    else if startsWith "((" s then
      (uid <~ parseBlockRef ;; pure (BlockRef uid)) s pos
    else
      failAt ("Expected '{', '[[', or '((' at position " ++ Str.ofNat pos
                ++ ", found: " ++ quoted (Str.slice s 0 10 ++ "...")) pos.

(** One turn of the [while] loop of [parseAndOr]: it ends at the end of
    the input and before a closing brace, and otherwise reads one more
    child and the white space after it. *)
Definition parseChildrenWith (acc : list QueryNode) : Parser (list QueryNode) :=
  fun s pos =>
    match s with
    | EmptyString => Done (rev acc) s pos
    | String c _ =>
        if Ascii.eqb c "}" then Done (rev acc) s pos
        else (node <~ expression ;;
              _ <~ skipWhitespace ;;
              children (node :: acc)) s pos
    end.
End Operator.

Fixpoint parseExpression (fuel : nat) (s : string) (pos : nat) {struct fuel}
  : Outcome QueryNode :=
  match fuel with
  | O => NoFuel
  | S fuel' =>
      parseExpressionWith (fun s' pos' => parseExpression fuel' s' pos')
                          (fun acc s' pos' => parseChildren fuel' acc s' pos') s pos
  end
with parseChildren (fuel : nat) (acc : list QueryNode) (s : string) (pos : nat)
  {struct fuel} : Outcome (list QueryNode) :=
  match fuel with
  | O => NoFuel
  | S fuel' =>
      parseChildrenWith (fun s' pos' => parseExpression fuel' s' pos')
                        (fun acc' s' pos' => parseChildren fuel' acc' s' pos')
                        acc s pos
  end.

Record ParseResult : Type := mkParseResult {
  pr_name : option string;
  pr_query : QueryNode
}.

Definition wrapperOpen : string := "{{[[query]]:".

(** [extractQueryExpression]: the regular expression
    [/^\{\{\[\[query\]\]:\s*(.+)\}\}$/s] matches the trimmed input when
    it starts with [{{[[query]]:], ends with [}}] and has one character
    or more between them; the group, trimmed, is then the text in between,
    trimmed. *)
Definition extractQueryExpression (input : string) : string :=
  let trimmed := Str.trim input in
  match dropPrefix wrapperOpen trimmed with
  | Some inner =>
      let n := String.length inner in
      if (3 <=? n)%nat && (substring (n - 2) 2 inner =? "}}")
      then Str.trim (substring 0 (n - 2) inner)
      else trimmed
  | None => trimmed
  end.

(** The optional name of [parseQueryWithName]. *)
Definition parseName : Parser (option string) :=
  fun s pos =>
    if startsWith (Str.chr Str.dquote) s then
      (name <~ parseQuotedString ;;
       _ <~ skipWhitespace ;;
       pure (Some name)) s pos
    else Done None s pos.

(** The nesting of an expression is less than its length; the fuel is
    twice the length, plus two, for the expressions and for the turns of
    the loops. *)
Definition fuelFor (expression : string) : nat := 2 * String.length expression + 2.

(** [parseQueryWithName] once [this.input] is the expression and
    [this.pos] is 0: the optional name and the expression, then the
    check that nothing but white space follows. *)
Definition parseNamedExpression (fuel : nat) : Parser ParseResult :=
  _ <~ skipWhitespace ;;
  name <~ parseName ;;
  query <~ parseExpression fuel ;;
  pure (mkParseResult name query).

Definition parseExpressionText (expression : string) : Outcome ParseResult :=
  (result <~ parseNamedExpression (fuelFor expression) ;;
   _ <~ skipWhitespace ;;
   fun s pos =>
     match s with
     | EmptyString => Done result s pos
     | String _ _ =>
         failAt ("Unexpected content after query: " ++ quoted s) pos
     end) expression 0.

Definition parseWithName (input : string) : Outcome ParseResult :=
  parseExpressionText (extractQueryExpression input).

(** [QueryParser.parse]: the query of [parseWithName], or the error it
    throws.  The last case is never met ([parseWithName_fuel]). *)
Definition parse (input : string) : QueryParseError + QueryNode :=
  match parseWithName input with
  | Done result _ _ => inr (pr_query result)
  | Fail e => inl e
  | NoFuel => inl (mkParseError EmptyString 0)
  end.

(** ** Notions used to state the properties of the parser *)

(** [rest] is what remains of [s] once some characters are read. *)
Inductive Suffix (rest : string) : string -> Prop :=
| Suffix_refl : Suffix rest rest
| Suffix_skip c s : Suffix rest s -> Suffix rest (String c s).

(** A parser is sound when what it leaves is a suffix of what it was
    given, the position it returns is that of this suffix, and the
    position of its error lies in the text it was given. *)
Definition Sound {A} (p : Parser A) : Prop :=
  forall s pos,
    match p s pos with
    | Done _ rest pos' => Suffix rest s /\ pos' = advance s pos rest
    | Fail e => pos <= pe_position e <= pos + String.length s
    | NoFuel => True
    end.

(** A parser is strict when it never succeeds without reading. *)
Definition Strict {A} (p : Parser A) : Prop :=
  forall s pos a rest pos',
    p s pos = Done a rest pos' -> String.length rest < String.length s.

(** A parser is fueled for [m] when it does not run out of fuel on a
    text shorter than [m]. *)
Definition Fueled {A} (m : nat) (p : Parser A) : Prop :=
  forall s pos, String.length s < m -> p s pos <> NoFuel.

Definition Total {A} (p : Parser A) : Prop := forall s pos, p s pos <> NoFuel.

(** The text holds no closing brace. *)
Definition noCloseBrace (s : string) : Prop :=
  forall i, get i s <> Some "}"%char.

Definition allLetters (s : string) : Prop :=
  Forall (fun c => isLetter c = true) (list_ascii_of_string s).

Fixpoint firstNonLetter (w : string) : option ascii :=
  match w with
  | EmptyString => None
  | String c w' => if isLetter c then firstNonLetter w' else Some c
  end.

(** A parser closes when it succeeds only on a text that holds a
    closing brace. *)
Definition Closes {A} (p : Parser A) : Prop :=
  forall s pos a rest pos',
    p s pos = Done a rest pos' -> exists r, Suffix (String "}" r) s.

(** The operator names of the [switch] of [parseOperator]. *)
Definition operatorNames : list string :=
  [ "and"; "or"; "not"; "between"; "search"; "daily notes";
    "by"; "created by"; "edited by" ].

End QueryParser.


(* ================================================================== *)
(** * Definitions used to state the properties *)
(* ================================================================== *)

(** The clause sets of the children of a node, generated one after the
    other from left to right. *)
Fixpoint generateEach (gen : QueryNode -> Gen DatalogClauses)
  (children : list QueryNode) : Gen (list DatalogClauses) :=
  match children with
  | [] => ret []
  | child :: rest =>
      c <- gen child ;;
      cs <- generateEach gen rest ;;
      ret (c :: cs)
  end.

Definition mapOk {A B} (f : A -> B) (r : Exc (A * GenState)) : Exc (B * GenState) :=
  match r with
  | Ok (a, st) => Ok (f a, st)
  | Throw e => Throw e
  end.

(** The number of tag and block-reference nodes of an AST. *)
Fixpoint refNodes (node : QueryNode) : nat :=
  match node with
  | And children | Or children =>
      fold_right (fun child n => refNodes child + n) 0 children
  | Not child => refNodes child
  | Tag _ | BlockRef _ => 1
  | _ => 0
  end.

(** A host for the examples: the clock stands at midnight UTC of
    3 November 2026 and advances by one millisecond per reading, local
    time is UTC, and only relative dates are understood. *)
Definition sampleEnv : Env :=
  mkEnv (fun n => 1793664000000 + Z.of_nat n)%Z (fun _ _ => 0%Z) (fun _ => NaN).

Definition freshState : GenState := mkGenState 0 0 0.

(** [QueryParser.parse] as the parser of a host: a parse error is
    thrown as an [Error] with its message. *)
Definition parseOrThrow (text : string) : Exc QueryNode :=
  match QueryParser.parse text with
  | inr node => Ok node
  | inl e => Throw (ErrorObj (QueryParser.pe_message e))
  end.

(** A host for the examples: the parser of the sources, a graph without
    blocks, references resolved to the empty text. *)
Definition sampleHost : Host :=
  mkHost parseOrThrow (fun _ _ => Ok []) (fun _ => Ok EmptyString) (fun i => i).

(** What [String(Object.create(null))] throws. *)
Definition noPrimitive : Thrown :=
  ErrorObj "Cannot convert object to primitive value".

(** A graph whose query capability rejects with an object that has no
    conversion to a string, such as [Object.create(null)]. *)
Definition brokenGraph : Host :=
  mkHost parseOrThrow (fun _ _ => Throw (NoString noPrimitive))
         (fun _ => Ok EmptyString) (fun i => i).

(** A graph of two rows whose references both fail to resolve, the
    second before the first. *)
Definition racingGraph : Host :=
  mkHost parseOrThrow
         (fun _ _ => Ok [ [VStr "uid1"; VStr "slow"; VStr "Page A"];
                          [VStr "uid2"; VStr "fast"; VStr "Page B"] ])
         (fun v => match v with
                   | VStr s => Throw (ErrorObj ("Cannot resolve " ++ s))
                   | _ => Ok EmptyString
                   end)
         (fun i => 2 - i).

(** ** The extraction of query blocks, as the specification words it *)

(** The wrapper prefix stands in [text] at offset [i]. *)
Definition occursAt (text : string) (i : nat) : Prop :=
  substring i (String.length wrapperPrefix) text = wrapperPrefix.

(** The first occurrence of the prefix at or after [start] is at [i]. *)
Definition firstOccurrence (text : string) (start i : nat) : Prop :=
  start <= i /\ occursAt text i
  /\ forall k, start <= k -> k < i -> ~ occursAt text k.

Definition braceDelta (c : option ascii) : Z :=
  match c with
  | Some c => if Ascii.eqb c "{" then 1%Z
              else if Ascii.eqb c "}" then (-1)%Z else 0%Z
  | None => 0%Z
  end.

(** Opening minus closing braces among the [n] characters from [from]. *)
Fixpoint braceSum (text : string) (from n : nat) : Z :=
  match n with
  | O => 0%Z
  | S n' => (braceSum text from n' + braceDelta (get (from + n') text))%Z
  end.

(** The depth once the characters of [text] from [from] up to [to]
    (excluded) are read, counting from 2 at [from]. *)
Definition depthAt (text : string) (from to : nat) : Z :=
  (2 + braceSum text from (to - from))%Z.

(** [Extracted text start blocks]: scanning [text] from [start] yields
    [blocks].  Each block runs from the first occurrence [i] of the
    prefix to the first offset [j] past the prefix where the depth is
    zero, and the scan resumes at [j]; it ends when the prefix occurs
    no more, or when the depth never returns to zero. *)
Inductive Extracted (text : string) : nat -> list string -> Prop :=
| Extracted_none start :
    (forall i, start <= i -> ~ occursAt text i) ->
    Extracted text start []
| Extracted_closed start i j blocks :
    firstOccurrence text start i ->
    i + String.length wrapperPrefix <= j <= String.length text ->
    depthAt text (i + String.length wrapperPrefix) j = 0%Z ->
    (forall k, i + String.length wrapperPrefix <= k -> k < j ->
               (0 < depthAt text (i + String.length wrapperPrefix) k)%Z) ->
    Extracted text j blocks ->
    Extracted text start (substring i (j - i) text :: blocks)
| Extracted_open start i :
    firstOccurrence text start i ->
    (forall k, i + String.length wrapperPrefix <= k -> k <= String.length text ->
               (0 < depthAt text (i + String.length wrapperPrefix) k)%Z) ->
    Extracted text start [].

(** ** Assumptions on the host *)

(** Local time is less than a day away from UTC. *)
Definition zoneWithinADay (env : Env) : Prop :=
  forall t isUTC, (Z.abs (LocalTZA env t isUTC) < JSDate.msPerDay)%Z.

(** The clock shows a time between the epoch and the end of year 9999. *)
Definition clockInEra (t : Z) : Prop := (0 <= t <= 253402300799999)%Z.

(** [startOfToday] and the value of [last month], for a clock that was
    read as [t]. *)
Definition startOfDay (env : Env) (t : Z) : jsnum :=
  let now := Num t in
  JSDate.fromFields (LocalTZA env)
    (JSDate.getFullYear (LocalTZA env) now)
    (JSDate.getMonth (LocalTZA env) now)
    (JSDate.getDate (LocalTZA env) now).

Definition sameDayLastMonth (env : Env) (t : Z) : jsnum :=
  let now := Num t in
  JSDate.fromFields (LocalTZA env)
    (JSDate.getFullYear (LocalTZA env) now)
    (jssub (JSDate.getMonth (LocalTZA env) now) (Num 1%Z))
    (JSDate.getDate (LocalTZA env) now).

(** The state after one more reading of the clock. *)
Definition afterClockRead (st : GenState) : GenState :=
  mkGenState (refCounter st) (inputCounter st) (S (clockReads st)).

Definition allWhiteSpace (s : string) : Prop :=
  Forall (fun c => Str.isWhiteSpace c = true) (list_ascii_of_string s).

(** A pattern character that, ignoring case, matches exactly the
    characters whose lower-case form it is. *)
Definition caseExact (p : ascii) : Prop :=
  forall c, (canonicalize p =? canonicalize c)%nat = Ascii.eqb (Str.lowerChar c) p.

(** Induction on an AST, with the hypothesis for every child of a node. *)
Section QueryNodeInduction.
Variable P : QueryNode -> Prop.
Hypothesis HAnd : forall children, Forall P children -> P (And children).
Hypothesis HOr : forall children, Forall P children -> P (Or children).
Hypothesis HNot : forall child, P child -> P (Not child).
Hypothesis HBetween : forall startDate endDate, P (Between startDate endDate).
Hypothesis HTag : forall value, P (Tag value).
Hypothesis HBlockRef : forall uid, P (BlockRef uid).
Hypothesis HSearch : forall text, P (Search text).
Hypothesis HDailyNotes : P DailyNotes.
Hypothesis HBy : forall user, P (By user).
Hypothesis HCreatedBy : forall user, P (CreatedBy user).
Hypothesis HEditedBy : forall user, P (EditedBy user).

Fixpoint QueryNode_nested_ind (node : QueryNode) : P node :=
  let fix all (children : list QueryNode) : Forall P children :=
    match children with
    | [] => Forall_nil P
    | child :: rest => Forall_cons child (QueryNode_nested_ind child) (all rest)
    end in
  match node with
  | And children => HAnd children (all children)
  | Or children => HOr children (all children)
  | Not child => HNot child (QueryNode_nested_ind child)
  | Between startDate endDate => HBetween startDate endDate
  | Tag value => HTag value
  | BlockRef uid => HBlockRef uid
  | Search text => HSearch text
  | DailyNotes => HDailyNotes
  | By user => HBy user
  | CreatedBy user => HCreatedBy user
  | EditedBy user => HEditedBy user
  end.
End QueryNodeInduction.

(** ** Notions for the further properties *)

(** ** Measures of an AST *)

(** The number of fragments a node contributes to the where-section: an
    and contributes those of its children, an or and a not always one. *)
Fixpoint fragmentCount (node : QueryNode) : nat :=
  match node with
  | And children =>
      fold_right (fun child n => fragmentCount child + n) 0 children
  | Or _ | Not _ | Search _ | By _ => 1
  | Tag _ | BlockRef _ | CreatedBy _ | EditedBy _ => 2
  | Between _ _ | DailyNotes => 3
  end.

(** The number of between nodes of an AST. *)
Fixpoint betweenNodes (node : QueryNode) : nat :=
  match node with
  | And children | Or children =>
      fold_right (fun child n => betweenNodes child + n) 0 children
  | Not child => betweenNodes child
  | Between _ _ => 1
  | _ => 0
  end.

(** The dates of the between nodes of an AST, from left to right. *)
Fixpoint betweenDates (node : QueryNode) : list string :=
  match node with
  | And children | Or children =>
      fold_right (fun child ds => (betweenDates child ++ ds)%list) [] children
  | Not child => betweenDates child
  | Between startDate endDate => [startDate; endDate]
  | _ => []
  end.

(** The input names of [k] between nodes, the input counter being [i]
    before the first. *)
Fixpoint inputNames (i k : nat) : list string :=
  match k with
  | O => []
  | S k' =>
      ("?start-date-" ++ Str.ofNat i)
        :: ("?end-date-" ++ Str.ofNat (S i))
        :: inputNames (S (S i)) k'
  end.

(** [Chain R children st cs st']: the children were generated one after
    the other, from state [st] to state [st'], and [R] holds of every
    child with the states before and after it and its clause set. *)
Inductive Chain (R : QueryNode -> GenState -> DatalogClauses -> GenState -> Prop)
  : list QueryNode -> GenState -> list DatalogClauses -> GenState -> Prop :=
| Chain_nil st : Chain R [] st [] st
| Chain_cons child rest st c st1 cs st' :
    R child st c st1 -> Chain R rest st1 cs st' ->
    Chain R (child :: rest) st (c :: cs) st'.

(** What generating a node does to the inputs and to the state. *)
Definition inputsOf (node : QueryNode) (st : GenState) (c : DatalogClauses)
  (st' : GenState) : Prop :=
  inputs c = inputNames (inputCounter st) (betweenNodes node)
  /\ List.length (inputValues c) = 2 * betweenNodes node
  /\ inputCounter st' = inputCounter st + 2 * betweenNodes node
  /\ clockReads st' = clockReads st + 2 * betweenNodes node.

(** ** String literals of the target language *)

(** How a reader of the target language takes a string literal, for
    the two escapes that [escapeString] writes: the body, read from just
    past the opening quote up to the closing quote, with what follows
    the literal.  A backslash makes the next character part of the body,
    a bare quote ends the literal. *)
Fixpoint readLiteralBody (s : string) : option (string * string) :=
  match s with
  | EmptyString => None
  | String c rest =>
      if Ascii.eqb c Str.dquote then Some (EmptyString, rest)
      else if Ascii.eqb c Str.backslash then
        match rest with
        | EmptyString => None
        | String c' rest' =>
            match readLiteralBody rest' with
            | Some (body, after) => Some (String c' body, after)
            | None => None
            end
        end
      else
        match readLiteralBody rest with
        | Some (body, after) => Some (String c body, after)
        | None => None
        end
  end.

Definition readLiteral (s : string) : option (string * string) :=
  match s with
  | EmptyString => None
  | String c rest => if Ascii.eqb c Str.dquote then readLiteralBody rest else None
  end.

(** The variables after [:in $], each preceded by one space. *)
Fixpoint spaced (vars : list string) : string :=
  match vars with
  | [] => EmptyString
  | v :: rest => " " ++ v ++ spaced rest
  end.

(** The input variables of a query: those of the clause set, then the
    one of the page scope. *)
Definition inVariables (clauses : DatalogClauses) (pageUid : option string)
  : list string :=
  (inputs clauses ++ if truthy pageUid then ["?target-page-uid"] else [])%list.

(** A graph for the examples: every query has the same two rows, and a
    reference resolves to the text itself. *)
Definition sampleRows : list (list Value) :=
  [ [VStr "uid1"; VStr "first block"; VStr "Page A"];
    [VStr "uid2"; VStr "second block"; VStr "Page B"] ].

Definition sampleGraph : Host :=
  mkHost parseOrThrow (fun _ _ => Ok sampleRows)
         (fun v => match v with VStr s => Ok s | _ => Ok EmptyString end)
         (fun i => i).

(** What [execute] returns for [[[Project]]] on that graph, without
    options. *)
Definition sampleResult : QueryResult :=
  mkResult true
    [ mkMatch (VStr "uid1") "first block" (VStr "Page A");
      mkMatch (VStr "uid2") "second block" (VStr "Page B") ]
    "Found 2 block(s) matching query"
    (Some (VNum (Num 2)))
    (Some (query (buildDatalogQuery
                    (mkClauses
                       [ "[?ref-0 :node/title " ++ quoted "Project" ++ "]";
                         "[?b :block/refs ?ref-0]" ] [] [])
                    (mkBuildOptions None None None (Some "?block-uid asc") None)))).

(** ** Extracted blocks *)

(** Opening minus closing braces in the whole of [s]. *)
Definition braceBalance (s : string) : Z := braceSum s 0 (String.length s).

(** [block] is the part of [text] from an occurrence [i] of the wrapper
    prefix to the first offset [j] past the prefix where the depth is
    back to zero. *)
Definition blockOf (text block : string) : Prop :=
  exists i j,
    block = substring i (j - i) text
    /\ occursAt text i
    /\ i + String.length wrapperPrefix <= j <= String.length text
    /\ depthAt text (i + String.length wrapperPrefix) j = 0%Z
    /\ (forall k, i + String.length wrapperPrefix <= k -> k < j ->
                  (0 < depthAt text (i + String.length wrapperPrefix) k)%Z).

(** ** Relative dates *)

(** Texts made of decimal digits only, and texts without any. *)
Definition allDigits (s : string) : Prop :=
  Forall (fun c => Str.isDigit c = true) (list_ascii_of_string s).

Definition noDigit (s : string) : Prop :=
  Forall (fun c => Str.isDigit c = false) (list_ascii_of_string s).

(** What may follow the number in [N units ago], with the unit it
    stands for. *)
Definition agoForms : list (string * string) :=
  [ (" day ago", "day"); (" days ago", "day");
    (" week ago", "week"); (" weeks ago", "week");
    (" month ago", "month"); (" months ago", "month");
    (" year ago", "year"); (" years ago", "year") ].

(** The plural [s] of a unit. *)
Definition pluralS (plural : bool) : string :=
  if plural then "s" else EmptyString.

(** Local time is UTC shifted by one fixed offset of less than a day. *)
Definition fixedOffset (env : Env) (c : Z) : Prop :=
  (Z.abs c < JSDate.msPerDay)%Z /\ forall t isUTC, LocalTZA env t isUTC = c.

(** The ordinal suffixes that [roamDateToTimestamp] removes. *)
Definition ordinalSuffixes : list string := ["st"; "nd"; "rd"; "th"].

(** The branch that a not or an or makes of a child, told from the
    shape of the child: its only fragment, or its fragments grouped. *)
Definition branchOf (child : QueryNode) (c : DatalogClauses) : string :=
  if (fragmentCount child =? 1)%nat then hd EmptyString (where_ c)
  else "(and " ++ Str.join " " (where_ c) ++ ")".

(** ** Expressions nested in operators *)

(** The text from which the parser is about to read an expression
    starts with a character that is neither white space, nor a closing
    brace, nor a quote. *)
Definition startsExpression (v : string) : Prop :=
  match v with
  | String c _ =>
      Str.isWhiteSpace c = false /\ c <> "}"%char /\ c <> Str.dquote
  | EmptyString => False
  end.

(** A text is a complete expression when [parseExpression] reads it as
    a node whatever follows it, wherever it stands. *)
Definition Complete (child : string) (node : QueryNode) : Prop :=
  startsExpression child
  /\ exists fuel,
       forall rest pos,
         QueryParser.parseExpression fuel (child ++ rest) pos
         = QueryParser.Done node rest (pos + String.length child).

(** What is read of an operator that encloses the expression the parser
    is about to read: an and or an or with the children read so far, each
    with the white space after it, or a not. *)
Inductive Frame : Type :=
| AndOrFrame (op ws : string) (siblings : list (string * string))
| NotFrame (op ws : string).

Definition siblingsText (siblings : list (string * string)) : string :=
  String.concat EmptyString (map (fun p => fst p ++ snd p) siblings).

Definition frameText (frame : Frame) : string :=
  match frame with
  | AndOrFrame op ws siblings => "{" ++ op ++ ":" ++ ws ++ siblingsText siblings
  | NotFrame op ws => "{" ++ op ++ ":" ++ ws
  end.

Definition validFrame (frame : Frame) : Prop :=
  match frame with
  | AndOrFrame op ws siblings =>
      In (Str.toLowerCase op) ["and"; "or"]
      /\ allWhiteSpace ws
      /\ Forall (fun p => (exists node, Complete (fst p) node)
                          /\ allWhiteSpace (snd p)) siblings
  | NotFrame op ws => Str.toLowerCase op = "not" /\ allWhiteSpace ws
  end.

(** The text read so far, from the outermost operator to the
    innermost. *)
Definition contextText (frames : list Frame) : string :=
  String.concat EmptyString (map frameText frames).

(** [q] does what [p] does wherever [p] has fuel enough. *)
Definition Extends {A} (p q : QueryParser.Parser A) : Prop :=
  forall s pos, p s pos <> QueryParser.NoFuel -> q s pos = p s pos.

(* ================================================================== *)
(** * Properties of the generator *)
(* ================================================================== *)

Section LoopLemmas.
Variable gen : QueryNode -> Gen DatalogClauses.

Lemma andLoop_each children : forall acc st,
  andLoop gen children acc st =
  mapOk (fun cs =>
           mkClauses (where_ acc ++ List.concat (map where_ cs))
                     (inputs acc ++ List.concat (map inputs cs))
                     (inputValues acc ++ List.concat (map inputValues cs)))
        (generateEach gen children st).
Proof.
  induction children as [|child rest IH]; intros acc st; simpl.
  - unfold ret; simpl. rewrite !app_nil_r. now destruct acc.
  - unfold bind at 1 2. destruct (gen child st) as [[c st1]|e]; simpl; auto.
    rewrite IH. unfold bind. simpl.
    destruct (generateEach gen rest st1) as [[cs st2]|e]; simpl; auto.
    now rewrite <- !app_assoc.
Qed.

Lemma orLoop_each children : forall acc st,
  orLoop gen children acc st =
  mapOk (fun cs =>
           mkClauses (where_ acc ++ map (fun c => oneOrGroup (where_ c)) cs)
                     (inputs acc ++ List.concat (map inputs cs))
                     (inputValues acc ++ List.concat (map inputValues cs)))
        (generateEach gen children st).
Proof.
  induction children as [|child rest IH]; intros acc st; simpl.
  - unfold ret; simpl. rewrite !app_nil_r. now destruct acc.
  - unfold bind at 1 2. destruct (gen child st) as [[c st1]|e]; simpl; auto.
    rewrite IH. unfold bind. simpl.
    destruct (generateEach gen rest st1) as [[cs st2]|e]; simpl; auto.
    now rewrite <- !app_assoc.
Qed.
End LoopLemmas.

(** The clause set that [generateOr] makes of the clause sets of the
    children. *)
Lemma generateOr_each gen children blockVar st :
  generateOr gen children blockVar st =
  mapOk (fun cs =>
           mkClauses [orJoin blockVar (map (fun c => oneOrGroup (where_ c)) cs)]
                     (List.concat (map inputs cs))
                     (List.concat (map inputValues cs)))
        (generateEach gen children st).
Proof.
  unfold generateOr, bind. rewrite orLoop_each.
  destruct (generateEach gen children st) as [[cs st']|e]; reflexivity.
Qed.

(** C3. For an or node, generation succeeds exactly when the generation
    of every child, in order, succeeds, and then returns one single
    fragment: the or-join over the subject variable of one branch per
    child, where a child with exactly one fragment gives that fragment
    unchanged and every other child gives its fragments grouped in one
    [(and ...)]; the inputs and input values are those of the children,
    concatenated in child order. *)
Theorem or_single_fragment (env : Env) (children : list QueryNode)
  (blockVar : string) (st : GenState) :
  let branch := fun c : DatalogClauses => oneOrGroup (where_ c) in
  generateNode env (Or children) blockVar st =
    mapOk (fun cs =>
             mkClauses
               [ "(or-join [" ++ blockVar ++ "] "
                   ++ Str.join " " (map branch cs) ++ ")" ]
               (List.concat (map inputs cs))
               (List.concat (map inputValues cs)))
          (generateEach (fun child => generateNode env child blockVar) children st)
  /\ (forall f, oneOrGroup [f] = f)
  /\ (forall f g fs,
        oneOrGroup (f :: g :: fs) = "(and " ++ Str.join " " (f :: g :: fs) ++ ")")
  /\ match generateNode env (Or children) blockVar st with
     | Ok (clauses, _) => List.length (where_ clauses) = 1
     | Throw _ => True
     end.
Proof.
  intros branch.
  assert (E := generateOr_each (fun child => generateNode env child blockVar)
                 children blockVar st).
  change (generateOr (fun child => generateNode env child blockVar) children blockVar st)
    with (generateNode env (Or children) blockVar st) in E.
  repeat split.
  - exact E.
  - rewrite E.
    destruct (generateEach _ children st) as [[cs st']|e]; simpl; auto.
Qed.

(** The or node of the specification's example: one fragment, an
    or-join over [?b]. *)
Example or_two_tags :
  generate sampleEnv (Or [Tag "a"; Tag "b"]) freshState =
  Ok (mkClauses
        [ "(or-join [?b] (and [?ref-0 :node/title " ++ quoted "a"
            ++ "] [?b :block/refs ?ref-0]) (and [?ref-1 :node/title "
            ++ quoted "b" ++ "] [?b :block/refs ?ref-1]))" ] [] [],
      mkGenState 2 0 0).
Proof. reflexivity. Qed.

(** How the reference counter moves. *)
Lemma refCounter_each env blockVar children :
  Forall (fun child => forall st,
            match generateNode env child blockVar st with
            | Ok (_, st') => refCounter st' = refCounter st + refNodes child
            | Throw _ => True
            end) children ->
  forall st,
    match generateEach (fun child => generateNode env child blockVar) children st with
    | Ok (_, st') =>
        refCounter st' =
        refCounter st + fold_right (fun child n => refNodes child + n) 0 children
    | Throw _ => True
    end.
Proof.
  induction 1 as [|child rest Hc _ IH]; intros st; simpl.
  - unfold ret. lia.
  - unfold bind. specialize (Hc st).
    destruct (generateNode env child blockVar st) as [[c st1]|e]; auto.
    specialize (IH st1).
    destruct (generateEach _ rest st1) as [[cs st2]|e]; simpl; auto. lia.
Qed.



(** Resolving a date reads the clock once and leaves the counters. *)
Lemma parseRelativeDate_state env dateStr st :
  exists r, parseRelativeDate env dateStr st = Ok (r, afterClockRead st).
Proof.
  unfold parseRelativeDate, bind, newDateNow, ret. eexists. reflexivity.
Qed.

Lemma roamDateToTimestamp_state env dateStr st :
  match roamDateToTimestamp env dateStr st with
  | Ok (_, st') => st' = afterClockRead st
  | Throw _ => True
  end.
Proof.
  unfold roamDateToTimestamp, bind.
  destruct (parseRelativeDate_state env (Str.trim (Str.toLowerCase dateStr)) st)
    as [r ->].
  destruct r as [r|]; [reflexivity|].
  destruct (DateParse env (stripOrdinal dateStr)); [reflexivity|].
  destruct (DateParse env dateStr); [reflexivity|exact I].
Qed.

Lemma refCounter_generateNode env blockVar node : forall st,
  match generateNode env node blockVar st with
  | Ok (_, st') => refCounter st' = refCounter st + refNodes node
  | Throw _ => True
  end.
Proof.
  induction node as [children IH|children IH|child IH| | | | | | | | ]
    using QueryNode_nested_ind; intros st.
  - simpl. unfold generateAnd. rewrite andLoop_each.
    pose proof (refCounter_each env blockVar children IH st) as H.
    destruct (generateEach _ children st) as [[cs st']|e]; simpl; auto.
  - simpl. rewrite generateOr_each.
    pose proof (refCounter_each env blockVar children IH st) as H.
    destruct (generateEach _ children st) as [[cs st']|e]; simpl; auto.
  - simpl. unfold generateNot, bind. specialize (IH st).
    destruct (generateNode env child blockVar st) as [[c st']|e]; simpl; auto.
  - simpl. unfold generateBetween, bind, nextInput.
    match goal with
    | |- context [roamDateToTimestamp env startDate ?s] =>
        pose proof (roamDateToTimestamp_state env startDate s) as H1;
        destruct (roamDateToTimestamp env startDate s) as [[ts1 st1]|e]; auto
    end.
    pose proof (roamDateToTimestamp_state env endDate st1) as H2.
    destruct (roamDateToTimestamp env endDate st1) as [[ts2 st2]|e]; auto.
    subst. simpl. lia.
  - simpl; lia.
  - simpl; lia.
  - simpl; lia.
  - simpl; lia.
  - simpl; lia.
  - simpl; lia.
  - simpl; lia.
Qed.





(** C10. A search node generates the same clause set whatever the
    subject variable: one fragment, which tests the fixed variable
    [?block-str] against the escaped text, no input; the counters are
    left as they were.  [?block-str] is bound to the text of the subject
    [?b] by the first base fragment of both query builders. *)
Theorem search_independent_of_subject (env : Env) (text : string)
  (blockVar1 blockVar2 : string) (st : GenState) :
  generateNode env (Search text) blockVar1 st
    = generateNode env (Search text) blockVar2 st
  /\ generateNode env (Search text) blockVar1 st
     = Ok (mkClauses
             [ "[(clojure.string/includes? ?block-str "
                 ++ quoted (escapeString text) ++ ")]" ] [] [], st)
  /\ (forall clauses pageUid,
        hd_error (allWhereClauses clauses pageUid)
          = Some "[?b :block/string ?block-str]"
        /\ hd_error (countWhereClauses clauses pageUid)
          = Some "[?b :block/string ?block-str]").
Proof.
  repeat split.
Qed.

(* ================================================================== *)
(** * Properties of the query builders *)
(* ================================================================== *)

Lemma truthy_nonempty c s : truthy (Some (String c s)) = true.
Proof. reflexivity. Qed.

(** C5. The text and the arguments of the built query, written out.
    The where-section is the four base fragments (text, identifier, page
    and page title of the subject [?b]), then the page-scope fragment when
    a page identifier (a non-empty string) is given, then the generated
    fragments, one per line.  A page identifier adds that one fragment,
    the input variable [?target-page-uid] at the end of the [:in] clause
    and itself as last argument; without one the arguments are the input
    values.  The limit gives the modifier [:limit n] unless it is absent
    or -1, the offset [:offset n] when it is positive, the order
    [:order o] when it is a non-empty text.  For
    [{and: [[Project]] [[TODO]]}] with the limit 50 the text is the one
    shown: it has a [:find] clause, a [:where] section and the modifier
    [:limit 50], and there is no argument. *)
Theorem build_query_shape (clauses : DatalogClauses) (options : BuildOptions) :
  let select := match bo_select options with
                | Some sel => sel
                | None => ["?block-uid"; "?block-str"; "?page-title"]
                end in
  let inputVariables := match inputs clauses with
                        | [] => EmptyString
                        | _ :: _ => " " ++ Str.join " " (inputs clauses)
                        end in
  let scope := match bo_pageUid options with
               | Some (String _ _) =>
                   (" ?target-page-uid", ["[?p :block/uid ?target-page-uid]"])
               | _ => (EmptyString, [])
               end in
  let scopeArgument := match bo_pageUid options with
                       | Some (String c uid) => [VStr (String c uid)]
                       | _ => []
                       end in
  let limitText := match bo_limit options with
                   | Some l => if (l =? -1)%Z then [] else [":limit " ++ Str.ofZ l]
                   | None => []
                   end in
  let offsetText := match bo_offset options with
                    | Some o => if (0 <? o)%Z then [":offset " ++ Str.ofZ o] else []
                    | None => []
                    end in
  let orderText := match bo_orderBy options with
                   | Some (String c o) => [":order " ++ String c o]
                   | _ => []
                   end in
  query (buildDatalogQuery clauses options)
    = "[:find " ++ Str.join " " select ++ nl 18
        ++ ":in $" ++ inputVariables ++ fst scope ++ " "
        ++ Str.join " " (limitText ++ offsetText ++ orderText)%list ++ nl 18
        ++ ":where" ++ nl 18
        ++ Str.join (nl 18)
             ("[?b :block/string ?block-str]" :: "[?b :block/uid ?block-uid]"
                :: "[?b :block/page ?p]" :: "[?p :node/title ?page-title]"
                :: snd scope ++ where_ clauses)%list
        ++ "]"
  /\ args (buildDatalogQuery clauses options)
     = (inputValues clauses ++ scopeArgument)%list
  /\ nl 18 = String Str.newline "                  "
  /\ QueryParser.parse "{and: [[Project]] [[TODO]]}"
     = inr (And [Tag "Project"; Tag "TODO"])
  /\ (exists cs st',
        generate sampleEnv (And [Tag "Project"; Tag "TODO"]) freshState
          = Ok (cs, st')
        /\ let built := buildDatalogQuery cs
                          (mkBuildOptions None (Some 50%Z) None None None) in
           query built
           = "[:find ?block-uid ?block-str ?page-title" ++ nl 18
               ++ ":in $ :limit 50" ++ nl 18
               ++ ":where" ++ nl 18
               ++ "[?b :block/string ?block-str]" ++ nl 18
               ++ "[?b :block/uid ?block-uid]" ++ nl 18
               ++ "[?b :block/page ?p]" ++ nl 18
               ++ "[?p :node/title ?page-title]" ++ nl 18
               ++ "[?ref-0 :node/title " ++ quoted "Project" ++ "]" ++ nl 18
               ++ "[?b :block/refs ?ref-0]" ++ nl 18
               ++ "[?ref-1 :node/title " ++ quoted "TODO" ++ "]" ++ nl 18
               ++ "[?b :block/refs ?ref-1]]"
           /\ Str.includes (query built) ":find" = true
           /\ Str.includes (query built) ":where" = true
           /\ Str.includes (query built) ":limit 50" = true
           /\ args built = [])
  /\ (exists cs st',
        generate sampleEnv (Tag "tag") freshState = Ok (cs, st')
        /\ let built := buildDatalogQuery cs
                          (mkBuildOptions None (Some (-1)%Z) (Some 20%Z)
                             (Some "?block-uid desc") (Some "abc123")) in
           query built
           = "[:find ?block-uid ?block-str ?page-title" ++ nl 18
               ++ ":in $ ?target-page-uid :offset 20 :order ?block-uid desc" ++ nl 18
               ++ ":where" ++ nl 18
               ++ "[?b :block/string ?block-str]" ++ nl 18
               ++ "[?b :block/uid ?block-uid]" ++ nl 18
               ++ "[?b :block/page ?p]" ++ nl 18
               ++ "[?p :node/title ?page-title]" ++ nl 18
               ++ "[?p :block/uid ?target-page-uid]" ++ nl 18
               ++ "[?ref-0 :node/title " ++ quoted "tag" ++ "]" ++ nl 18
               ++ "[?b :block/refs ?ref-0]]"
           /\ args built = [VStr "abc123"]).
Proof.
  intros select inputVariables scope scopeArgument limitText offsetText orderText.
  split; [|split; [|split; [|split; [|split]]]].
  - unfold buildDatalogQuery, renderQuery. cbn [query].
    subst select inputVariables scope scopeArgument limitText offsetText orderText.
    unfold allWhereClauses, baseClauses, pageScope, pageScopeClause, inClause,
      modifiers, limitModifier, offsetModifier, orderModifier, defaultSelect.
    destruct options as [sel lim off ord pg].
    cbn [bo_select bo_limit bo_offset bo_orderBy bo_pageUid].
    assert (A : forall a b c : string, (a ++ b) ++ c = a ++ b ++ c).
    { intros a b c. induction a as [|x a IH]; simpl; [reflexivity|]. now rewrite IH. }
    assert (O : match off with
                | Some o => if (0 <? o)%Z then [":offset " ++ Str.ofZ o] else []
                | None => []
                end
                = if (match off with Some o => o | None => 0%Z end >? 0)%Z
                  then [":offset " ++ Str.ofZ match off with Some o => o | None => 0%Z end]
                  else []).
    { destruct off as [o|]; [|reflexivity]. rewrite Z.gtb_ltb. reflexivity. }
    rewrite O. clear O.
    destruct pg as [[|c uid]|]; destruct ord as [[|d o]|];
      destruct (inputs clauses) as [|i rest]; cbn [truthy isEmpty negb fst snd app];
      rewrite ?A; reflexivity.
  - unfold buildDatalogQuery, buildArgs. cbn [args]. subst scopeArgument.
    destruct (bo_pageUid options) as [[|c uid]|]; cbn [truthy isEmpty negb];
      rewrite ?app_nil_r; reflexivity.
  - reflexivity.
  - vm_compute. reflexivity.
  - eexists; eexists. split; [vm_compute; reflexivity|].
    cbv zeta. repeat split; vm_compute; reflexivity.
  - eexists; eexists. split; [vm_compute; reflexivity|].
    cbv zeta. repeat split; vm_compute; reflexivity.
Qed.

(** The second example of the specification: a page identifier adds
    exactly one argument, equal to it. *)
Example build_query_page_scope :
  exists cs st',
    generate sampleEnv (Tag "tag") freshState = Ok (cs, st')
    /\ let built := buildDatalogQuery cs
                      (mkBuildOptions None None None None (Some "abc123")) in
       args built = [VStr "abc123"]
       /\ Str.includes (query built) "?target-page-uid" = true.
Proof.
  eexists; eexists. split; [vm_compute; reflexivity|].
  split; vm_compute; reflexivity.
Qed.

(** C6. For the same clause set and page identifier, the count query has
    the arguments and the [:in] clause of the main query; its
    where-section is that of the main query without the page-title
    fragment; its text is the aggregate [(count ?b)], the [:in] clause
    and the where-section, with no place for a modifier. *)
Theorem count_query_parallel (clauses : DatalogClauses) (pageUid : option string)
  (select : option (list string)) (lim off : option Z) (ord : option string) :
  let options := mkBuildOptions select lim off ord pageUid in
  let scoped := (pageScope pageUid ++ where_ clauses)%list in
  args (buildCountQuery clauses pageUid) = args (buildDatalogQuery clauses options)
  /\ allWhereClauses clauses pageUid
     = "[?b :block/string ?block-str]" :: "[?b :block/uid ?block-uid]"
         :: "[?b :block/page ?p]" :: "[?p :node/title ?page-title]" :: scoped
  /\ countWhereClauses clauses pageUid
     = "[?b :block/string ?block-str]" :: "[?b :block/uid ?block-uid]"
         :: "[?b :block/page ?p]" :: scoped
  /\ query (buildCountQuery clauses pageUid)
     = "[:find (count ?b)" ++ nl 20
         ++ inClause clauses pageUid ++ nl 20
         ++ ":where" ++ nl 20
         ++ Str.join (nl 20) (countWhereClauses clauses pageUid) ++ "]"
  /\ query (buildDatalogQuery clauses options)
     = "[:find "
         ++ Str.join " " (match select with Some sel => sel | None => defaultSelect end)
         ++ nl 18
         ++ inClause clauses pageUid ++ " " ++ Str.join " " (modifiers options)
         ++ nl 18
         ++ ":where" ++ nl 18
         ++ Str.join (nl 18) (allWhereClauses clauses pageUid) ++ "]".
Proof.
  repeat split.
Qed.

(* ================================================================== *)
(** * Properties of the block-extraction utilities *)
(* ================================================================== *)

Lemma length_append (a b : string) :
  String.length (a ++ b) = String.length a + String.length b.
Proof. induction a as [|x a IH]; simpl; [reflexivity|]. now rewrite IH. Qed.

Lemma append_assoc (a b c : string) : (a ++ b) ++ c = a ++ b ++ c.
Proof. induction a as [|x a IH]; simpl; [reflexivity|]. now rewrite IH. Qed.

Lemma append_nil_r (a : string) : a ++ EmptyString = a.
Proof. induction a as [|x a IH]; simpl; [reflexivity|]. now rewrite IH. Qed.

Lemma allWhiteSpace_nil : allWhiteSpace EmptyString.
Proof. constructor. Qed.

Lemma allWhiteSpace_cons c s :
  allWhiteSpace (String c s) <-> Str.isWhiteSpace c = true /\ allWhiteSpace s.
Proof.
  unfold allWhiteSpace; simpl. split.
  - intros H; inversion H; auto.
  - intros [H1 H2]; constructor; auto.
Qed.

(** What [\s*] followed by a pattern accepts. *)
Lemma matchSpacesThen_spec next text :
  matchSpacesThen next text = true <->
  exists ws rest, text = ws ++ rest /\ allWhiteSpace ws /\ next rest = true.
Proof.
  induction text as [|c text IH]; simpl.
  - split.
    + intros H. exists EmptyString, EmptyString. auto using allWhiteSpace_nil.
    + intros (ws & rest & E & _ & H). destruct ws; simpl in E; [|discriminate].
      now subst rest.
  - destruct (Str.isWhiteSpace c) eqn:Hc.
    + rewrite orb_true_iff, IH. split.
      * intros [(ws & rest & E & Hws & H)|H].
        -- exists (String c ws), rest. subst text. split; [reflexivity|].
           split; [|exact H]. apply allWhiteSpace_cons; auto.
        -- exists EmptyString, (String c text). auto using allWhiteSpace_nil.
      * intros (ws & rest & E & Hws & H). destruct ws as [|d ws]; simpl in E.
        -- right. now subst rest.
        -- left. injection E as -> ->. exists ws, rest.
           apply allWhiteSpace_cons in Hws. tauto.
    + split.
      * intros H. exists EmptyString, (String c text). auto using allWhiteSpace_nil.
      * intros (ws & rest & E & Hws & H). destruct ws as [|d ws]; simpl in E.
        -- now subst rest.
        -- injection E as -> ->. apply allWhiteSpace_cons in Hws.
           destruct Hws as [Hd _]. congruence.
Qed.



Ltac all_ascii c := destruct c as [[] [] [] [] [] [] [] []]; reflexivity.

Lemma wrapperPrefix_caseExact :
  Forall caseExact (list_ascii_of_string wrapperPrefix).
Proof.
  unfold wrapperPrefix; simpl.
  repeat (constructor; [intros c; all_ascii c|]). constructor.
Qed.

Lemma matchLiteralCI_spec pattern :
  Forall caseExact (list_ascii_of_string pattern) ->
  forall text,
    matchLiteralCI pattern text = true <->
    exists p rest, text = p ++ rest /\ Str.toLowerCase p = pattern.
Proof.
  induction pattern as [|a pattern IH]; intros Hp text; simpl.
  - split; [|reflexivity]. intros _. exists EmptyString, text. auto.
  - simpl in Hp. inversion Hp as [|? ? Ha Hrest]; subst.
    destruct text as [|c text].
    + split; [discriminate|]. intros (p & rest & E & L).
      destruct p; simpl in *; discriminate.
    + rewrite andb_true_iff, (Ha c), (IH Hrest text). split.
      * intros [Hc (p & rest & -> & <-)].
        apply Ascii.eqb_eq in Hc. exists (String c p), rest. simpl.
        now rewrite Hc.
      * intros (p & rest & E & L). destruct p as [|d p]; simpl in *; [discriminate|].
        injection E as -> ->. injection L as -> <-. split.
        -- apply Ascii.eqb_refl.
        -- exists p, rest. auto.
Qed.

(** The example of the documentation. *)
Example isQueryBlock_readme :
  isQueryBlock "{{[[query]]: [[tag]]}}" = true
  /\ isQueryBlock "  {{[[query]]: [[tag]]}}" = true
  /\ isQueryBlock "see {{[[query]]: [[tag]]}}" = false.
Proof. repeat split. Qed.

(** C8, as stated, fails: the pattern ignores case, so a text that
    begins with the prefix in capitals is a query block although it does
    not begin, after white space, with [{{[[query]]:]. *)
Lemma isQueryBlock_accepts_capitals :
  let text := "{{[[QUERY]]: {and: [[a]] [[b]]}}}" in
  isQueryBlock text = true
  /\ ~ (exists ws rest,
          text = ws ++ wrapperPrefix ++ rest /\ allWhiteSpace ws).
Proof.
  split; [reflexivity|].
  intros (ws & rest & E & Hws). destruct ws as [|c ws]; simpl in E.
  - discriminate E.
  - injection E as <- _. apply allWhiteSpace_cons in Hws.
    destruct Hws as [Hc _]. discriminate Hc.
Qed.

(** C8, amended. [isQueryBlock] holds exactly of the texts that begin,
    after any white space, with the wrapper prefix written in any mix of
    upper-case and lower-case letters. *)
Theorem isQueryBlock_iff (text : string) :
  isQueryBlock text = true <->
  exists ws p rest,
    text = ws ++ p ++ rest
    /\ allWhiteSpace ws
    /\ Str.toLowerCase p = "{{[[query]]:".
Proof.
  unfold isQueryBlock. rewrite matchSpacesThen_spec. split.
  - intros (ws & tail & E & Hws & H).
    apply (matchLiteralCI_spec _ wrapperPrefix_caseExact) in H.
    destruct H as (p & rest & -> & L). exists ws, p, rest. auto.
  - intros (ws & p & rest & E & Hws & L). exists ws, (p ++ rest).
    split; [exact E|]. split; [exact Hws|].
    apply (matchLiteralCI_spec _ wrapperPrefix_caseExact). exists p, rest. auto.
Qed.

(* ================================================================== *)
(** * Properties of the extraction of query blocks *)
(* ================================================================== *)

(** ** [extractQueryBlocks] *)

Lemma length_substring s : forall n m,
  String.length (substring n m s) = Nat.min m (String.length s - n).
Proof.
  induction s as [|c s IH]; intros [|n] [|m]; simpl; auto;
    rewrite IH; lia.
Qed.

Lemma occursAt_bound text i :
  occursAt text i -> i + String.length wrapperPrefix <= String.length text.
Proof.
  unfold occursAt. intros H. apply (f_equal String.length) in H.
  rewrite length_substring in H.
  change (String.length wrapperPrefix) with 12 in *. lia.
Qed.

Lemma index_lower_bound pattern text : forall n m,
  index n pattern text = Some m -> n <= m.
Proof.
  induction text as [|c text IH]; intros n m; simpl.
  - destruct n; [lia|discriminate].
  - destruct n as [|n]; [lia|].
    destruct (index n pattern text) as [k|] eqn:E; [|discriminate].
    intros [= <-]. apply IH in E. lia.
Qed.

Lemma index_firstOccurrence text start i :
  index start wrapperPrefix text = Some i -> firstOccurrence text start i.
Proof.
  intros H. split; [|split].
  - eapply index_lower_bound; eauto.
  - eapply index_correct1; eauto.
  - intros k H1 H2. eapply index_correct2; eauto.
Qed.

Lemma index_no_occurrence text start :
  index start wrapperPrefix text = None ->
  forall i, start <= i -> ~ occursAt text i.
Proof.
  intros H i Hi. eapply index_correct3; eauto. discriminate.
Qed.

Lemma depthAt_start text from : depthAt text from from = 2%Z.
Proof. unfold depthAt. now rewrite Nat.sub_diag. Qed.

Lemma depthAt_step text from pos :
  from <= pos ->
  depthAt text from (S pos)
    = (depthAt text from pos + braceDelta (get pos text))%Z.
Proof.
  intros H. unfold depthAt.
  replace (S pos - from) with (S (pos - from)) by lia.
  cbn [braceSum].
  replace (from + (pos - from)) with pos by lia. lia.
Qed.

(** The inner loop: it stops at the first offset where the depth is
    zero, or at the end of the text with a positive depth. *)
Lemma scanBraces_spec text from : forall fuel depth pos,
  from <= pos -> pos <= String.length text ->
  Z.of_nat depth = depthAt text from pos ->
  (forall k, from <= k -> k < pos -> (0 < depthAt text from k)%Z) ->
  String.length text - pos <= fuel ->
  exists depth' pos',
    scanBraces fuel text depth pos = (depth', pos')
    /\ pos <= pos' <= String.length text
    /\ Z.of_nat depth' = depthAt text from pos'
    /\ (forall k, from <= k -> k < pos' -> (0 < depthAt text from k)%Z)
    /\ (depth' = 0 \/ pos' = String.length text).
Proof.
  induction fuel as [|fuel IH]; intros depth pos Hfrom Hlen Hdepth Hpos Hfuel.
  - exists depth, pos. simpl. repeat split; auto; try lia.
  - simpl. destruct (pos <? String.length text)%nat eqn:Hlt; simpl.
    + apply Nat.ltb_lt in Hlt. destruct depth as [|d].
      * exists 0, pos. simpl. repeat split; auto; lia.
      * simpl Nat.ltb.
        assert (Hstep := depthAt_step text from pos Hfrom).
        set (depth' := match get pos text with
                       | Some c => if Ascii.eqb c "{" then S (S d)
                                   else if Ascii.eqb c "}" then S d - 1
                                   else S d
                       | None => S d
                       end) in *.
        assert (Hd : Z.of_nat depth' = depthAt text from (S pos)).
        { rewrite Hstep, <- Hdepth. subst depth'. unfold braceDelta.
          destruct (get pos text) as [c|]; [|lia].
          destruct (Ascii.eqb c "{"); [lia|].
          destruct (Ascii.eqb c "}"); lia. }
        destruct (IH depth' (S pos)) as (d2 & p2 & E & Hp & Hd2 & Hall & Hend);
          try lia; auto.
        { intros k Hk1 Hk2. destruct (Nat.eq_dec k pos) as [->|Hne].
          - rewrite <- Hdepth. lia.
          - apply Hpos; lia. }
        exists d2, p2. repeat split; auto; lia.
    + apply Nat.ltb_ge in Hlt. exists depth, pos.
      repeat split; auto; try lia.
Qed.

(** The outer loop refines the scan of the specification. *)
Lemma extractLoop_spec text : forall fuel start found,
  String.length text - start <= fuel ->
  exists blocks,
    Extracted text start blocks
    /\ extractLoop fuel text start found = (found ++ blocks)%list.
Proof.
  assert (Hend : forall start, String.length text <= start ->
                 forall i, start <= i -> ~ occursAt text i).
  { intros start Hs i Hi Ho. apply occursAt_bound in Ho. simpl in Ho. lia. }
  induction fuel as [|fuel IH]; intros start found Hfuel.
  - exists []. split; [|simpl; now rewrite app_nil_r].
    apply Extracted_none, Hend. lia.
  - simpl. destruct (start <? String.length text)%nat eqn:Hlt.
    2:{ apply Nat.ltb_ge in Hlt. exists []. rewrite app_nil_r.
        split; [apply Extracted_none, Hend; lia|reflexivity]. }
    apply Nat.ltb_lt in Hlt.
    destruct (index start wrapperPrefix text) as [i|] eqn:Hidx.
    2:{ exists []. rewrite app_nil_r. split; [|reflexivity].
        apply Extracted_none. now apply index_no_occurrence. }
    assert (Hfirst := index_firstOccurrence _ _ _ Hidx).
    assert (Hbound := occursAt_bound _ _ (proj1 (proj2 Hfirst))).
    set (from := i + String.length wrapperPrefix) in *.
    destruct (scanBraces_spec text from (String.length text) 2 from)
      as (depth & pos & E & Hpos & Hdepth & Hall & Hstop);
      try lia.
    { now rewrite depthAt_start. }
    replace (i + 12) with from by (subst from; simpl; lia).
    rewrite E.
    destruct depth as [|d]; simpl Nat.eqb; cbv iota.
    + destruct (IH pos (found ++ [Str.slice text i pos])%list) as (blocks & HE & Eq).
      { destruct Hfirst. subst from. simpl in *. lia. }
      exists (substring i (pos - i) text :: blocks). split.
      * apply Extracted_closed; auto; now rewrite <- Hdepth.
      * rewrite Eq. unfold Str.slice. now rewrite <- app_assoc.
    + destruct Hstop as [Hstop|Hstop]; [discriminate|]. subst pos.
      exists []. rewrite app_nil_r. split.
      * eapply Extracted_open; eauto. intros k Hk1 Hk2.
        destruct (Nat.eq_dec k (String.length text)) as [->|Hne].
        -- change (0 < depthAt text from (String.length text))%Z.
           rewrite <- Hdepth. lia.
        -- apply Hall; lia.
      * destruct fuel; simpl; [reflexivity|].
        now rewrite Nat.ltb_irrefl.
Qed.

Lemma firstOccurrence_unique text start i i' :
  firstOccurrence text start i -> firstOccurrence text start i' -> i = i'.
Proof.
  intros (H1 & H2 & H3) (H1' & H2' & H3').
  destruct (Nat.lt_trichotomy i i') as [H|[H|H]]; auto.
  - exfalso. apply (H3' i); auto.
  - exfalso. apply (H3 i'); auto.
Qed.

(** The scan of the specification has one outcome. *)
Lemma Extracted_functional text start blocks :
  Extracted text start blocks ->
  forall blocks', Extracted text start blocks' -> blocks = blocks'.
Proof.
  induction 1 as [start Hnone|start i j blocks Hi Hj Hzero Hpos _ IH|start i Hi Hopen];
    intros blocks' H'.
  - inversion H' as [|? i' ? ? Hi'|? i' Hi']; subst; auto;
      destruct Hi' as (? & ? & _); exfalso; eapply Hnone; eauto.
  - inversion H' as [? Hnone|? i' j' bl Hi' Hj' Hzero' Hpos' Hrest|? i' Hi' Hopen'];
      subst.
    + destruct Hi as (? & ? & _). exfalso; eapply Hnone; eauto.
    + assert (i' = i) by (eapply firstOccurrence_unique; eauto). subst i'.
      assert (j' = j).
      { destruct (Nat.lt_trichotomy j j') as [L|[L|L]]; auto.
        - specialize (Hpos' j (proj1 Hj) L). lia.
        - specialize (Hpos j' (proj1 Hj') L). lia. }
      subst j'. f_equal. auto.
    + assert (i' = i) by (eapply firstOccurrence_unique; eauto). subst i'.
      specialize (Hopen' j (proj1 Hj) (proj2 Hj)). lia.
  - inversion H' as [|? i' j' bl Hi' Hj' Hzero' _ _|]; subst; auto.
    assert (i' = i) by (eapply firstOccurrence_unique; eauto). subst i'.
    specialize (Hopen j' (proj1 Hj') (proj2 Hj')). lia.
Qed.

(** C7. [extractQueryBlocks] returns exactly the blocks of the scan the
    specification describes: from offset 0, each block goes from the
    next occurrence of the wrapper prefix to the first offset where the
    depth, counted from 2 just past the prefix, is back to zero, and the
    scan resumes just past the block.  On a text with two wrappers, the
    first holding a nested [{between: ...}], the result is the two whole
    wrappers. *)
Theorem extractQueryBlocks_scan (text : string) :
  (forall blocks,
     Extracted text 0 blocks <-> blocks = extractQueryBlocks text)
  /\ extractQueryBlocks
       "Open {{[[query]]: {and: [[Project]] {between: [[last month]] [[today]]}}}} and done {{[[query]]: [[TODO]]}}."
     = [ "{{[[query]]: {and: [[Project]] {between: [[last month]] [[today]]}}}}";
         "{{[[query]]: [[TODO]]}}" ].
Proof.
  split; [|reflexivity].
  destruct (extractLoop_spec text (String.length text) 0 [])
    as (found & HE & Eq); [lia|].
  change (extractQueryBlocks text = found) in Eq.
  intros blocks. split.
  - intros H. rewrite Eq. eapply Extracted_functional; eauto.
  - intros ->. now rewrite Eq.
Qed.

(** An unclosed wrapper yields nothing, and a wrapper inside a block is
    part of that block. *)
Example extractQueryBlocks_edge_cases :
  extractQueryBlocks "see {{[[query]]: {and: [[a]]" = []
  /\ extractQueryBlocks "{{[[query]]: {search: {{[[query]]: [[x]]}}}}}"
     = ["{{[[query]]: {search: {{[[query]]: [[x]]}}}}}"].
Proof. split; reflexivity. Qed.

(* ================================================================== *)
(** * Properties of the calendar and of date resolution *)
(* ================================================================== *)

Section Calendar.
Local Open Scope Z_scope.
Import JSDate.

Lemma div_succ_4 y :
  (y - 1969 + 1) / 4 = (y - 1969) / 4 + (if y mod 4 =? 0 then 1 else 0).
Proof.
  destruct (y mod 4 =? 0) eqn:E; rewrite ?Z.eqb_eq, ?Z.eqb_neq in E;
    Z.div_mod_to_equations; lia.
Qed.

Lemma div_succ_100 y :
  (y - 1901 + 1) / 100 = (y - 1901) / 100 + (if y mod 100 =? 0 then 1 else 0).
Proof.
  destruct (y mod 100 =? 0) eqn:E; rewrite ?Z.eqb_eq, ?Z.eqb_neq in E;
    Z.div_mod_to_equations; lia.
Qed.

Lemma div_succ_400 y :
  (y - 1601 + 1) / 400 = (y - 1601) / 400 + (if y mod 400 =? 0 then 1 else 0).
Proof.
  destruct (y mod 400 =? 0) eqn:E; rewrite ?Z.eqb_eq, ?Z.eqb_neq in E;
    Z.div_mod_to_equations; lia.
Qed.

(** A year is followed by the next after 365 or 366 days. *)
Lemma DayFromYear_succ y : DayFromYear (y + 1) = DayFromYear y + DaysInYear y.
Proof.
  unfold DayFromYear, DaysInYear, isLeapYear.
  replace (y + 1 - 1969) with (y - 1969 + 1) by lia.
  replace (y + 1 - 1901) with (y - 1901 + 1) by lia.
  replace (y + 1 - 1601) with (y - 1601 + 1) by lia.
  rewrite div_succ_4, div_succ_100, div_succ_400.
  destruct (y mod 4 =? 0) eqn:E4; destruct (y mod 100 =? 0) eqn:E100;
    destruct (y mod 400 =? 0) eqn:E400; cbn [andb orb negb]; try lia;
    rewrite ?Z.eqb_eq, ?Z.eqb_neq in *;
    Z.div_mod_to_equations; lia.
Qed.

Lemma DaysInYear_range y : 365 <= DaysInYear y <= 366.
Proof. unfold DaysInYear. destruct (isLeapYear y); lia. Qed.

(** [yearFromDay] is the year of ECMA-262: the one whose days include
    [d]. *)
Lemma yearFromDay_correct d :
  DayFromYear (yearFromDay d) <= d < DayFromYear (yearFromDay d + 1).
Proof.
  unfold yearFromDay.
  set (y := 1970 + 400 * d / 146097).
  assert (Hy : 146097 * (y - 1970) <= 400 * d < 146097 * (y - 1970) + 146097).
  { subst y. Z.div_mod_to_equations. lia. }
  clearbody y.
  pose proof (DayFromYear_succ y) as S1.
  pose proof (DayFromYear_succ (y - 1)) as S0.
  pose proof (DayFromYear_succ (y + 1)) as S2.
  replace (y - 1 + 1) with y in S0 by lia.
  pose proof (DaysInYear_range y).
  pose proof (DaysInYear_range (y - 1)).
  pose proof (DaysInYear_range (y + 1)).
  assert (A : -800 <= 400 * DayFromYear y - 146097 * (y - 1970) <= 800).
  { unfold DayFromYear. Z.div_mod_to_equations. lia. }
  destruct (d <? DayFromYear y) eqn:E1.
  - apply Z.ltb_lt in E1. replace (y - 1 + 1) with y by lia. lia.
  - apply Z.ltb_ge in E1. destruct (DayFromYear (y + 1) <=? d) eqn:E2.
    + apply Z.leb_le in E2. lia.
    + apply Z.leb_gt in E2. lia.
Qed.

Lemma yearFromDay_lower d : -1 <= d -> 1968 <= yearFromDay d.
Proof.
  intros H. unfold yearFromDay.
  assert (1969 <= 1970 + 400 * d / 146097) by (Z.div_mod_to_equations; lia).
  destruct (_ <? _); [lia|]. destruct (_ <=? _); lia.
Qed.

Lemma MonthFromTime_range t : 0 <= MonthFromTime t <= 11.
Proof.
  unfold MonthFromTime.
  repeat match goal with
         | |- context [if ?b then _ else _] => destruct b; [lia|]
         end. lia.
Qed.

(** The fields of a time give back its day. *)
Lemma MakeDay_fields t :
  MakeDay (YearFromTime t) (MonthFromTime t) (DateFromTime t) = Day t.
Proof.
  pose proof (MonthFromTime_range t) as Hm.
  unfold MakeDay, DateFromTime, DayWithinYear, InLeapYear.
  replace (MonthFromTime t / 12) with 0 by (Z.div_mod_to_equations; lia).
  replace (MonthFromTime t mod 12) with (MonthFromTime t)
    by (Z.div_mod_to_equations; lia).
  rewrite Z.add_0_r. lia.
Qed.

Lemma monthStart_step leap m :
  0 <= leap <= 1 -> 1 <= m <= 11 ->
  28 <= monthStart leap m - monthStart leap (m - 1) <= 31.
Proof.
  intros Hl Hm. unfold monthStart.
  repeat match goal with
         | |- context [?a =? ?b] => destruct (Z.eqb_spec a b); try lia
         end.
Qed.

(** The same day of the month before is 28 to 31 days earlier. *)
Lemma MakeDay_previous_month y m d :
  0 <= m <= 11 -> 28 <= MakeDay y m d - MakeDay y (m - 1) d <= 31.
Proof.
  intros Hm. unfold MakeDay.
  replace (m / 12) with 0 by (Z.div_mod_to_equations; lia).
  replace (m mod 12) with m by (Z.div_mod_to_equations; lia).
  rewrite Z.add_0_r.
  destruct (Z.eq_dec m 0) as [->|Hne].
  - change ((0 - 1) / 12) with (-1). change ((0 - 1) mod 12) with 11.
    pose proof (DayFromYear_succ (y + -1)) as Hs.
    replace (y + -1 + 1) with y in Hs by lia.
    unfold DaysInYear in Hs.
    destruct (isLeapYear (y + -1)); destruct (isLeapYear y); cbn; lia.
  - replace ((m - 1) / 12) with 0 by (Z.div_mod_to_equations; lia).
    replace ((m - 1) mod 12) with (m - 1) by (Z.div_mod_to_equations; lia).
    rewrite Z.add_0_r.
    pose proof (monthStart_step (if isLeapYear y then 1 else 0) m) as Hs.
    destruct (isLeapYear y); lia.
Qed.
End Calendar.

Section DateResolution.
Local Open Scope Z_scope.
Import JSDate.

Variable env : Env.
Hypothesis zone : zoneWithinADay env.

Lemma LocalTime_near t :
  t - msPerDay < LocalTime (LocalTZA env) t < t + msPerDay.
Proof. unfold LocalTime. specialize (zone t true). lia. Qed.

Lemma UTC_near t : t - msPerDay < UTC (LocalTZA env) t < t + msPerDay.
Proof. unfold UTC. specialize (zone t false). lia. Qed.

Lemma local_year_not_short t :
  0 <= t -> (0 <=? YearFromTime (LocalTime (LocalTZA env) t))
            && (YearFromTime (LocalTime (LocalTZA env) t) <=? 99) = false.
Proof.
  intros Ht. pose proof (LocalTime_near t) as Hl.
  assert (Hd : -1 <= Day (LocalTime (LocalTZA env) t)).
  { unfold Day, msPerDay in *. Z.div_mod_to_equations. lia. }
  apply yearFromDay_lower in Hd. fold (YearFromTime (LocalTime (LocalTZA env) t)) in Hd.
  apply andb_false_iff. right. apply Z.leb_gt. lia.
Qed.

(** The start of today is a time value, within three days before and
    two days after the reading of the clock. *)
Lemma startOfDay_value t :
  clockInEra t ->
  exists u, startOfDay env t = Num u
            /\ t - 3 * msPerDay < u < t + 2 * msPerDay.
Proof.
  intros [Ht0 Ht1]. unfold startOfDay, fromFields, getFullYear, getMonth, getDate.
  rewrite (local_year_not_short t Ht0), MakeDay_fields.
  set (L := LocalTime (LocalTZA env) t).
  pose proof (LocalTime_near t) as HL. fold L in HL.
  unfold MakeDate. rewrite Z.add_0_r.
  pose proof (UTC_near (Day L * msPerDay)) as HU.
  assert (HD : L - msPerDay < Day L * msPerDay <= L).
  { unfold Day, msPerDay. Z.div_mod_to_equations. lia. }
  eexists. split.
  - unfold TimeClip. destruct (_ >? _) eqn:E; [|reflexivity].
    exfalso. apply Z.gtb_lt in E. unfold maxTime, msPerDay in *. lia.
  - unfold msPerDay in *. lia.
Qed.

(** The same day of last month is a time value, more than 26 days
    before the reading of the clock. *)
Lemma sameDayLastMonth_value t :
  clockInEra t ->
  exists u, sameDayLastMonth env t = Num u /\ u < t - 26 * msPerDay.
Proof.
  intros [Ht0 Ht1].
  unfold sameDayLastMonth, fromFields, getFullYear, getMonth, getDate, jssub.
  rewrite (local_year_not_short t Ht0).
  set (L := LocalTime (LocalTZA env) t).
  pose proof (LocalTime_near t) as HL. fold L in HL.
  pose proof (MakeDay_previous_month (YearFromTime L) (MonthFromTime L)
                (DateFromTime L) (MonthFromTime_range L)) as Hprev.
  rewrite MakeDay_fields in Hprev.
  set (day := MakeDay (YearFromTime L) (MonthFromTime L - 1) (DateFromTime L)) in *.
  unfold MakeDate. rewrite Z.add_0_r.
  pose proof (UTC_near (day * msPerDay)) as HU.
  assert (HD : L - msPerDay < Day L * msPerDay <= L).
  { unfold Day, msPerDay. Z.div_mod_to_equations. lia. }
  eexists. split.
  - unfold TimeClip. destruct (_ >? _) eqn:E; [|reflexivity].
    exfalso. apply Z.gtb_lt in E. unfold maxTime, msPerDay in *. lia.
  - unfold msPerDay in *. lia.
Qed.
End DateResolution.

(** The two relative dates of the example, as [roamDateToTimestamp]
    resolves them. *)
Ltac resolve_literal :=
  unfold roamDateToTimestamp, bind;
  match goal with
  | |- context [Str.trim (Str.toLowerCase ?s)] =>
      let v := eval vm_compute in (Str.trim (Str.toLowerCase s)) in
      change (Str.trim (Str.toLowerCase s)) with v
  end;
  unfold parseRelativeDate, bind, newDateNow, ret;
  repeat match goal with
         | |- context [String.eqb ?a ?b] =>
             let v := eval vm_compute in (String.eqb a b) in
             change (String.eqb a b) with v
         end;
  cbn [orb]; unfold startOfDay, sameDayLastMonth, afterClockRead.

Lemma resolve_today env st :
  roamDateToTimestamp env "today" st
  = Ok (startOfDay env (clock env (clockReads st)), afterClockRead st).
Proof. resolve_literal. reflexivity. Qed.

Lemma resolve_last_month env st :
  roamDateToTimestamp env "last month" st
  = Ok (sameDayLastMonth env (clock env (clockReads st)), afterClockRead st).
Proof. resolve_literal. reflexivity. Qed.

(** C2. A between node takes the next two input indices for
    [?start-date-i] and [?end-date-(i+1)], resolves the start date, then
    the end date, and, when both resolve, returns these two input names,
    the two time values, the second being the resolved end date plus
    [24*60*60*1000 - 1] milliseconds, and three fragments: the creation
    time of the subject, at least the start, at most the end.  A date that
    does not resolve makes the generation fail.  For
    [{between: [[last month]] [[today]]}], on a host whose clock does not
    run backwards while it shows times of the years 1970 to 9999 and
    whose local time is less than a day away from UTC, the two values
    are numbers with start < end. *)
Theorem between_inclusive_range (env : Env) (startDate endDate blockVar : string)
  (st : GenState) :
  let i := inputCounter st in
  let startVar := "?start-date-" ++ Str.ofNat i in
  let endVar := "?end-date-" ++ Str.ofNat (S i) in
  generateNode env (Between startDate endDate) blockVar st =
    match roamDateToTimestamp env startDate
            (mkGenState (refCounter st) (S (S i)) (clockReads st)) with
    | Throw e => Throw e
    | Ok (startTs, st1) =>
        match roamDateToTimestamp env endDate st1 with
        | Throw e => Throw e
        | Ok (endDateTs, st2) =>
            Ok (mkClauses
                  [ "[" ++ blockVar ++ " :create/time ?create-time]";
                    "[(>= ?create-time " ++ startVar ++ ")]";
                    "[(<= ?create-time " ++ endVar ++ ")]" ]
                  [startVar; endVar]
                  [ VNum startTs;
                    VNum (jsadd endDateTs (Num (24 * 60 * 60 * 1000 - 1)%Z)) ],
                st2)
        end
    end
  /\ (zoneWithinADay env ->
      clockInEra (clock env (clockReads st)) ->
      clockInEra (clock env (S (clockReads st))) ->
      (clock env (clockReads st) <= clock env (S (clockReads st)))%Z ->
      exists clauses st' startTs endTs,
        generate env (Between "last month" "today") st = Ok (clauses, st')
        /\ inputValues clauses = [VNum (Num startTs); VNum (Num endTs)]
        /\ (startTs < endTs)%Z).
Proof.
  intros i startVar endVar. split.
  - change (generateNode env (Between startDate endDate) blockVar st)
      with (generateBetween env startDate endDate blockVar st).
    unfold generateBetween, bind, nextInput, ret. cbn [inputCounter refCounter clockReads].
    destruct (roamDateToTimestamp env startDate _) as [[startTs st1]|e]; [|reflexivity].
    destruct (roamDateToTimestamp env endDate st1) as [[endTs st2]|e]; reflexivity.
  - intros zone era1 era2 mono.
    unfold generate.
    change (generateNode env (Between "last month" "today") "?b" ?s)
      with (generateBetween env "last month" "today" "?b" s).
    unfold generateBetween, bind, nextInput, ret.
    cbn [inputCounter refCounter clockReads].
    rewrite resolve_last_month, resolve_today.
    cbn [inputCounter refCounter clockReads afterClockRead].
    destruct (sameDayLastMonth_value env zone _ era1) as (u1 & -> & H1).
    destruct (startOfDay_value env zone _ era2) as (u2 & -> & H2).
    do 4 eexists. split; [reflexivity|]. split; [reflexivity|].
    unfold JSDate.msPerDay in *. lia.
Qed.

(** On the host of the examples: from the first of last month's days to
    the end of today. *)
Lemma between_inclusive_range_witness :
  exists clauses st' startTs endTs,
    generate sampleEnv (Between "last month" "today") freshState = Ok (clauses, st')
    /\ inputValues clauses = [VNum (Num startTs); VNum (Num endTs)]
    /\ (startTs < endTs)%Z.
Proof.
  apply (proj2 (between_inclusive_range sampleEnv "last month" "today" "?b" freshState)).
  - intros t isUTC. reflexivity.
  - unfold clockInEra; simpl; lia.
  - unfold clockInEra; simpl; lia.
  - simpl; lia.
Defined.

Example between_last_month_today :
  generate sampleEnv (Between "last month" "today") freshState
  = Ok (mkClauses
          [ "[?b :create/time ?create-time]";
            "[(>= ?create-time ?start-date-0)]";
            "[(<= ?create-time ?end-date-1)]" ]
          ["?start-date-0"; "?end-date-1"]
          [VNum (Num 1790985600000); VNum (Num 1793750399999)],
        mkGenState 0 2 2).
Proof. vm_compute. reflexivity. Qed.

(** Seven days ago is seven days before the start of today. *)
Example between_seven_days :
  generate sampleEnv (Between "7 days ago" "today") freshState
  = Ok (mkClauses
          [ "[?b :create/time ?create-time]";
            "[(>= ?create-time ?start-date-0)]";
            "[(<= ?create-time ?end-date-1)]" ]
          ["?start-date-0"; "?end-date-1"]
          [VNum (Num (1793664000000 - 7 * 86400000));
           VNum (Num (1793664000000 + 86399999))],
        mkGenState 0 2 2).
Proof. vm_compute. reflexivity. Qed.

(* ================================================================== *)
(** * Properties of the parser *)
(* ================================================================== *)

Module ParserFacts.
Import QueryParser.

(** ** The tests of [parser.test.ts] *)

Example parser_tests_tags_and_operators :
  parse "[[Project]]" = inr (Tag "Project")
  /\ parse "[[My Project]]" = inr (Tag "My Project")
  /\ parse "[[Convention/Roam]]" = inr (Tag "Convention/Roam")
  /\ parse "{and: [[tag1]] [[tag2]]}" = inr (And [Tag "tag1"; Tag "tag2"])
  /\ parse "{and: [[a]] [[b]] [[c]]}" = inr (And [Tag "a"; Tag "b"; Tag "c"])
  /\ parse "{or: [[tag1]] [[tag2]]}" = inr (Or [Tag "tag1"; Tag "tag2"])
  /\ parse "{not: [[excluded]]}" = inr (Not (Tag "excluded"))
  /\ parse "{between: [[January 1st, 2026]] [[January 31st, 2026]]}"
     = inr (Between "January 1st, 2026" "January 31st, 2026")
  /\ parse "{between: [[last month]] [[last week]]}"
     = inr (Between "last month" "last week")
  /\ parse "{and: {or: [[a]] [[b]]} [[c]]}"
     = inr (And [Or [Tag "a"; Tag "b"]; Tag "c"])
  /\ parse "{and: [[include]] {not: [[exclude]]}}"
     = inr (And [Tag "include"; Not (Tag "exclude")])
  /\ parse "{and: {or: [[Project]] [[Task]]} {not: [[Archive]]} [[TODO]]}"
     = inr (And [Or [Tag "Project"; Tag "Task"]; Not (Tag "Archive"); Tag "TODO"]).
Proof. repeat split; vm_compute; reflexivity. Qed.

Example parser_tests_wrapper_and_names :
  parse "{{[[query]]: {and: [[Convention/Roam]] [[Roam]]}}}"
    = inr (And [Tag "Convention/Roam"; Tag "Roam"])
  /\ parse "{{[[query]]:   {and: [[a]] [[b]]}  }}" = inr (And [Tag "a"; Tag "b"])
  /\ parseWithName
       ("{{[[query]]: " ++ quoted "My Query Name" ++ " {and: [[a]] [[b]]}}}")
     = Done (mkParseResult (Some "My Query Name") (And [Tag "a"; Tag "b"]))
            EmptyString 34
  /\ parseWithName "{{[[query]]: {and: [[a]] [[b]]}}}"
     = Done (mkParseResult None (And [Tag "a"; Tag "b"])) EmptyString 18
  /\ parse ("{{[[query]]: " ++ quoted "Named Query" ++ " [[tag]]}}")
     = inr (Tag "tag")
  /\ parseWithName "{search: test}"
     = Done (mkParseResult None (Search "test")) EmptyString 14.
Proof. repeat split; vm_compute; reflexivity. Qed.

Example parser_tests_other_clauses :
  parse "((abc123def))" = inr (BlockRef "abc123def")
  /\ parse "{and: [[tag]] ((uid123))}" = inr (And [Tag "tag"; BlockRef "uid123"])
  /\ parse "{search: hello world}" = inr (Search "hello world")
  /\ parse ("{search: " ++ quoted "exact phrase" ++ "}") = inr (Search "exact phrase")
  /\ parse "{daily notes: }" = inr DailyNotes
  /\ parse "{and: {daily notes: } [[tag]]}" = inr (And [DailyNotes; Tag "tag"])
  /\ parse "{by: [[PAI System User]]}" = inr (By "PAI System User")
  /\ parse ("{{[[query]]: " ++ quoted "Test Query"
              ++ " {and: [[Test/CreatePage Fix Verification]] {by: [[PAI System User]]}}}}")
     = inr (And [Tag "Test/CreatePage Fix Verification"; By "PAI System User"])
  /\ parse "{created by: John Doe}" = inr (CreatedBy "John Doe")
  /\ parse "{created by: [[John Doe]]}" = inr (CreatedBy "John Doe")
  /\ parse "{edited by: Jane Smith}" = inr (EditedBy "Jane Smith")
  /\ parse "[[title with [[nested]] brackets]]"
     = inr (Tag "title with [[nested]] brackets").
Proof. repeat split; vm_compute; reflexivity. Qed.

(** The errors of the tests, and what the parser accepts beyond the
    grammar. *)
Example parser_tests_errors :
  parse "[[unclosed" = inl (mkParseError "Unclosed tag reference" 10)
  /\ parse "{unknown: [[tag]]}" = inl (mkParseError "Unknown operator: unknown" 10)
  /\ parse "{and: }"
     = inl (mkParseError "and operator requires at least one child" 6)
  /\ parse "{and: [[a]] [[b]]"
     = inl (mkParseError "Expected '}' at position 17, found 'EOF'" 17)
  /\ parse "[[a]] [[b]]"
     = inl (mkParseError ("Unexpected content after query: " ++ quoted "[[b]]") 6)
  /\ parse "((abc" = inr (BlockRef "abc")
  /\ parse "{AND: [[a]]}" = inr (And [Tag "a"])
  /\ parse "{by: }" = inr (By EmptyString)
  /\ parse "[[]]" = inr (Tag EmptyString).
Proof. repeat split; vm_compute; reflexivity. Qed.

(** ** What the parser leaves and where its errors lie *)

Lemma Suffix_length rest s : Suffix rest s -> String.length rest <= String.length s.
Proof. induction 1; simpl; lia. Qed.

Lemma Suffix_trans a b c : Suffix a b -> Suffix b c -> Suffix a c.
Proof. intros Hab Hbc. induction Hbc; auto using Suffix_skip. Qed.

Lemma Suffix_tail c rest s : Suffix (String c rest) s -> Suffix rest s.
Proof.
  intros H. eapply Suffix_trans; [|exact H]. apply Suffix_skip, Suffix_refl.
Qed.

Lemma Suffix_empty s : Suffix EmptyString s.
Proof. induction s; now constructor. Qed.

Lemma Sound_done {A} (p : Parser A) s pos a rest pos' :
  Sound p -> p s pos = Done a rest pos' ->
  Suffix rest s /\ pos' = advance s pos rest.
Proof. intros H E. specialize (H s pos). now rewrite E in H. Qed.

Lemma Sound_fail {A} (p : Parser A) s pos e :
  Sound p -> p s pos = Fail e -> pos <= pe_position e <= pos + String.length s.
Proof. intros H E. specialize (H s pos). now rewrite E in H. Qed.

Lemma Sound_pure {A} (a : A) : Sound (pure a).
Proof.
  intros s pos. split; [constructor|]. unfold advance. lia.
Qed.

Lemma Sound_bind {A B} (p : Parser A) (k : A -> Parser B) :
  Sound p -> (forall a, Sound (k a)) -> Sound (bindP p k).
Proof.
  intros Hp Hk s pos. unfold bindP. specialize (Hp s pos).
  destruct (p s pos) as [a mid pos1|e|]; auto.
  destruct Hp as [Hs ->]. specialize (Hk a mid (advance s pos mid)).
  pose proof (Suffix_length _ _ Hs).
  destruct (k a mid _) as [b rest pos2|e|]; auto.
  - destruct Hk as [Hs2 ->]. split; [eapply Suffix_trans; eauto|].
    pose proof (Suffix_length _ _ Hs2). unfold advance. lia.
  - unfold advance in *. lia.
Qed.

Lemma Sound_skipWhitespace : Sound skipWhitespace.
Proof.
  intros s. induction s as [|c s IH]; intros pos; simpl.
  - split; [constructor|]. unfold advance. cbn [String.length]. lia.
  - destruct (Str.isWhiteSpace c).
    + specialize (IH (S pos)).
      destruct (skipWhitespace s (S pos)) as [[] rest pos'| |]; auto.
      * destruct IH as [Hs ->]. split; [now constructor|].
        pose proof (Suffix_length _ _ Hs). unfold advance. cbn [String.length]. lia.
      * simpl in *. lia.
    + split; [constructor|]. unfold advance. lia.
Qed.

Lemma Sound_expect c : Sound (expect c).
Proof.
  intros [|a s] pos; unfold expect, failAt; cbv zeta;
    [cbn [pe_position String.length]; lia|].
  destruct (Ascii.eqb a c); cbn [pe_position String.length]; [|lia].
  split; [repeat constructor|]. unfold advance. cbn [String.length]. lia.
Qed.

Lemma Strict_expect c : Strict (expect c).
Proof.
  intros [|a s] pos v rest pos'; unfold expect; [discriminate|].
  destruct (Ascii.eqb a c); [|discriminate]. intros [= _ <- _]. simpl. lia.
Qed.

Lemma consSome_some c r value rest :
  consSome c r = Some (value, rest) ->
  exists v, r = Some (v, rest) /\ value = c ++ v.
Proof. destruct r as [[v r']|]; simpl; [|discriminate]. intros [= <- <-]. eauto. Qed.

Lemma scanTag_unfold c c' s' depth :
  scanTag (String c (String c' s')) depth =
  if Ascii.eqb c "]" && Ascii.eqb c' "]" then
    match depth with
    | O => Some (EmptyString, s')
    | S depth' => consSome "]]" (scanTag s' depth')
    end
  else if Ascii.eqb c "[" && Ascii.eqb c' "[" then
    consSome "[[" (scanTag s' (S depth))
  else consSome (Str.chr c) (scanTag (String c' s') depth).
Proof. reflexivity. Qed.

Ltac by_length_induction s IH :=
  induction s as [s IH] using (well_founded_induction
    (Wf_nat.well_founded_ltof _ String.length));
  unfold Wf_nat.ltof in IH.

Lemma scanTag_suffix s : forall depth value rest,
  scanTag s depth = Some (value, rest) ->
  Suffix rest s /\ String.length rest < String.length s.
Proof.
  by_length_induction s IH.
  intros depth value rest. destruct s as [|c [|c' s']]; try discriminate.
  rewrite scanTag_unfold.
  destruct (Ascii.eqb c "]" && Ascii.eqb c' "]").
  { destruct depth as [|d].
    - intros [= <- <-]. split; [repeat constructor|simpl; lia].
    - intros H. apply consSome_some in H as (v & H & _).
      apply IH in H; [|simpl; lia]. destruct H.
      split; [auto using Suffix_skip|simpl; lia]. }
  destruct (Ascii.eqb c "[" && Ascii.eqb c' "[").
  { intros H. apply consSome_some in H as (v & H & _).
    apply IH in H; [|simpl; lia]. destruct H.
    split; [auto using Suffix_skip|simpl; lia]. }
  intros H. apply consSome_some in H as (v & H & _).
  apply IH in H; [|simpl; lia]. destruct H.
  split; [auto using Suffix_skip|simpl in *; lia].
Qed.

Lemma dropPrefix_suffix w : forall s rest,
  dropPrefix w s = Some rest ->
  Suffix rest s /\ String.length s = String.length w + String.length rest.
Proof.
  induction w as [|a w IH]; intros s rest; simpl.
  - intros [= ->]. split; [constructor|reflexivity].
  - destruct s as [|b s]; [discriminate|].
    destruct (Ascii.eqb a b); [|discriminate].
    intros H. apply IH in H as [Hs Hl]. split; [now constructor|simpl; lia].
Qed.

Lemma Sound_scanTag : Sound (fun s pos =>
  match scanTag s 0 with
  | Some (value, rest) => Done (Str.trim value) rest (advance s pos rest)
  | None => failAt "Unclosed tag reference" (pos + String.length s)
  end).
Proof.
  intros s pos. destruct (scanTag s 0) as [[value rest]|] eqn:E.
  - apply scanTag_suffix in E as [Hs _]. split; [assumption|reflexivity].
  - unfold failAt; cbn [pe_position]. lia.
Qed.

Lemma Sound_parseTag : Sound parseTag.
Proof.
  unfold parseTag. apply Sound_bind; [apply Sound_expect|intros _].
  apply Sound_bind; [apply Sound_expect|intros _]. apply Sound_scanTag.
Qed.

Lemma Strict_bind_l {A B} (p : Parser A) (k : A -> Parser B) :
  Strict p -> (forall a, Sound (k a)) -> Strict (bindP p k).
Proof.
  intros Hp Hk s pos b rest pos'. unfold bindP.
  destruct (p s pos) as [a mid pos1|e|] eqn:E1; try discriminate.
  intros E2. apply Hp in E1. apply (Sound_done _ _ _ _ _ _ (Hk a)) in E2 as [Hs _].
  apply Suffix_length in Hs. lia.
Qed.

Lemma Strict_bind_r {A B} (p : Parser A) (k : A -> Parser B) :
  Sound p -> (forall a, Strict (k a)) -> Strict (bindP p k).
Proof.
  intros Hp Hk s pos b rest pos'. unfold bindP.
  destruct (p s pos) as [a mid pos1|e|] eqn:E1; try discriminate.
  intros E2. apply (Sound_done _ _ _ _ _ _ Hp) in E1 as [Hs _]. apply Hk in E2.
  apply Suffix_length in Hs. lia.
Qed.

Lemma Strict_parseTag : Strict parseTag.
Proof.
  unfold parseTag. apply Strict_bind_l; [apply Strict_expect|intros _].
  apply Sound_bind; [apply Sound_expect|intros _]. apply Sound_scanTag.
Qed.

Lemma scanBlockRef_suffix s : Suffix (snd (scanBlockRef s)) s.
Proof.
  induction s as [|c s IH]; [constructor|].
  cbn [scanBlockRef]. destruct s as [|c' s']; [repeat constructor|].
  destruct (Ascii.eqb c ")" && Ascii.eqb c' ")"); [repeat constructor|].
  unfold consFst. cbn [snd]. now constructor.
Qed.

Lemma Sound_scanBlockRef : Sound (fun s pos =>
  let (uid, rest) := scanBlockRef s in
  if isEmpty uid then failAt "Empty block reference" (advance s pos rest)
  else Done (Str.trim uid) rest (advance s pos rest)).
Proof.
  intros s pos. pose proof (scanBlockRef_suffix s) as H.
  destruct (scanBlockRef s) as [uid rest]. cbn [snd] in H.
  pose proof (Suffix_length _ _ H).
  destruct (isEmpty uid); [|split; [assumption|reflexivity]].
  unfold failAt; cbn [pe_position]. unfold advance. lia.
Qed.

Lemma Sound_parseBlockRef : Sound parseBlockRef.
Proof.
  unfold parseBlockRef. apply Sound_bind; [apply Sound_expect|intros _].
  apply Sound_bind; [apply Sound_expect|intros _]. apply Sound_scanBlockRef.
Qed.

Lemma Strict_parseBlockRef : Strict parseBlockRef.
Proof.
  unfold parseBlockRef. apply Strict_bind_l; [apply Strict_expect|intros _].
  apply Sound_bind; [apply Sound_expect|intros _]. apply Sound_scanBlockRef.
Qed.

Lemma scanToBrace_suffix s : Suffix (snd (scanToBrace s)) s.
Proof.
  induction s as [|c s IH]; [constructor|].
  cbn [scanToBrace]. destruct (Ascii.eqb c "}"); [constructor|].
  unfold consFst. cbn [snd]. now constructor.
Qed.

Lemma scanQuoted_suffix s : Suffix (snd (scanQuoted s)) s.
Proof.
  by_length_induction s IH.
  destruct s as [|c s]; [constructor|].
  cbn [scanQuoted]. destruct (Ascii.eqb c Str.dquote); [constructor|].
  destruct s as [|c' s']; [repeat constructor|].
  destruct (Ascii.eqb c Str.backslash && Ascii.eqb c' Str.dquote);
    unfold consFst; cbn [snd].
  - do 2 constructor. apply IH. simpl. lia.
  - constructor. apply IH. simpl. lia.
Qed.

Lemma Sound_parseQuotedString : Sound parseQuotedString.
Proof.
  unfold parseQuotedString. apply Sound_bind; [apply Sound_expect|intros _].
  intros s pos. pose proof (scanQuoted_suffix s) as H.
  destruct (scanQuoted s) as [value rest]. cbn [snd] in H.
  destruct rest as [|c rest'].
  - unfold failAt; cbn [pe_position]. unfold advance. cbn [String.length]. lia.
  - split; [now apply Suffix_tail in H|reflexivity].
Qed.

Lemma Sound_parseSearch : Sound parseSearch.
Proof.
  unfold parseSearch. apply Sound_bind; [apply Sound_skipWhitespace|intros _].
  intros [|c body] pos.
  - split; [constructor|]. unfold advance. lia.
  - destruct (Ascii.eqb c Str.dquote).
    + pose proof (scanQuoted_suffix body) as H.
      destruct (scanQuoted body) as [text rest]. cbn [snd] in H.
      destruct rest as [|d rest'].
      * split; [apply Suffix_empty|reflexivity].
      * split; [constructor; now apply Suffix_tail in H|reflexivity].
    + pose proof (scanToBrace_suffix (String c body)) as H.
      destruct (scanToBrace (String c body)) as [text rest]. cbn [snd] in H.
      split; [assumption|reflexivity].
Qed.

Lemma Sound_parseUserIdentifier : Sound parseUserIdentifier.
Proof.
  intros s pos. unfold parseUserIdentifier.
  destruct (startsWith "[[" s); [apply Sound_parseTag|].
  pose proof (scanToBrace_suffix s) as H.
  destruct (scanToBrace s) as [user rest]. cbn [snd] in H.
  split; [assumption|reflexivity].
Qed.

Lemma span_suffix p s : forall a b, span p s = (a, b) -> Suffix b s.
Proof.
  induction s as [|c s IH]; intros a b; simpl.
  - intros [= _ <-]. constructor.
  - destruct (p c).
    + destruct (span p s) as [a' b'] eqn:E. intros [= _ <-].
      constructor. eapply IH; eauto.
    + intros [= _ <-]. constructor.
Qed.

Lemma Sound_parseIdentifier : Sound parseIdentifier.
Proof.
  intros s pos. unfold parseIdentifier.
  destruct (span isLetter s) as [id rest] eqn:E. apply span_suffix in E.
  split; [assumption|reflexivity].
Qed.

Lemma toLowerCase_length s : String.length (Str.toLowerCase s) = String.length s.
Proof. induction s as [|c s IH]; simpl; [reflexivity|]. now rewrite IH. Qed.

Lemma sliceFrom_suffix n : forall s,
  n <= String.length s ->
  Suffix (sliceFrom n s) s /\ String.length (sliceFrom n s) = String.length s - n.
Proof.
  induction n as [|n IH]; intros s Hn.
  - destruct s; simpl; split; try constructor; lia.
  - destruct s as [|c s]; [simpl in Hn; lia|]. simpl in Hn.
    destruct (IH s) as [H1 H2]; [lia|]. split; [now constructor|exact H2].
Qed.

Lemma startsWith_length w s :
  startsWith w s = true -> String.length w <= String.length s.
Proof.
  unfold startsWith. destruct (dropPrefix w s) as [r|] eqn:E; [|discriminate].
  apply dropPrefix_suffix in E as [_ E]. lia.
Qed.

Lemma matchMultiWord_length ops : forall remaining op,
  matchMultiWord ops remaining = Some op ->
  String.length op <= String.length remaining.
Proof.
  induction ops as [|o ops IH]; intros remaining op; simpl; [discriminate|].
  destruct (startsWith o remaining) eqn:E.
  - intros [= <-]. now apply startsWith_length.
  - apply IH.
Qed.

Lemma Sound_parseOperatorName : Sound parseOperatorName.
Proof.
  intros s pos. unfold parseOperatorName.
  destruct (matchMultiWord _ _) as [op|] eqn:E; [|apply Sound_parseIdentifier].
  apply matchMultiWord_length in E. rewrite toLowerCase_length in E.
  destruct (sliceFrom_suffix _ s E) as [H1 H2].
  split; [assumption|]. unfold advance. rewrite H2. lia.
Qed.

Lemma Sound_parseName : Sound parseName.
Proof.
  intros s pos. unfold parseName.
  destruct (startsWith _ s); [|split; [constructor|unfold advance; lia]].
  apply (Sound_bind parseQuotedString); [apply Sound_parseQuotedString|intros ?].
  apply Sound_bind; [apply Sound_skipWhitespace|intros ?]. apply Sound_pure.
Qed.

Ltac sound_steps :=
  repeat first
    [ apply Sound_pure
    | apply Sound_skipWhitespace
    | apply Sound_expect
    | apply Sound_parseTag
    | apply Sound_parseBlockRef
    | apply Sound_parseOperatorName
    | apply Sound_parseUserIdentifier
    | apply Sound_parseSearch
    | apply Sound_parseName
    | assumption
    | apply Sound_bind; [|intros ?] ].

Lemma Sound_parseBetween : Sound parseBetween.
Proof. unfold parseBetween. sound_steps. Qed.

Lemma Sound_parseUserClause type : Sound (parseUserClause type).
Proof. unfold parseUserClause. sound_steps. Qed.

Section SoundOperator.
Variable expression : Parser QueryNode.
Variable children : list QueryNode -> Parser (list QueryNode).
Hypothesis Sound_expression : Sound expression.
Hypothesis Sound_children : forall acc, Sound (children acc).

Lemma Sound_parseAndOr type : Sound (parseAndOr children type).
Proof.
  unfold parseAndOr. apply Sound_bind; [apply Sound_skipWhitespace|intros _].
  apply Sound_bind; [apply Sound_children|intros nodes].
  intros s pos. destruct nodes; [unfold failAt; cbn [pe_position]; lia|].
  split; [constructor|unfold advance; lia].
Qed.

Lemma Sound_parseNot : Sound (parseNot expression).
Proof. unfold parseNot. sound_steps. Qed.

Lemma Sound_parseClause operator : Sound (parseClause expression children operator).
Proof.
  unfold parseClause.
  repeat match goal with
         | |- Sound (if ?b then _ else _) => destruct b
         end;
    first [ apply Sound_parseAndOr | apply Sound_parseNot | apply Sound_parseBetween
          | apply Sound_parseSearch | apply Sound_pure | apply Sound_parseUserClause
          | idtac ].
  intros s pos. unfold failAt; cbn [pe_position]. lia.
Qed.

Lemma Sound_parseOperator : Sound (parseOperator expression children).
Proof. unfold parseOperator. sound_steps. apply Sound_parseClause. Qed.

Lemma Sound_parseExpressionWith : Sound (parseExpressionWith expression children).
Proof.
  unfold parseExpressionWith. apply Sound_bind; [apply Sound_skipWhitespace|].
  intros _ s pos.
  destruct (startsWith "{" s); [apply Sound_parseOperator|].
  destruct (startsWith "[[" s).
  { apply (Sound_bind parseTag); sound_steps. }
  destruct (startsWith "((" s).
  { apply (Sound_bind parseBlockRef); sound_steps. }
  unfold failAt; cbn [pe_position]. lia.
Qed.

Lemma Sound_parseChildrenWith acc :
  Sound (parseChildrenWith expression children acc).
Proof.
  intros s pos. unfold parseChildrenWith.
  destruct s as [|c rest]; [split; [constructor|unfold advance; lia]|].
  destruct (Ascii.eqb c "}"); [split; [constructor|unfold advance; lia]|].
  apply (Sound_bind expression); [assumption|intros node].
  apply Sound_bind; [apply Sound_skipWhitespace|intros _]. apply Sound_children.
Qed.
End SoundOperator.

Lemma Sound_parseExpression fuel :
  Sound (parseExpression fuel) /\ forall acc, Sound (parseChildren fuel acc).
Proof.
  induction fuel as [|fuel [IHe IHc]].
  - split; [|intros acc]; intros s pos; exact I.
  - split.
    + apply (Sound_parseExpressionWith _ _ IHe IHc).
    + intros acc. apply (Sound_parseChildrenWith _ _ IHe IHc).
Qed.

(** ** Progress and fuel *)

Lemma Strict_parseExpressionWith expression children :
  Sound expression -> (forall acc, Sound (children acc)) ->
  Strict (parseExpressionWith expression children).
Proof.
  intros He Ho. unfold parseExpressionWith.
  apply Strict_bind_r; [apply Sound_skipWhitespace|].
  intros _ s pos node rest pos'.
  destruct (startsWith "{" s).
  { apply (Strict_bind_l (expect "{")); [apply Strict_expect|].
    intros _. sound_steps. now apply Sound_parseClause. }
  destruct (startsWith "[[" s).
  { apply (Strict_bind_l parseTag); [apply Strict_parseTag|intros; apply Sound_pure]. }
  destruct (startsWith "((" s).
  { apply (Strict_bind_l parseBlockRef);
      [apply Strict_parseBlockRef|intros; apply Sound_pure]. }
  discriminate.
Qed.

Lemma Strict_parseExpression fuel : Strict (parseExpression fuel).
Proof.
  destruct fuel as [|fuel]; [discriminate|].
  destruct (Sound_parseExpression fuel) as [He Hc].
  apply (Strict_parseExpressionWith _ _ He Hc).
Qed.

Lemma Total_Fueled {A} (p : Parser A) m : Total p -> Fueled m p.
Proof. intros H s pos _. apply H. Qed.

Lemma Fueled_bind {A B} m (p : Parser A) (k : A -> Parser B) :
  Sound p -> Fueled m p -> (forall a, Fueled m (k a)) -> Fueled m (bindP p k).
Proof.
  intros Hs Hp Hk s pos Hl. unfold bindP.
  specialize (Hp s pos Hl). pose proof (Hs s pos) as Hsp.
  destruct (p s pos) as [a mid pos1|e|]; try discriminate; [|congruence].
  destruct Hsp as [Hsuf _]. apply Suffix_length in Hsuf.
  apply Hk. lia.
Qed.

Lemma Fueled_bind_strict {A B} m (p : Parser A) (k : A -> Parser B) :
  Strict p -> Fueled (S m) p -> (forall a, Fueled m (k a)) ->
  Fueled (S m) (bindP p k).
Proof.
  intros Hs Hp Hk s pos Hl. unfold bindP.
  specialize (Hp s pos Hl).
  destruct (p s pos) as [a mid pos1|e|] eqn:E; try discriminate; [|congruence].
  apply Hs in E. apply Hk. lia.
Qed.

Lemma Total_pure {A} (a : A) : Total (pure a).
Proof. intros s pos. discriminate. Qed.

Lemma Total_bind {A B} (p : Parser A) (k : A -> Parser B) :
  Total p -> (forall a, Total (k a)) -> Total (bindP p k).
Proof.
  intros Hp Hk s pos. unfold bindP. specialize (Hp s pos).
  destruct (p s pos) as [a mid pos1|e|]; [apply Hk|discriminate|congruence].
Qed.

Lemma Total_skipWhitespace : Total skipWhitespace.
Proof.
  intros s. induction s as [|c s IH]; intros pos; simpl; [discriminate|].
  destruct (Str.isWhiteSpace c); [apply IH|discriminate].
Qed.

Lemma Total_expect c : Total (expect c).
Proof.
  intros [|a s] pos; unfold expect; [discriminate|].
  destruct (Ascii.eqb a c); discriminate.
Qed.

Lemma Total_parseTag : Total parseTag.
Proof.
  unfold parseTag. apply Total_bind; [apply Total_expect|intros _].
  apply Total_bind; [apply Total_expect|intros _]. intros s pos.
  destruct (scanTag s 0) as [[value rest]|]; discriminate.
Qed.

Lemma Total_parseBlockRef : Total parseBlockRef.
Proof.
  unfold parseBlockRef. apply Total_bind; [apply Total_expect|intros _].
  apply Total_bind; [apply Total_expect|intros _]. intros s pos.
  destruct (scanBlockRef s) as [uid rest]. destruct (isEmpty uid); discriminate.
Qed.

Lemma Total_parseQuotedString : Total parseQuotedString.
Proof.
  unfold parseQuotedString. apply Total_bind; [apply Total_expect|intros _].
  intros s pos. destruct (scanQuoted s) as [value [|c rest]]; discriminate.
Qed.

Lemma Total_parseSearch : Total parseSearch.
Proof.
  unfold parseSearch. apply Total_bind; [apply Total_skipWhitespace|intros _].
  intros [|c body] pos; [discriminate|].
  destruct (Ascii.eqb c Str.dquote).
  - destruct (scanQuoted body) as [text [|d rest]]; discriminate.
  - destruct (scanToBrace _) as [text rest]; discriminate.
Qed.

Lemma Total_parseUserIdentifier : Total parseUserIdentifier.
Proof.
  intros s pos. unfold parseUserIdentifier.
  destruct (startsWith "[[" s); [apply Total_parseTag|].
  destruct (scanToBrace s) as [user rest]; discriminate.
Qed.

Lemma Total_parseOperatorName : Total parseOperatorName.
Proof.
  intros s pos. unfold parseOperatorName, parseIdentifier.
  destruct (matchMultiWord _ _); [discriminate|].
  destruct (span isLetter s); discriminate.
Qed.

Lemma Total_parseName : Total parseName.
Proof.
  intros s pos. unfold parseName. destruct (startsWith _ s); [|discriminate].
  apply (Total_bind parseQuotedString); [apply Total_parseQuotedString|intros ?].
  apply Total_bind; [apply Total_skipWhitespace|intros ?]. apply Total_pure.
Qed.

Lemma Total_parseBetween : Total parseBetween.
Proof.
  unfold parseBetween.
  repeat first [ apply Total_pure | apply Total_skipWhitespace | apply Total_parseTag
               | apply Total_bind; [|intros ?] ].
Qed.

Lemma Total_parseUserClause type : Total (parseUserClause type).
Proof.
  unfold parseUserClause.
  repeat first [ apply Total_pure | apply Total_skipWhitespace
               | apply Total_parseUserIdentifier
               | apply Total_bind; [|intros ?] ].
Qed.

Lemma Fueled_pure {A} m (a : A) : Fueled m (pure a).
Proof. intros s pos _. discriminate. Qed.

Ltac fueled_steps :=
  repeat first
    [ apply Fueled_pure
    | assumption
    | apply Total_Fueled;
        first [ apply Total_skipWhitespace | apply Total_expect
              | apply Total_parseTag | apply Total_parseBlockRef
              | apply Total_parseOperatorName | apply Total_parseUserIdentifier
              | apply Total_parseSearch | apply Total_parseBetween
              | apply Total_parseUserClause | apply Total_pure ]
    | apply Fueled_bind; [sound_steps| |intros ?] ].

Section FueledOperator.
Variable expression : Parser QueryNode.
Variable children : list QueryNode -> Parser (list QueryNode).
Hypothesis Sound_expression : Sound expression.
Hypothesis Sound_children : forall acc, Sound (children acc).

Lemma Fueled_parseAndOr m type :
  (forall acc, Fueled m (children acc)) -> Fueled m (parseAndOr children type).
Proof.
  intros Ho. unfold parseAndOr.
  apply Fueled_bind;
    [apply Sound_skipWhitespace|apply Total_Fueled, Total_skipWhitespace|intros _].
  apply Fueled_bind; [apply Sound_children|apply Ho|intros nodes].
  intros s pos _. destruct nodes; discriminate.
Qed.

Lemma Fueled_parseNot m :
  Fueled m expression -> Fueled m (parseNot expression).
Proof. intros He. unfold parseNot. fueled_steps. Qed.

Lemma Fueled_parseClause m operator :
  Fueled m expression -> (forall acc, Fueled m (children acc)) ->
  Fueled m (parseClause expression children operator).
Proof.
  intros He Ho. unfold parseClause.
  repeat match goal with
         | |- Fueled _ (if ?b then _ else _) => destruct b
         end;
    first [ now apply Fueled_parseAndOr
          | now apply Fueled_parseNot
          | apply Total_Fueled;
              first [ apply Total_parseBetween | apply Total_parseSearch
                    | apply Total_pure | apply Total_parseUserClause ]
          | idtac ].
  intros s pos _. discriminate.
Qed.

Lemma Fueled_parseOperator m :
  Fueled m expression -> (forall acc, Fueled m (children acc)) ->
  Fueled (S m) (parseOperator expression children).
Proof.
  intros He Ho. unfold parseOperator.
  apply Fueled_bind_strict;
    [apply Strict_expect|apply Total_Fueled, Total_expect|].
  intros _. fueled_steps; try (now apply Sound_parseClause).
  now apply Fueled_parseClause.
Qed.

Lemma Fueled_parseExpressionWith m :
  Fueled m expression -> (forall acc, Fueled m (children acc)) ->
  Fueled (S m) (parseExpressionWith expression children).
Proof.
  intros He Ho. unfold parseExpressionWith.
  apply Fueled_bind;
    [apply Sound_skipWhitespace|apply Total_Fueled, Total_skipWhitespace|].
  intros _ s pos Hl.
  destruct (startsWith "{" s); [exact (Fueled_parseOperator m He Ho s pos Hl)|].
  destruct (startsWith "[[" s).
  { unfold bindP. pose proof (Total_parseTag s pos).
    destruct (parseTag s pos); [discriminate|discriminate|congruence]. }
  destruct (startsWith "((" s).
  { unfold bindP. pose proof (Total_parseBlockRef s pos).
    destruct (parseBlockRef s pos); [discriminate|discriminate|congruence]. }
  discriminate.
Qed.

Lemma Fueled_parseChildrenWith m acc :
  Strict expression -> Fueled (S m) expression ->
  (forall acc', Fueled m (children acc')) ->
  Fueled (S m) (parseChildrenWith expression children acc).
Proof.
  intros Hstrict He Hmore s pos Hl. unfold parseChildrenWith.
  destruct s as [|c rest]; [discriminate|].
  destruct (Ascii.eqb c "}"); [discriminate|].
  apply (Fueled_bind_strict m expression); auto.
  intros node. apply Fueled_bind;
    [apply Sound_skipWhitespace|apply Total_Fueled, Total_skipWhitespace|].
  intros _. apply Hmore.
Qed.
End FueledOperator.

Lemma Fueled_zero {A} (p : Parser A) : Fueled 0 p.
Proof. intros s pos H. lia. Qed.

(** With fuel [f], expressions shorter than half of [f + 1] and lists
    of children shorter than half of [f] are parsed to the end. *)
Lemma Fueled_parseExpression fuel :
  (forall m, 2 * m <= fuel + 1 -> Fueled m (parseExpression fuel))
  /\ (forall m acc, 2 * m <= fuel -> Fueled m (parseChildren fuel acc)).
Proof.
  induction fuel as [|fuel [IHe IHc]].
  - split; [intros m Hm|intros m acc Hm];
      (replace m with 0 by lia); apply Fueled_zero.
  - destruct (Sound_parseExpression fuel) as [He Hc]. split.
    + intros [|m] Hm; [apply Fueled_zero|].
      apply (Fueled_parseExpressionWith _ _ He Hc m).
      * apply IHe. lia.
      * intros acc. apply IHc. lia.
    + intros [|m] acc Hm; [apply Fueled_zero|].
      apply (Fueled_parseChildrenWith _ _ m acc).
      * apply Strict_parseExpression.
      * apply IHe. lia.
      * intros acc'. apply IHc. lia.
Qed.

Lemma Sound_parseNamedExpression fuel : Sound (parseNamedExpression fuel).
Proof.
  destruct (Sound_parseExpression fuel) as [Se _].
  unfold parseNamedExpression. sound_steps.
Qed.

Lemma Sound_parseExpressionText expression :
  Sound (result <~ parseNamedExpression (fuelFor expression) ;;
         _ <~ skipWhitespace ;;
         fun s pos =>
           match s with
           | EmptyString => Done result s pos
           | String _ _ =>
               failAt ("Unexpected content after query: " ++ quoted s) pos
           end).
Proof.
  apply Sound_bind; [apply Sound_parseNamedExpression|intros result].
  sound_steps. intros [|c s] pos.
  - split; [constructor|unfold advance; lia].
  - unfold failAt; cbn [pe_position]. lia.
Qed.

Lemma parseExpressionText_fuel expression : parseExpressionText expression <> NoFuel.
Proof.
  unfold parseExpressionText.
  destruct (Fueled_parseExpression (fuelFor expression)) as [He _].
  specialize (He (S (String.length expression))).
  assert (F : Fueled (S (String.length expression))
                (parseExpression (fuelFor expression))).
  { apply He. unfold fuelFor. lia. }
  destruct (Sound_parseExpression (fuelFor expression)) as [Se _].
  apply (fun G : Fueled (S (String.length expression)) _ =>
           G expression 0 (Nat.lt_succ_diag_r _)).
  apply Fueled_bind; [apply Sound_parseNamedExpression| |intros result].
  - unfold parseNamedExpression.
    apply Fueled_bind; [sound_steps|fueled_steps|intros _].
    apply Fueled_bind; [sound_steps|apply Total_Fueled, Total_parseName|intros name].
    apply Fueled_bind; [sound_steps|exact F|intros query]. apply Fueled_pure.
  - apply Fueled_bind; [sound_steps|fueled_steps|intros _].
    intros [|c s] pos _; discriminate.
Qed.

Lemma parseExpressionText_position expression e :
  parseExpressionText expression = Fail e ->
  pe_position e <= String.length expression.
Proof.
  intros H. apply (Sound_fail _ _ _ _ (Sound_parseExpressionText expression)) in H.
  lia.
Qed.

(** ** Reading a text step by step *)

Lemma bindP_Done {A B} (p : Parser A) (k : A -> Parser B) s pos a rest pos' :
  p s pos = Done a rest pos' -> bindP p k s pos = k a rest pos'.
Proof. intros H. unfold bindP. now rewrite H. Qed.

Lemma bindP_Fail {A B} (p : Parser A) (k : A -> Parser B) s pos e :
  p s pos = Fail e -> bindP p k s pos = Fail e.
Proof. intros H. unfold bindP. now rewrite H. Qed.

Lemma trimStart_length s : String.length (Str.trimStart s) <= String.length s.
Proof.
  induction s as [|c s IH]; simpl; [lia|].
  destruct (Str.isWhiteSpace c); simpl; lia.
Qed.

(** [skipWhitespace] leaves the text without its leading white space. *)
Lemma skipWhitespace_trimStart s : forall pos,
  skipWhitespace s pos
  = Done tt (Str.trimStart s)
      (pos + (String.length s - String.length (Str.trimStart s))).
Proof.
  induction s as [|c s IH]; intros pos; cbn [skipWhitespace Str.trimStart].
  - f_equal. cbn [String.length]. lia.
  - destruct (Str.isWhiteSpace c).
    + rewrite IH. f_equal. pose proof (trimStart_length s).
      cbn [String.length]. lia.
    + f_equal. lia.
Qed.

Lemma skipWhitespace_stay c s pos :
  Str.isWhiteSpace c = false ->
  skipWhitespace (String c s) pos = Done tt (String c s) pos.
Proof. intros H. simpl. now rewrite H. Qed.

Lemma trimStart_app ws tail :
  allWhiteSpace ws ->
  match tail with
  | EmptyString => True
  | String c _ => Str.isWhiteSpace c = false
  end ->
  Str.trimStart (ws ++ tail) = tail.
Proof.
  intros Hws Ht. induction ws as [|w ws IH]; cbn [append].
  - destruct tail as [|c t]; [reflexivity|]. simpl. now rewrite Ht.
  - apply allWhiteSpace_cons in Hws as [Hw Hws]. simpl. rewrite Hw. auto.
Qed.

Lemma expect_ok c s pos : expect c (String c s) pos = Done tt s (S pos).
Proof. unfold expect. now rewrite Ascii.eqb_refl. Qed.

Lemma fuelFor_cons c s : exists fuel, fuelFor (String c s) = S (S fuel).
Proof.
  unfold fuelFor. cbn [String.length].
  exists (2 * String.length s + 2). lia.
Qed.

(** A text that is an expression from its first character, without a
    name: the outcome of [parseQueryWithName] from that of
    [parseExpression]. *)
Lemma parseExpressionText_bare c s :
  Str.isWhiteSpace c = false -> c <> Str.dquote ->
  parseExpressionText (String c s)
  = match parseExpression (fuelFor (String c s)) (String c s) 0 with
    | Done query rest pos =>
        match Str.trimStart rest with
        | EmptyString =>
            Done (mkParseResult None query) EmptyString (pos + String.length rest)
        | String d t =>
            failAt ("Unexpected content after query: " ++ quoted (String d t))
                   (pos + (String.length rest - String.length (String d t)))
        end
    | Fail e => Fail e
    | NoFuel => NoFuel
    end.
Proof.
  intros Hw Hq. unfold parseExpressionText, parseNamedExpression.
  unfold bindP at 1 2. rewrite skipWhitespace_stay by assumption.
  unfold bindP at 1, parseName, startsWith, Str.chr. cbn [dropPrefix].
  destruct (Ascii.eqb_spec Str.dquote c) as [E|_]; [congruence|].
  unfold bindP at 1.
  destruct (parseExpression _ (String c s) 0) as [query rest pos|e|]; try reflexivity.
  unfold pure, bindP. rewrite skipWhitespace_trimStart.
  destruct (Str.trimStart rest) as [|d t]; [|reflexivity].
  f_equal. cbn [String.length]. lia.
Qed.

(** ** The violations *)

(** A text without [ ]] ] never closes the tag. *)
Lemma scanTag_unclosed s : forall depth,
  (forall i, substring i 2 s <> "]]") -> scanTag s depth = None.
Proof.
  by_length_induction s IH.
  intros depth Hno. destruct s as [|c [|c' s']]; try reflexivity.
  rewrite scanTag_unfold.
  destruct (Ascii.eqb_spec c "]") as [->|Hc]; cbn [andb].
  - destruct (Ascii.eqb_spec c' "]") as [->|Hc'].
    + exfalso. apply (Hno 0). now destruct s'.
    + change (Ascii.eqb "]" "[") with false. cbn [andb].
      rewrite IH; [reflexivity|simpl; lia|].
      intros i. apply (Hno (S i)).
  - destruct (Ascii.eqb c "[" && Ascii.eqb c' "[").
    + rewrite IH; [reflexivity|simpl; lia|].
      intros i. apply (Hno (S (S i))).
    + rewrite IH; [reflexivity|simpl; lia|].
      intros i. apply (Hno (S i)).
Qed.

Lemma parseTag_unclosed body pos :
  scanTag body 0 = None ->
  parseTag ("[[" ++ body) pos
  = Fail (mkParseError "Unclosed tag reference" (pos + 2 + String.length body)).
Proof.
  intros H. unfold parseTag. change ("[[" ++ body) with (String "[" (String "[" body)).
  rewrite (bindP_Done _ _ _ _ _ _ _ (expect_ok "[" _ pos)).
  rewrite (bindP_Done _ _ _ _ _ _ _ (expect_ok "[" _ (S pos))).
  rewrite H. unfold failAt. do 2 f_equal. lia.
Qed.

(** A text without [))] is read to its end by the loop of
    [parseBlockRef]. *)
Lemma scanBlockRef_unclosed s :
  (forall i, substring i 2 s <> "))") -> scanBlockRef s = (s, EmptyString).
Proof.
  induction s as [|c s IH]; intros Hno; [reflexivity|].
  cbn [scanBlockRef]. destruct s as [|c' s']; [reflexivity|].
  destruct (Ascii.eqb_spec c ")") as [->|Hc]; cbn [andb].
  - destruct (Ascii.eqb_spec c' ")") as [->|Hc'].
    + exfalso. apply (Hno 0). now destruct s'.
    + rewrite IH; [reflexivity|]. intros i. apply (Hno (S i)).
  - rewrite IH; [reflexivity|]. intros i. apply (Hno (S i)).
Qed.

Lemma parseBlockRef_unclosed uid pos :
  uid <> EmptyString -> scanBlockRef uid = (uid, EmptyString) ->
  parseBlockRef ("((" ++ uid) pos
  = Done (Str.trim uid) EmptyString (pos + 2 + String.length uid).
Proof.
  intros Hne H. unfold parseBlockRef.
  change ("((" ++ uid) with (String "(" (String "(" uid)).
  rewrite (bindP_Done _ _ _ _ _ _ _ (expect_ok "(" _ pos)).
  rewrite (bindP_Done _ _ _ _ _ _ _ (expect_ok "(" _ (S pos))).
  rewrite H. destruct uid as [|c uid]; [contradiction|]. cbn [isEmpty].
  f_equal. unfold advance. cbn [String.length]. lia.
Qed.

Lemma parseExpression_tag fuel body pos :
  parseExpression (S fuel) ("[[" ++ body) pos
  = (value <~ parseTag ;; pure (Tag value)) ("[[" ++ body) pos.
Proof.
  cbn [parseExpression]. unfold parseExpressionWith.
  change ("[[" ++ body) with (String "[" (String "[" body)).
  rewrite (bindP_Done _ _ _ _ _ _ _ (skipWhitespace_stay "[" _ pos eq_refl)).
  reflexivity.
Qed.

Lemma parseExpression_blockRef fuel body pos :
  parseExpression (S fuel) ("((" ++ body) pos
  = (uid <~ parseBlockRef ;; pure (BlockRef uid)) ("((" ++ body) pos.
Proof.
  cbn [parseExpression]. unfold parseExpressionWith.
  change ("((" ++ body) with (String "(" (String "(" body)).
  rewrite (bindP_Done _ _ _ _ _ _ _ (skipWhitespace_stay "(" _ pos eq_refl)).
  reflexivity.
Qed.

Lemma parseExpression_operator fuel s pos :
  parseExpression (S fuel) (String "{" s) pos
  = parseOperator (fun s' pos' => parseExpression fuel s' pos')
                  (fun acc s' pos' => parseChildren fuel acc s' pos')
                  (String "{" s) pos.
Proof.
  cbn [parseExpression]. unfold parseExpressionWith.
  rewrite (bindP_Done _ _ _ _ _ _ _ (skipWhitespace_stay "{" _ pos eq_refl)).
  reflexivity.
Qed.

Lemma parseExpressionText_unclosed_blockRef uid :
  uid <> EmptyString -> (forall i, substring i 2 uid <> "))") ->
  parseExpressionText ("((" ++ uid)
  = Done (mkParseResult None (BlockRef (Str.trim uid))) EmptyString
         (2 + String.length uid).
Proof.
  intros Hne Hno. change ("((" ++ uid) with (String "(" (String "(" uid)).
  rewrite parseExpressionText_bare by (reflexivity || discriminate).
  destruct (fuelFor_cons "(" (String "(" uid)) as [fuel ->].
  change (String "(" (String "(" uid)) with ("((" ++ uid).
  rewrite parseExpression_blockRef.
  rewrite (bindP_Done _ _ _ _ _ _ _
             (parseBlockRef_unclosed uid 0 Hne (scanBlockRef_unclosed _ Hno))).
  unfold pure. cbn [Str.trimStart String.length]. f_equal. lia.
Qed.

(** A name whose quote is not closed. *)
Lemma scanQuoted_unclosed s :
  (forall i, get i s <> Some Str.dquote) -> snd (scanQuoted s) = EmptyString.
Proof.
  by_length_induction s IH.
  intros Hno. destruct s as [|c s]; [reflexivity|].
  cbn [scanQuoted].
  destruct (Ascii.eqb_spec c Str.dquote) as [->|Hc].
  { exfalso. apply (Hno 0). reflexivity. }
  destruct s as [|c' s']; [reflexivity|].
  destruct (Ascii.eqb c Str.backslash && Ascii.eqb c' Str.dquote);
    unfold consFst; cbn [snd].
  - apply IH; [simpl; lia|]. intros i. apply (Hno (S (S i))).
  - apply IH; [simpl; lia|]. intros i. apply (Hno (S i)).
Qed.

Lemma parseExpressionText_unclosed_name name :
  (forall i, get i name <> Some Str.dquote) ->
  parseExpressionText (String Str.dquote name)
  = Fail (mkParseError "Unclosed quoted string" (1 + String.length name)).
Proof.
  intros Hno. unfold parseExpressionText, parseNamedExpression.
  unfold bindP at 1 2. rewrite skipWhitespace_stay by reflexivity.
  unfold bindP at 1, parseName. change (startsWith _ (String Str.dquote name)) with true.
  cbv iota. unfold bindP at 1, parseQuotedString.
  rewrite (bindP_Done _ _ _ _ _ _ _ (expect_ok Str.dquote name 0)).
  pose proof (scanQuoted_unclosed name Hno) as H.
  destruct (scanQuoted name) as [value rest]. cbn [snd] in H. subst rest.
  unfold failAt, advance. cbn [String.length]. do 2 f_equal. lia.
Qed.

(** ** Operator names *)

Lemma allLetters_cons c s :
  allLetters (String c s) <-> isLetter c = true /\ allLetters s.
Proof.
  unfold allLetters; simpl. split.
  - intros H; inversion H; auto.
  - intros [H1 H2]; constructor; auto.
Qed.

Lemma lowerChar_letter c : isLetter (Str.lowerChar c) = isLetter c.
Proof. destruct c as [[] [] [] [] [] [] [] []]; vm_compute; reflexivity. Qed.

Lemma letter_not_space c : isLetter c = true -> Str.isWhiteSpace c = false.
Proof.
  destruct c as [[] [] [] [] [] [] [] []]; vm_compute; intros H;
    first [reflexivity | discriminate H].
Qed.

Lemma allLetters_toLowerCase s : allLetters (Str.toLowerCase s) <-> allLetters s.
Proof.
  induction s as [|c s IH]; [reflexivity|]. cbn [Str.toLowerCase].
  rewrite !allLetters_cons, lowerChar_letter, IH. reflexivity.
Qed.

Lemma toLowerCase_app a b :
  Str.toLowerCase (a ++ b) = Str.toLowerCase a ++ Str.toLowerCase b.
Proof. induction a as [|c a IH]; simpl; [reflexivity|]. now rewrite IH. Qed.

Lemma dropPrefix_letters name : forall w rest r,
  allLetters name ->
  dropPrefix w (name ++ String ":" rest) = Some r ->
  firstNonLetter w = None \/ firstNonLetter w = Some ":"%char.
Proof.
  induction name as [|n name IH]; intros w rest r Hl; simpl.
  - destruct w as [|a w]; simpl; [auto|].
    destruct (Ascii.eqb_spec a ":"); [|discriminate]. subst. auto.
  - destruct w as [|a w]; simpl; [auto|].
    destruct (Ascii.eqb_spec a n); [|discriminate]. subst a.
    apply allLetters_cons in Hl as [Hn Hrest]. rewrite Hn. eapply IH; eauto.
Qed.

(** A name made of letters and followed by a colon is none of the
    multi-word operators. *)
Lemma matchMultiWord_letters name rest :
  allLetters name ->
  matchMultiWord knownMultiWord (Str.toLowerCase (name ++ String ":" rest)) = None.
Proof.
  intros Hl. rewrite toLowerCase_app. cbn [Str.toLowerCase].
  change (Str.lowerChar ":") with ":"%char.
  apply allLetters_toLowerCase in Hl.
  set (n := Str.toLowerCase name) in *. set (r := Str.toLowerCase rest).
  unfold knownMultiWord. cbn [matchMultiWord]. unfold startsWith.
  destruct (dropPrefix "created by" _) eqn:E1;
    [apply (dropPrefix_letters _ _ _ _ Hl) in E1; destruct E1 as [E|E]; discriminate E|].
  destruct (dropPrefix "edited by" _) eqn:E2;
    [apply (dropPrefix_letters _ _ _ _ Hl) in E2; destruct E2 as [E|E]; discriminate E|].
  destruct (dropPrefix "daily notes" _) eqn:E3;
    [apply (dropPrefix_letters _ _ _ _ Hl) in E3; destruct E3 as [E|E]; discriminate E|].
  reflexivity.
Qed.

Lemma span_letters name rest :
  allLetters name ->
  span isLetter (name ++ String ":" rest) = (name, String ":" rest).
Proof.
  induction name as [|n name IH]; intros Hl; simpl; [reflexivity|].
  apply allLetters_cons in Hl as [Hn Hrest]. rewrite Hn, IH; auto.
Qed.

Lemma parseOperatorName_letters name rest pos :
  allLetters name ->
  parseOperatorName (name ++ String ":" rest) pos
  = Done name (String ":" rest) (pos + String.length name).
Proof.
  intros Hl. unfold parseOperatorName, parseIdentifier.
  rewrite (matchMultiWord_letters name rest Hl), (span_letters name rest Hl).
  f_equal. unfold advance. rewrite length_append. lia.
Qed.

Lemma skipWhitespace_letters name rest pos :
  allLetters name ->
  skipWhitespace (name ++ String ":" rest) pos
  = Done tt (name ++ String ":" rest) pos.
Proof.
  intros Hl. destruct name as [|n name]; cbn [append].
  - now apply skipWhitespace_stay.
  - apply allLetters_cons in Hl as [Hn _].
    now apply skipWhitespace_stay, letter_not_space.
Qed.

(** The start of every operator whose name is made of letters: the
    brace, the name and the colon are read, and the clause starts after
    the white space that follows the colon. *)
Lemma parseOperator_letters expression children name rest pos :
  allLetters name ->
  parseOperator expression children ("{" ++ name ++ ":" ++ rest) pos
  = (node <~ parseClause expression children name ;;
     _ <~ skipWhitespace ;;
     _ <~ expect "}" ;;
     pure node)
      (Str.trimStart rest)
      (pos + 2 + String.length name
         + (String.length rest - String.length (Str.trimStart rest))).
Proof.
  intros Hl. unfold parseOperator.
  change ("{" ++ name ++ ":" ++ rest) with (String "{" (name ++ String ":" rest)).
  rewrite (bindP_Done _ _ _ _ _ _ _ (expect_ok "{" _ pos)).
  rewrite (bindP_Done _ _ _ _ _ _ _ (skipWhitespace_letters name rest (S pos) Hl)).
  rewrite (bindP_Done _ _ _ _ _ _ _ (parseOperatorName_letters name rest (S pos) Hl)).
  rewrite (bindP_Done _ _ _ _ _ _ _ (skipWhitespace_stay ":" rest _ eq_refl)).
  rewrite (bindP_Done _ _ _ _ _ _ _ (expect_ok ":" rest _)).
  rewrite (bindP_Done _ _ _ _ _ _ _ (skipWhitespace_trimStart rest _)).
  f_equal. lia.
Qed.

Lemma parseClause_unknown expression children operator :
  ~ In (Str.toLowerCase operator) operatorNames ->
  parseClause expression children operator
  = fun s pos => failAt ("Unknown operator: " ++ operator) pos.
Proof.
  intros Hn. unfold parseClause.
  repeat match goal with
         | |- (if (?a =? ?b) then _ else _) = _ =>
             destruct (String.eqb_spec a b) as [E|_];
             [exfalso; apply Hn; rewrite E; simpl; tauto|]
         end.
  reflexivity.
Qed.

(** ** An and or an or without child *)

Lemma parseChildren_none fuel tail pos :
  match tail with
  | EmptyString => True
  | String c _ => c = "}"%char
  end ->
  parseChildren (S fuel) [] tail pos = Done [] tail pos.
Proof.
  intros Ht. cbn [parseChildren]. unfold parseChildrenWith.
  destruct tail as [|c t]; [reflexivity|]. subst c. reflexivity.
Qed.

Lemma toLowerCase_and_or op :
  In (Str.toLowerCase op) ["and"; "or"] -> allLetters op.
Proof.
  intros H. apply allLetters_toLowerCase.
  destruct H as [<-|[<-|[]]]; repeat constructor.
Qed.

(** ** A brace that is not closed *)

Lemma Suffix_get c r s :
  Suffix (String c r) s ->
  get (String.length s - String.length (String c r)) s = Some c.
Proof.
  induction 1 as [|d s Hs IH].
  - now rewrite Nat.sub_diag.
  - pose proof (Suffix_length _ _ Hs) as Hl. cbn [String.length] in *.
    replace (S (String.length s) - S (String.length r))
      with (S (String.length s - S (String.length r))) by lia.
    exact IH.
Qed.

Lemma noCloseBrace_suffix r s : noCloseBrace s -> ~ Suffix (String "}" r) s.
Proof. intros H Hs. apply Suffix_get in Hs. now apply H in Hs. Qed.

Lemma Closes_bind_r {A B} (p : Parser A) (k : A -> Parser B) :
  Sound p -> (forall a, Closes (k a)) -> Closes (bindP p k).
Proof.
  intros Hp Hk s pos b rest pos'. unfold bindP.
  destruct (p s pos) as [a mid pos1|e|] eqn:E1; try discriminate.
  intros E2. apply (Sound_done _ _ _ _ _ _ Hp) in E1 as [Hs _].
  apply Hk in E2 as [r Hr]. exists r. eapply Suffix_trans; eauto.
Qed.

Lemma Closes_expect_brace {A} (k : unit -> Parser A) :
  Closes (bindP (expect "}") k).
Proof.
  intros [|c s] pos a rest pos'; unfold bindP, expect; [discriminate|].
  destruct (Ascii.eqb_spec c "}"); [|discriminate].
  subst. intros _. exists s. constructor.
Qed.

(** An operator is read only from a text that holds a closing brace. *)
Lemma Closes_parseOperator expression children :
  Sound expression -> (forall acc, Sound (children acc)) ->
  Closes (parseOperator expression children).
Proof.
  intros He Hc. unfold parseOperator.
  do 8 (apply Closes_bind_r;
          [first [ apply Sound_expect | apply Sound_skipWhitespace
                 | apply Sound_parseOperatorName
                 | now apply Sound_parseClause ]|intros ?]).
  apply Closes_expect_brace.
Qed.

Lemma parseExpressionText_unclosed_brace s :
  noCloseBrace s ->
  exists e, parseExpressionText (String "{" s) = Fail e
            /\ pe_position e <= String.length (String "{" s).
Proof.
  intros Hno. pose proof (parseExpressionText_fuel (String "{" s)) as Hf.
  destruct (parseExpressionText (String "{" s)) as [result rest pos|e|] eqn:E;
    [|exists e; split; [reflexivity|now apply parseExpressionText_position]
     |congruence].
  exfalso. rewrite parseExpressionText_bare in E by (reflexivity || discriminate).
  destruct (fuelFor_cons "{" s) as [fuel Ef]. rewrite Ef in E.
  destruct (parseExpression (S (S fuel)) (String "{" s) 0)
    as [query r p|e|] eqn:Ee; try discriminate.
  rewrite parseExpression_operator in Ee.
  destruct (Sound_parseExpression (S fuel)) as [Se Sc].
  apply (Closes_parseOperator _ _ Se Sc) in Ee as [r' Hr].
  assert (Hs : Suffix (String "}" r') s).
  { inversion Hr; subst; assumption. }
  exact (noCloseBrace_suffix _ _ Hno Hs).
Qed.

(** ** Content after the expression *)

Lemma parseExpressionText_end expression result rest pos :
  parseNamedExpression (fuelFor expression) expression 0 = Done result rest pos ->
  parseExpressionText expression
  = match Str.trimStart rest with
    | EmptyString => Done result EmptyString (String.length expression)
    | String c t =>
        Fail (mkParseError
                ("Unexpected content after query: " ++ quoted (String c t))
                (String.length expression - String.length (String c t)))
    end.
Proof.
  intros H. unfold parseExpressionText.
  rewrite (bindP_Done _ _ _ _ _ _ _ H).
  rewrite (bindP_Done _ _ _ _ _ _ _ (skipWhitespace_trimStart rest pos)).
  apply (Sound_done _ _ _ _ _ _ (Sound_parseNamedExpression _)) in H as [Hs ->].
  apply Suffix_length in Hs. pose proof (trimStart_length rest) as Ht.
  unfold advance.
  destruct (Str.trimStart rest) as [|c t]; unfold failAt.
  - f_equal. cbn [String.length] in *. lia.
  - do 2 f_equal. cbn [String.length] in *. lia.
Qed.

(** ** More fuel changes nothing *)

Lemma Extends_refl {A} (p : Parser A) : Extends p p.
Proof. intros s pos _. reflexivity. Qed.

Lemma Extends_bind {A B} (p p' : Parser A) (k k' : A -> Parser B) :
  Extends p p' -> (forall a, Extends (k a) (k' a)) ->
  Extends (bindP p k) (bindP p' k').
Proof.
  intros Hp Hk s pos. unfold bindP. specialize (Hp s pos).
  destruct (p s pos) as [a mid pos1|e|] eqn:E.
  - rewrite Hp by discriminate. apply Hk.
  - rewrite Hp by discriminate. reflexivity.
  - intros H. contradiction H. reflexivity.
Qed.

Ltac extends_steps :=
  repeat first
    [ apply Extends_refl
    | assumption
    | apply Extends_bind; [|intros ?] ].

Section ExtendsOperator.
Variables expression expression' : Parser QueryNode.
Variables children children' : list QueryNode -> Parser (list QueryNode).
Hypothesis Extends_expression : Extends expression expression'.
Hypothesis Extends_children : forall acc, Extends (children acc) (children' acc).

Lemma Extends_parseClause operator :
  Extends (parseClause expression children operator)
          (parseClause expression' children' operator).
Proof.
  unfold parseClause.
  repeat match goal with
         | |- Extends (if ?b then _ else _) _ => destruct b
         end;
    unfold parseAndOr, parseNot; extends_steps.
  - apply Extends_children.
  - apply Extends_children.
Qed.

Lemma Extends_parseExpressionWith :
  Extends (parseExpressionWith expression children)
          (parseExpressionWith expression' children').
Proof.
  unfold parseExpressionWith. apply Extends_bind; [apply Extends_refl|intros _].
  intros s pos.
  destruct (startsWith "{" s); [|intros _; reflexivity].
  revert s pos. unfold parseOperator. extends_steps. apply Extends_parseClause.
Qed.

Lemma Extends_parseChildrenWith acc :
  Extends (parseChildrenWith expression children acc)
          (parseChildrenWith expression' children' acc).
Proof.
  intros s pos. unfold parseChildrenWith.
  destruct s as [|c rest]; [reflexivity|].
  destruct (Ascii.eqb c "}"); [reflexivity|].
  revert pos. generalize (String c rest).
  change (Extends (node <~ expression ;; _ <~ skipWhitespace ;; children (node :: acc))
                  (node <~ expression' ;; _ <~ skipWhitespace ;; children' (node :: acc))).
  extends_steps. apply Extends_children.
Qed.
End ExtendsOperator.

Lemma Extends_parseExpression fuel :
  Extends (parseExpression fuel) (parseExpression (S fuel))
  /\ forall acc, Extends (parseChildren fuel acc) (parseChildren (S fuel) acc).
Proof.
  induction fuel as [|fuel [IHe IHc]].
  - split; [|intros acc]; intros s pos H; contradiction H; reflexivity.
  - split.
    + apply (Extends_parseExpressionWith _ _ _ _ IHe IHc).
    + intros acc. apply (Extends_parseChildrenWith _ _ _ _ IHe IHc).
Qed.

(** An outcome reached with some fuel is reached with any more. *)
Lemma parseExpression_more fuel fuel' s pos :
  fuel <= fuel' -> parseExpression fuel s pos <> NoFuel ->
  parseExpression fuel' s pos = parseExpression fuel s pos.
Proof.
  induction 1 as [|fuel' _ IH]; intros H; [reflexivity|].
  destruct (Extends_parseExpression fuel') as [He _].
  rewrite He; rewrite IH; auto.
Qed.

Lemma parseExpression_fail_more fuel fuel' s pos e :
  fuel <= fuel' -> parseExpression fuel s pos = Fail e ->
  parseExpression fuel' s pos = Fail e.
Proof.
  intros Hle H. rewrite (parseExpression_more fuel fuel') by (rewrite ?H; auto; discriminate).
  exact H.
Qed.

Lemma parseExpression_done_more fuel fuel' s pos node rest pos' :
  fuel <= fuel' -> parseExpression fuel s pos = Done node rest pos' ->
  parseExpression fuel' s pos = Done node rest pos'.
Proof.
  intros Hle H. rewrite (parseExpression_more fuel fuel') by (rewrite ?H; auto; discriminate).
  exact H.
Qed.

(** ** Expressions nested in operators *)

Lemma concat_empty_cons x xs :
  String.concat EmptyString (x :: xs) = x ++ String.concat EmptyString xs.
Proof.
  cbn [String.concat]. destruct xs; [now rewrite append_nil_r|reflexivity].
Qed.

Lemma siblingsText_cons child gap more :
  siblingsText ((child, gap) :: more) = child ++ gap ++ siblingsText more.
Proof.
  unfold siblingsText. cbn [map fst snd]. now rewrite concat_empty_cons, append_assoc.
Qed.

Lemma contextText_cons frame frames :
  contextText (frame :: frames) = frameText frame ++ contextText frames.
Proof. unfold contextText. cbn [map]. apply concat_empty_cons. Qed.

Lemma startsExpression_app a b : startsExpression a -> startsExpression (a ++ b).
Proof. destruct a as [|c a]; [contradiction|]. exact (fun H => H). Qed.

Lemma startsExpression_stay v pos :
  startsExpression v -> skipWhitespace v pos = Done tt v pos.
Proof.
  destruct v as [|c v]; [contradiction|]. intros (Hw & _).
  now apply skipWhitespace_stay.
Qed.

Lemma startsExpression_gap gap v :
  allWhiteSpace gap -> startsExpression v -> Str.trimStart (gap ++ v) = v.
Proof.
  intros Hg Hv. apply trimStart_app; [assumption|].
  destruct v as [|c v]; [exact I|]. now destruct Hv.
Qed.

Lemma startsExpression_frame frame rest : startsExpression (frameText frame ++ rest).
Proof.
  destruct frame; cbn [frameText append]; repeat split; discriminate.
Qed.

Lemma startsExpression_frameText frame : startsExpression (frameText frame).
Proof.
  destruct frame; cbn [frameText append]; repeat split; discriminate.
Qed.

Lemma startsExpression_siblings siblings v :
  Forall (fun p => (exists node, Complete (fst p) node)
                   /\ allWhiteSpace (snd p)) siblings ->
  startsExpression v ->
  startsExpression (siblingsText siblings ++ v).
Proof.
  intros Hs Hv. destruct siblings as [|[child gap] more]; [exact Hv|].
  inversion Hs as [|? ? [[node [Hc _]] _] _]; subst.
  rewrite siblingsText_cons, append_assoc. now apply startsExpression_app.
Qed.

(** One turn of the loop of [parseAndOr] on a text from which an
    expression is read. *)
Lemma parseChildren_turn fuel acc v pos :
  startsExpression v ->
  parseChildren (S fuel) acc v pos
  = (node <~ (fun s' pos' => parseExpression fuel s' pos') ;;
     _ <~ skipWhitespace ;;
     (fun s' pos' => parseChildren fuel (node :: acc) s' pos')) v pos.
Proof.
  destruct v as [|c v]; [contradiction|]. intros (_ & Hb & _).
  cbn [parseChildren]. unfold parseChildrenWith.
  destruct (Ascii.eqb_spec c "}"); [contradiction|reflexivity].
Qed.

(** The loop of [parseAndOr] over complete children fails as the
    expression after them does. *)
Lemma parseChildren_fail v e : forall siblings,
  Forall (fun p => (exists node, Complete (fst p) node)
                   /\ allWhiteSpace (snd p)) siblings ->
  startsExpression v ->
  forall pos,
    (exists fuel,
       parseExpression fuel v (pos + String.length (siblingsText siblings))
       = Fail e) ->
    exists fuel, forall fuel', fuel <= fuel' -> forall acc,
      parseChildren fuel' acc (siblingsText siblings ++ v) pos = Fail e.
Proof.
  induction siblings as [|[child gap] more IH]; intros Hs Hv pos [fv Hfv].
  - cbn in Hfv. rewrite Nat.add_0_r in Hfv. exists (S fv).
    intros [|fuel'] Hle acc; [lia|]. cbn [siblingsText map String.concat append].
    rewrite parseChildren_turn by assumption.
    apply bindP_Fail. apply (parseExpression_fail_more fv); [lia|assumption].
  - inversion Hs as [|? ? [[node [Hc [fc Hfc]]] Hgap] Hmore]; subst.
    cbn [fst snd] in *.
    rewrite siblingsText_cons, !length_append in Hfv.
    pose proof (startsExpression_siblings more v Hmore Hv) as Hnext.
    destruct (IH Hmore Hv (pos + String.length child + String.length gap))
      as [f1 Hf1].
    { exists fv. rewrite <- Hfv. f_equal. lia. }
    exists (S (Nat.max fc f1)).
    intros [|fuel'] Hle acc; [lia|].
    rewrite siblingsText_cons, !append_assoc.
    rewrite parseChildren_turn by now apply startsExpression_app.
    rewrite (bindP_Done _ _ _ _ _ _ _
               (parseExpression_done_more fc fuel' _ _ _ _ _ ltac:(lia)
                  (Hfc (gap ++ siblingsText more ++ v) pos))).
    rewrite (bindP_Done _ _ _ _ _ _ _ (skipWhitespace_trimStart _ _)).
    rewrite (startsExpression_gap gap _ Hgap Hnext), length_append.
    replace (pos + String.length child
               + (String.length gap + String.length (siblingsText more ++ v)
                  - String.length (siblingsText more ++ v)))
      with (pos + String.length child + String.length gap) by lia.
    apply Hf1. lia.
Qed.

(** The loop of [parseAndOr] over complete children, up to the end of
    the text or to a closing brace, returns their nodes. *)
Lemma parseChildren_done : forall siblings,
  Forall (fun p => (exists node, Complete (fst p) node)
                   /\ allWhiteSpace (snd p)) siblings ->
  exists nodes fuel,
    List.length nodes = List.length siblings
    /\ forall tail,
         match tail with
         | EmptyString => True
         | String c _ => c = "}"%char
         end ->
         forall fuel', fuel <= fuel' -> forall acc pos,
           parseChildren fuel' acc (siblingsText siblings ++ tail) pos
           = Done (rev acc ++ nodes)%list tail
                  (pos + String.length (siblingsText siblings)).
Proof.
  induction siblings as [|[child gap] more IH]; intros Hs.
  - exists [], 1. split; [reflexivity|].
    intros tail Ht [|fuel'] Hle acc pos; [lia|].
    cbn [siblingsText map String.concat append String.length].
    cbn [parseChildren]. unfold parseChildrenWith.
    rewrite app_nil_r, Nat.add_0_r.
    destruct tail as [|c t]; [reflexivity|]. subst c. reflexivity.
  - inversion Hs as [|? ? [[node [Hc [fc Hfc]]] Hgap] Hmore]; subst.
    cbn [fst snd] in *.
    destruct (IH Hmore) as (nodes & f1 & Hlen & Hf1).
    exists (node :: nodes), (S (Nat.max fc f1)).
    split; [cbn; now rewrite Hlen|].
    intros tail Ht [|fuel'] Hle acc pos; [lia|].
    assert (Hrest : match siblingsText more ++ tail with
                    | EmptyString => True
                    | String c _ => Str.isWhiteSpace c = false
                    end).
    { destruct more as [|[c2 g2] more'].
      - cbn. destruct tail as [|c t]; [exact I|]. subst c. reflexivity.
      - inversion Hmore as [|? ? [[n2 [Hc2 _]] _] _]; subst. cbn [fst] in Hc2.
        rewrite siblingsText_cons. destruct c2 as [|x c2]; [contradiction|].
        now destruct Hc2. }
    rewrite siblingsText_cons, !append_assoc.
    rewrite parseChildren_turn by now apply startsExpression_app.
    rewrite (bindP_Done _ _ _ _ _ _ _
               (parseExpression_done_more fc fuel' _ _ _ _ _ ltac:(lia)
                  (Hfc (gap ++ siblingsText more ++ tail) pos))).
    rewrite (bindP_Done _ _ _ _ _ _ _ (skipWhitespace_trimStart _ _)).
    rewrite (trimStart_app gap _ Hgap Hrest), !length_append.
    rewrite (Hf1 tail Ht) by lia. cbn [rev]. rewrite <- app_assoc. cbn [app].
    f_equal. lia.
Qed.

Lemma parseClause_and_or expression children op :
  In (Str.toLowerCase op) ["and"; "or"] ->
  parseClause expression children op
  = parseAndOr children (Str.toLowerCase op).
Proof.
  intros H. unfold parseClause. destruct H as [<-|[<-|[]]]; reflexivity.
Qed.

Lemma parseClause_not expression children op :
  Str.toLowerCase op = "not" ->
  parseClause expression children op = parseNot expression.
Proof. intros H. unfold parseClause. rewrite H. reflexivity. Qed.

Lemma toLowerCase_not op : Str.toLowerCase op = "not" -> allLetters op.
Proof.
  intros H. apply allLetters_toLowerCase. rewrite H. repeat constructor.
Qed.

Lemma operator_app op body v :
  ("{" ++ op ++ ":" ++ body) ++ v = "{" ++ op ++ ":" ++ (body ++ v).
Proof. cbn [append]. now rewrite append_assoc. Qed.

(** An expression that fails inside an operator makes the operator
    fail with the same error. *)
Lemma parseExpression_frame frame v e pos :
  validFrame frame -> startsExpression v ->
  (exists fuel,
     parseExpression fuel v (pos + String.length (frameText frame)) = Fail e) ->
  exists fuel, parseExpression fuel (frameText frame ++ v) pos = Fail e.
Proof.
  intros Hf Hv Hfail. destruct frame as [op ws siblings|op ws];
    cbn [frameText validFrame] in *.
  - destruct Hf as (Hop & Hws & Hs).
    pose proof (toLowerCase_and_or op Hop) as Hl.
    pose proof (startsExpression_siblings siblings v Hs Hv) as Hnext.
    destruct (parseChildren_fail v e siblings Hs Hv
                (pos + 2 + String.length op + String.length ws)) as [f1 Hf1].
    { destruct Hfail as [fv Hfv]. exists fv. rewrite <- Hfv. f_equal.
      cbn [append String.length]. rewrite !length_append.
      cbn [String.length]. rewrite length_append. lia. }
    exists (S f1).
    rewrite operator_app, append_assoc.
    change ("{" ++ op ++ ":" ++ (ws ++ siblingsText siblings ++ v))
      with (String "{" (op ++ String ":" (ws ++ siblingsText siblings ++ v))).
    rewrite parseExpression_operator.
    change (String "{" (op ++ String ":" (ws ++ siblingsText siblings ++ v)))
      with ("{" ++ op ++ ":" ++ (ws ++ siblingsText siblings ++ v)).
    rewrite parseOperator_letters by assumption.
    rewrite (startsExpression_gap ws _ Hws Hnext), length_append.
    rewrite parseClause_and_or by assumption.
    apply bindP_Fail. unfold parseAndOr.
    rewrite (bindP_Done _ _ _ _ _ _ _ (startsExpression_stay _ _ Hnext)).
    apply bindP_Fail.
    replace (pos + 2 + String.length op
               + (String.length ws + String.length (siblingsText siblings ++ v)
                  - String.length (siblingsText siblings ++ v)))
      with (pos + 2 + String.length op + String.length ws) by lia.
    apply Hf1. lia.
  - destruct Hf as (Hop & Hws).
    pose proof (toLowerCase_not op Hop) as Hl.
    destruct Hfail as [fv Hfv]. exists (S fv).
    rewrite operator_app.
    change ("{" ++ op ++ ":" ++ (ws ++ v))
      with (String "{" (op ++ String ":" (ws ++ v))).
    rewrite parseExpression_operator.
    change (String "{" (op ++ String ":" (ws ++ v)))
      with ("{" ++ op ++ ":" ++ (ws ++ v)).
    rewrite parseOperator_letters by assumption.
    rewrite (startsExpression_gap ws _ Hws Hv), length_append.
    rewrite parseClause_not by assumption.
    apply bindP_Fail. unfold parseNot.
    rewrite (bindP_Done _ _ _ _ _ _ _ (startsExpression_stay _ _ Hv)).
    apply bindP_Fail. rewrite <- Hfv. f_equal.
    cbn [append String.length]. rewrite !length_append. cbn [String.length]. lia.
Qed.

Lemma parseExpression_context v e : forall frames,
  Forall validFrame frames -> startsExpression v ->
  forall pos,
    (exists fuel,
       parseExpression fuel v (pos + String.length (contextText frames)) = Fail e) ->
    exists fuel, parseExpression fuel (contextText frames ++ v) pos = Fail e.
Proof.
  induction frames as [|frame frames IH]; intros Hf Hv pos Hfail.
  - cbn in *. destruct Hfail as [fv Hfv]. rewrite Nat.add_0_r in Hfv. eauto.
  - inversion Hf as [|? ? Hframe Hframes]; subst.
    rewrite contextText_cons, append_assoc.
    apply parseExpression_frame; [assumption| |].
    + destruct frames as [|f2 frames']; [exact Hv|].
      rewrite contextText_cons, append_assoc. apply startsExpression_frame.
    + apply IH; [assumption|assumption|].
      destruct Hfail as [fv Hfv]. exists fv. rewrite <- Hfv. f_equal.
      rewrite contextText_cons, length_append. lia.
Qed.

(** An expression that fails where the parser reads it, at any depth
    of and, or and not operators, makes the whole text fail with the
    same error. *)
Lemma parseExpressionText_context frames v e :
  Forall validFrame frames -> startsExpression v ->
  (exists fuel,
     parseExpression fuel v (String.length (contextText frames)) = Fail e) ->
  parseExpressionText (contextText frames ++ v) = Fail e.
Proof.
  intros Hf Hv Hfail.
  destruct (parseExpression_context v e frames Hf Hv 0 Hfail) as [f0 Hf0].
  assert (Hs : startsExpression (contextText frames ++ v)).
  { destruct frames as [|f2 frames']; [exact Hv|].
    rewrite contextText_cons, append_assoc. apply startsExpression_frame. }
  destruct (contextText frames ++ v) as [|c s] eqn:Et; [contradiction|].
  destruct Hs as (Hw & _ & Hq).
  rewrite parseExpressionText_bare by assumption.
  destruct (Fueled_parseExpression (fuelFor (String c s))) as [He _].
  assert (Hfuel : parseExpression (fuelFor (String c s)) (String c s) 0 <> NoFuel).
  { apply (He (S (String.length (String c s)))); [unfold fuelFor|]; lia. }
  pose proof (parseExpression_more (fuelFor (String c s))
                (Nat.max f0 (fuelFor (String c s))) (String c s) 0
                ltac:(lia) Hfuel) as H1.
  rewrite (parseExpression_fail_more f0 _ _ _ _ (Nat.le_max_l _ _) Hf0) in H1.
  now rewrite <- H1.
Qed.

(** ** The violations, where the parser reads an expression *)

Lemma parseExpression_unclosed_tag fuel body pos :
  (forall i, substring i 2 body <> "]]") ->
  parseExpression (S fuel) ("[[" ++ body) pos
  = Fail (mkParseError "Unclosed tag reference" (pos + 2 + String.length body)).
Proof.
  intros Hno. rewrite parseExpression_tag.
  apply bindP_Fail, parseTag_unclosed, scanTag_unclosed, Hno.
Qed.

Lemma parseExpression_unknown_operator fuel name rest pos :
  allLetters name -> ~ In (Str.toLowerCase name) operatorNames ->
  parseExpression (S fuel) ("{" ++ name ++ ":" ++ rest) pos
  = Fail (mkParseError ("Unknown operator: " ++ name)
            (pos + 2 + String.length name
               + (String.length rest - String.length (Str.trimStart rest)))).
Proof.
  intros Hl Hn.
  change ("{" ++ name ++ ":" ++ rest) with (String "{" (name ++ String ":" rest)).
  rewrite parseExpression_operator.
  change (String "{" (name ++ String ":" rest)) with ("{" ++ name ++ ":" ++ rest).
  rewrite parseOperator_letters by assumption.
  rewrite parseClause_unknown by assumption. reflexivity.
Qed.

Lemma parseExpression_no_child fuel op ws tail pos :
  In (Str.toLowerCase op) ["and"; "or"] ->
  allWhiteSpace ws ->
  tail = EmptyString \/ (exists t, tail = String "}" t) ->
  parseExpression (S (S fuel)) ("{" ++ op ++ ":" ++ ws ++ tail) pos
  = Fail (mkParseError
            (Str.toLowerCase op ++ " operator requires at least one child")
            (pos + 2 + String.length op + String.length ws)).
Proof.
  intros Hop Hws Ht. pose proof (toLowerCase_and_or op Hop) as Hl.
  assert (Ht' : match tail with
                | EmptyString => True
                | String c _ => c = "}"%char
                end).
  { destruct Ht as [->|[t ->]]; [exact I|reflexivity]. }
  change ("{" ++ op ++ ":" ++ ws ++ tail)
    with (String "{" (op ++ String ":" (ws ++ tail))).
  rewrite parseExpression_operator.
  change (String "{" (op ++ String ":" (ws ++ tail)))
    with ("{" ++ op ++ ":" ++ (ws ++ tail)).
  rewrite parseOperator_letters by assumption.
  assert (Hts : Str.trimStart (ws ++ tail) = tail).
  { apply trimStart_app; [assumption|].
    destruct tail as [|c t]; [exact I|]. subst c. reflexivity. }
  rewrite Hts, length_append.
  assert (Hstay : forall p, skipWhitespace tail p = Done tt tail p).
  { intros p. destruct tail as [|c t]; [reflexivity|]. subst c. reflexivity. }
  rewrite parseClause_and_or by assumption.
  apply bindP_Fail. unfold parseAndOr.
  rewrite (bindP_Done _ _ _ _ _ _ _ (Hstay _)).
  rewrite (bindP_Done _ _ _ _ _ _ _ (parseChildren_none fuel tail _ Ht')).
  unfold failAt. do 2 f_equal. lia.
Qed.

(** An and or an or whose children are complete and end the text: the
    closing brace is missed at the end of the text. *)
Lemma parseExpression_open_and_or op ws siblings pos :
  validFrame (AndOrFrame op ws siblings) -> siblings <> [] ->
  let text := frameText (AndOrFrame op ws siblings) in
  exists fuel,
    parseExpression fuel text pos
    = Fail (mkParseError
              ("Expected '}' at position "
                 ++ Str.ofNat (pos + String.length text) ++ ", found 'EOF'")
              (pos + String.length text)).
Proof.
  intros (Hop & Hws & Hs) Hne text. subst text. cbn [frameText].
  pose proof (toLowerCase_and_or op Hop) as Hl.
  destruct (parseChildren_done siblings Hs) as (nodes & f1 & Hlen & Hf1).
  specialize (Hf1 EmptyString I). setoid_rewrite append_nil_r in Hf1.
  assert (Hfirst : startsExpression (siblingsText siblings)).
  { destruct siblings as [|[child gap] more]; [contradiction|].
    inversion Hs as [|? ? [[node [Hc _]] _] _]; subst.
    rewrite siblingsText_cons. now apply startsExpression_app. }
  exists (S f1).
  change ("{" ++ op ++ ":" ++ ws ++ siblingsText siblings)
    with (String "{" (op ++ String ":" (ws ++ siblingsText siblings))).
  rewrite parseExpression_operator.
  change (String "{" (op ++ String ":" (ws ++ siblingsText siblings)))
    with ("{" ++ op ++ ":" ++ (ws ++ siblingsText siblings)).
  rewrite parseOperator_letters by assumption.
  rewrite (startsExpression_gap ws _ Hws Hfirst), length_append.
  rewrite parseClause_and_or by assumption.
  set (p := pos + 2 + String.length op
            + (String.length ws + String.length (siblingsText siblings)
               - String.length (siblingsText siblings))).
  assert (Hand : parseAndOr (fun acc s' pos' => parseChildren f1 acc s' pos')
                   (Str.toLowerCase op) (siblingsText siblings) p
                 = Done (andOrNode (Str.toLowerCase op) nodes) EmptyString
                        (p + String.length (siblingsText siblings))).
  { unfold parseAndOr.
    rewrite (bindP_Done _ _ _ _ _ _ _ (startsExpression_stay _ _ Hfirst)).
    rewrite (bindP_Done _ _ _ _ _ _ _ (Hf1 f1 (le_n _) [] p)).
    cbn [rev app]. destruct nodes as [|n nodes]; [|reflexivity].
    destruct siblings; [contradiction|discriminate Hlen]. }
  rewrite (bindP_Done _ _ _ _ _ _ _ Hand).
  unfold bindP, skipWhitespace, expect, found, failAt.
  cbn [String.length append]. rewrite !length_append. cbn [String.length].
  rewrite length_append.
  replace (p + String.length (siblingsText siblings))
    with (pos + S (String.length op
                   + S (String.length ws + String.length (siblingsText siblings))))
    by (subst p; lia).
  reflexivity.
Qed.

(** ** Complete expressions *)

Lemma scanTag_plain value rest :
  (forall i, get i value <> Some "["%char /\ get i value <> Some "]"%char) ->
  scanTag (value ++ "]]" ++ rest) 0 = Some (value, rest).
Proof.
  change ("]]" ++ rest) with (String "]" (String "]" rest)).
  induction value as [|c value IH]; intros Hno; [reflexivity|].
  destruct (Hno 0) as [H1 H2]. cbn [get] in H1, H2.
  assert (IH' := IH (fun i => Hno (S i))). clear IH.
  destruct value as [|d value]; cbn [append] in *; rewrite scanTag_unfold;
    destruct (Ascii.eqb_spec c "]") as [->|_]; try congruence;
    destruct (Ascii.eqb_spec c "[") as [->|_]; try congruence; cbn [andb].
  - reflexivity.
  - rewrite IH'. reflexivity.
Qed.

Lemma parseTag_plain value rest pos :
  (forall i, get i value <> Some "["%char /\ get i value <> Some "]"%char) ->
  parseTag ("[[" ++ value ++ "]]" ++ rest) pos
  = Done (Str.trim value) rest (pos + String.length ("[[" ++ value ++ "]]")).
Proof.
  intros Hno. unfold parseTag.
  change ("[[" ++ value ++ "]]" ++ rest)
    with (String "[" (String "[" (value ++ "]]" ++ rest))).
  rewrite (bindP_Done _ _ _ _ _ _ _ (expect_ok "[" _ pos)).
  rewrite (bindP_Done _ _ _ _ _ _ _ (expect_ok "[" _ (S pos))).
  rewrite (scanTag_plain value rest Hno). unfold advance.
  f_equal. cbn [append String.length]. rewrite !length_append.
  cbn [String.length]. lia.
Qed.

(** A tag without brackets in its text is a complete expression. *)
Lemma Complete_tag value :
  (forall i, get i value <> Some "["%char /\ get i value <> Some "]"%char) ->
  Complete ("[[" ++ value ++ "]]") (Tag (Str.trim value)).
Proof.
  intros Hno. split; [repeat split; discriminate|].
  exists 1. intros rest pos.
  replace (("[[" ++ value ++ "]]") ++ rest) with ("[[" ++ (value ++ "]]" ++ rest))
    by (cbn [append]; now rewrite append_assoc).
  rewrite parseExpression_tag.
  rewrite (bindP_Done _ _ _ _ _ _ _ (parseTag_plain value rest pos Hno)).
  reflexivity.
Qed.

Lemma scanBlockRef_plain uid rest :
  (forall i, get i uid <> Some ")"%char) ->
  scanBlockRef (uid ++ "))" ++ rest) = (uid, rest).
Proof.
  change ("))" ++ rest) with (String ")" (String ")" rest)).
  induction uid as [|c uid IH]; intros Hno; [reflexivity|].
  pose proof (Hno 0) as H1. cbn [get] in H1.
  assert (IH' := IH (fun i => Hno (S i))). clear IH.
  destruct uid as [|d uid]; cbn [append scanBlockRef] in *;
    destruct (Ascii.eqb_spec c ")") as [->|_]; try congruence; cbn [andb].
  - reflexivity.
  - rewrite IH'. reflexivity.
Qed.

(** A block reference whose identifier is not empty and holds no
    parenthesis is a complete expression. *)
Lemma Complete_blockRef uid :
  uid <> EmptyString -> (forall i, get i uid <> Some ")"%char) ->
  Complete ("((" ++ uid ++ "))") (BlockRef (Str.trim uid)).
Proof.
  intros Hne Hno. split; [repeat split; discriminate|].
  exists 1. intros rest pos.
  replace (("((" ++ uid ++ "))") ++ rest) with ("((" ++ (uid ++ "))" ++ rest))
    by (cbn [append]; now rewrite append_assoc).
  rewrite parseExpression_blockRef.
  assert (H : parseBlockRef ("((" ++ uid ++ "))" ++ rest) pos
              = Done (Str.trim uid) rest (pos + String.length ("((" ++ uid ++ "))"))).
  { unfold parseBlockRef.
    change ("((" ++ uid ++ "))" ++ rest)
      with (String "(" (String "(" (uid ++ "))" ++ rest))).
    rewrite (bindP_Done _ _ _ _ _ _ _ (expect_ok "(" _ pos)).
    rewrite (bindP_Done _ _ _ _ _ _ _ (expect_ok "(" _ (S pos))).
    rewrite (scanBlockRef_plain uid rest Hno).
    destruct uid as [|c uid]; [contradiction|]. cbn [isEmpty]. unfold advance.
    f_equal. cbn [append String.length]. rewrite !length_append.
    cbn [String.length]. lia. }
  rewrite (bindP_Done _ _ _ _ _ _ _ H). reflexivity.
Qed.

(** An and or an or over complete children, closed by its brace, is a
    complete expression. *)
Lemma Complete_and_or op ws siblings :
  validFrame (AndOrFrame op ws siblings) -> siblings <> [] ->
  exists nodes,
    List.length nodes = List.length siblings
    /\ Complete (frameText (AndOrFrame op ws siblings) ++ "}")
                (andOrNode (Str.toLowerCase op) nodes).
Proof.
  intros (Hop & Hws & Hs) Hne. cbn [frameText].
  pose proof (toLowerCase_and_or op Hop) as Hl.
  destruct (parseChildren_done siblings Hs) as (nodes & f1 & Hlen & Hf1).
  exists nodes. split; [exact Hlen|].
  split; [repeat split; discriminate|].
  exists (S f1). intros rest pos.
  assert (Hfirst : startsExpression (siblingsText siblings ++ "}" ++ rest)).
  { destruct siblings as [|[child gap] more]; [contradiction|].
    inversion Hs as [|? ? [[node [Hc _]] _] _]; subst.
    rewrite siblingsText_cons, append_assoc. now apply startsExpression_app. }
  rewrite append_assoc, operator_app, append_assoc.
  change ("{" ++ op ++ ":" ++ ws ++ siblingsText siblings ++ "}" ++ rest)
    with (String "{" (op ++ String ":" (ws ++ siblingsText siblings ++ "}" ++ rest))).
  rewrite parseExpression_operator.
  change (String "{" (op ++ String ":" (ws ++ siblingsText siblings ++ "}" ++ rest)))
    with ("{" ++ op ++ ":" ++ (ws ++ siblingsText siblings ++ "}" ++ rest)).
  rewrite parseOperator_letters by assumption.
  rewrite (startsExpression_gap ws _ Hws Hfirst), length_append.
  rewrite parseClause_and_or by assumption.
  set (p := pos + 2 + String.length op
            + (String.length ws
               + String.length (siblingsText siblings ++ "}" ++ rest)
               - String.length (siblingsText siblings ++ "}" ++ rest))).
  assert (Hand : parseAndOr (fun acc s' pos' => parseChildren f1 acc s' pos')
                   (Str.toLowerCase op) (siblingsText siblings ++ "}" ++ rest) p
                 = Done (andOrNode (Str.toLowerCase op) nodes) ("}" ++ rest)
                        (p + String.length (siblingsText siblings))).
  { unfold parseAndOr.
    rewrite (bindP_Done _ _ _ _ _ _ _ (startsExpression_stay _ _ Hfirst)).
    rewrite (bindP_Done _ _ _ _ _ _ _ (Hf1 ("}" ++ rest) eq_refl f1 (le_n _) [] p)).
    cbn [rev app]. destruct nodes as [|n nodes]; [|reflexivity].
    destruct siblings; [contradiction|discriminate Hlen]. }
  rewrite (bindP_Done _ _ _ _ _ _ _ Hand).
  rewrite (bindP_Done _ _ _ _ _ _ _ (skipWhitespace_stay "}" rest _ eq_refl)).
  change ("}" ++ rest) with (String "}" rest).
  rewrite (bindP_Done _ _ _ _ _ _ _ (expect_ok "}" rest _)).
  unfold pure. f_equal. subst p.
  repeat (progress cbn [append String.length] || rewrite length_append). lia.
Qed.

(** A not over a complete child, closed by its brace, is a complete
    expression. *)
Lemma Complete_not op ws child gap node :
  Str.toLowerCase op = "not" -> allWhiteSpace ws ->
  Complete child node -> allWhiteSpace gap ->
  Complete ("{" ++ op ++ ":" ++ ws ++ child ++ gap ++ "}") (Not node).
Proof.
  intros Hop Hws [Hc [fc Hfc]] Hgap.
  pose proof (toLowerCase_not op Hop) as Hl.
  split; [repeat split; discriminate|].
  exists (S fc). intros rest pos.
  rewrite operator_app, !append_assoc.
  change ("{" ++ op ++ ":" ++ ws ++ child ++ gap ++ "}" ++ rest)
    with (String "{" (op ++ String ":" (ws ++ child ++ gap ++ "}" ++ rest))).
  rewrite parseExpression_operator.
  change (String "{" (op ++ String ":" (ws ++ child ++ gap ++ "}" ++ rest)))
    with ("{" ++ op ++ ":" ++ (ws ++ child ++ gap ++ "}" ++ rest)).
  rewrite parseOperator_letters by assumption.
  rewrite (startsExpression_gap ws _ Hws (startsExpression_app _ _ Hc)), length_append.
  rewrite parseClause_not by assumption.
  set (p := pos + 2 + String.length op
            + (String.length ws + String.length (child ++ gap ++ "}" ++ rest)
               - String.length (child ++ gap ++ "}" ++ rest))).
  assert (Hnot : parseNot (fun s' pos' => parseExpression fc s' pos')
                   (child ++ gap ++ "}" ++ rest) p
                 = Done (Not node) (gap ++ "}" ++ rest) (p + String.length child)).
  { unfold parseNot.
    rewrite (bindP_Done _ _ _ _ _ _ _
               (startsExpression_stay _ _ (startsExpression_app _ _ Hc))).
    rewrite (bindP_Done _ _ _ _ _ _ _ (Hfc (gap ++ "}" ++ rest) p)).
    reflexivity. }
  rewrite (bindP_Done _ _ _ _ _ _ _ Hnot).
  rewrite (bindP_Done _ _ _ _ _ _ _ (skipWhitespace_trimStart _ _)).
  rewrite (trimStart_app gap ("}" ++ rest) Hgap eq_refl).
  change ("}" ++ rest) with (String "}" rest).
  rewrite (bindP_Done _ _ _ _ _ _ _ (expect_ok "}" rest _)).
  unfold pure. f_equal. subst p.
  repeat (progress cbn [append String.length] || rewrite length_append). lia.
Qed.

(** ** The violations at any depth *)

Lemma nested_unclosed_tag frames body :
  Forall validFrame frames ->
  (forall i, substring i 2 body <> "]]") ->
  parseExpressionText (contextText frames ++ "[[" ++ body)
  = Fail (mkParseError "Unclosed tag reference"
            (String.length (contextText frames) + 2 + String.length body)).
Proof.
  intros Hf Hno. apply parseExpressionText_context; [assumption| |].
  - repeat split; discriminate.
  - exists 1. now apply parseExpression_unclosed_tag.
Qed.

Lemma nested_unknown_operator frames name rest :
  Forall validFrame frames ->
  allLetters name -> ~ In (Str.toLowerCase name) operatorNames ->
  parseExpressionText (contextText frames ++ "{" ++ name ++ ":" ++ rest)
  = Fail (mkParseError ("Unknown operator: " ++ name)
            (String.length (contextText frames) + 2 + String.length name
               + (String.length rest - String.length (Str.trimStart rest)))).
Proof.
  intros Hf Hl Hn. apply parseExpressionText_context; [assumption| |].
  - repeat split; discriminate.
  - exists 1. now apply parseExpression_unknown_operator.
Qed.

Lemma nested_no_child frames op ws tail :
  Forall validFrame frames ->
  In (Str.toLowerCase op) ["and"; "or"] ->
  allWhiteSpace ws ->
  tail = EmptyString \/ (exists t, tail = String "}" t) ->
  parseExpressionText (contextText frames ++ "{" ++ op ++ ":" ++ ws ++ tail)
  = Fail (mkParseError
            (Str.toLowerCase op ++ " operator requires at least one child")
            (String.length (contextText frames) + 2 + String.length op
               + String.length ws)).
Proof.
  intros Hf Hop Hws Ht. apply parseExpressionText_context; [assumption| |].
  - repeat split; discriminate.
  - exists 2. now apply parseExpression_no_child.
Qed.

Lemma nested_open_and_or frames op ws siblings :
  Forall validFrame frames ->
  validFrame (AndOrFrame op ws siblings) -> siblings <> [] ->
  let text := contextText frames ++ frameText (AndOrFrame op ws siblings) in
  parseExpressionText text
  = Fail (mkParseError
            ("Expected '}' at position " ++ Str.ofNat (String.length text)
               ++ ", found 'EOF'")
            (String.length text)).
Proof.
  intros Hf Hframe Hne text. subst text.
  rewrite length_append.
  apply parseExpressionText_context; [assumption| |].
  - apply startsExpression_frameText.
  - exact (parseExpression_open_and_or op ws siblings _ Hframe Hne).
Qed.

(** An unknown operator under a not under an and, after a sibling. *)
Example nested_unknown_operator_example :
  parseExpressionText "{and: [[a]] {NOT: {unknown: [[b]]}}}"
  = Fail (mkParseError "Unknown operator: unknown" 28).
Proof.
  apply (nested_unknown_operator
           [AndOrFrame "and" " " [("[[a]]", " ")]; NotFrame "NOT" " "]
           "unknown" " [[b]]}}}").
  - repeat constructor.
    exists (Tag "a"). apply (Complete_tag "a").
    intros [|[|i]]; split; discriminate.
  - repeat constructor.
  - simpl. intuition discriminate.
Qed.

(** ** The parser on every text *)

Lemma parseWithName_fuel text : parseWithName text <> NoFuel.
Proof. apply parseExpressionText_fuel. Qed.

Lemma parse_position text e :
  parse text = inl e ->
  pe_position e <= String.length (extractQueryExpression text).
Proof.
  unfold parse, parseWithName.
  destruct (parseExpressionText _) as [result rest pos|e'|] eqn:E; try discriminate.
  - intros [= <-]. now apply parseExpressionText_position.
  - intros [= <-]. cbn [pe_position]. lia.
Qed.

(** C9. A block reference that is not closed is not reported:
    [((abc], alone or in the wrapper, parses to the block reference
    [abc], and so does every [((] followed by a text without [))] that
    ends the expression; [parseTag] and [parseQuotedString] do report the
    text that ends before their closing delimiter.  The other violations
    raise a parse error that carries the position of the parser in the
    expression, at whatever depth of and, or and not operators the parser
    meets them, after whatever complete children: a tag that is not closed
    (at the end of the text), an and or an or that the text ends before
    closing (at the end of the text), an operator name that is none of the
    known ones (where its clause starts), an and or an or without child
    (where its brace stands); an operator whose text holds no closing
    brace, a name whose quote is not closed, and content after the
    expression (at its first character) raise one too.  The parser always
    returns, and the position of every error lies within the expression.
    Tags and block references that are closed, and the and, or and not
    operators over complete children, are complete expressions. *)
Theorem parse_unclosed_block_reference :
  parse "((abc" = inr (BlockRef "abc")
  /\ parse "{{[[query]]: ((abc}}" = inr (BlockRef "abc")
  /\ (forall uid,
        uid <> EmptyString -> (forall i, substring i 2 uid <> "))") ->
        parseExpressionText ("((" ++ uid)
        = Done (mkParseResult None (BlockRef (Str.trim uid))) EmptyString
               (2 + String.length uid))
  /\ (forall frames body,
        Forall validFrame frames ->
        (forall i, substring i 2 body <> "]]") ->
        parseExpressionText (contextText frames ++ "[[" ++ body)
        = Fail (mkParseError "Unclosed tag reference"
                  (String.length (contextText frames) + 2 + String.length body)))
  /\ (forall frames op ws siblings,
        Forall validFrame frames ->
        validFrame (AndOrFrame op ws siblings) -> siblings <> [] ->
        let text := contextText frames ++ frameText (AndOrFrame op ws siblings) in
        parseExpressionText text
        = Fail (mkParseError
                  ("Expected '}' at position " ++ Str.ofNat (String.length text)
                     ++ ", found 'EOF'")
                  (String.length text)))
  /\ (forall frames name rest,
        Forall validFrame frames ->
        allLetters name -> ~ In (Str.toLowerCase name) operatorNames ->
        parseExpressionText (contextText frames ++ "{" ++ name ++ ":" ++ rest)
        = Fail (mkParseError ("Unknown operator: " ++ name)
                  (String.length (contextText frames) + 2 + String.length name
                     + (String.length rest - String.length (Str.trimStart rest)))))
  /\ (forall frames op ws tail,
        Forall validFrame frames ->
        In (Str.toLowerCase op) ["and"; "or"] ->
        allWhiteSpace ws ->
        tail = EmptyString \/ (exists t, tail = String "}" t) ->
        parseExpressionText (contextText frames ++ "{" ++ op ++ ":" ++ ws ++ tail)
        = Fail (mkParseError
                  (Str.toLowerCase op ++ " operator requires at least one child")
                  (String.length (contextText frames) + 2 + String.length op
                     + String.length ws)))
  /\ (forall s,
        noCloseBrace s ->
        exists e, parseExpressionText (String "{" s) = Fail e
                  /\ pe_position e <= String.length (String "{" s))
  /\ (forall name,
        (forall i, get i name <> Some Str.dquote) ->
        parseExpressionText (String Str.dquote name)
        = Fail (mkParseError "Unclosed quoted string" (1 + String.length name)))
  /\ (forall expression result rest pos c t,
        parseNamedExpression (fuelFor expression) expression 0
          = Done result rest pos ->
        Str.trimStart rest = String c t ->
        parseExpressionText expression
        = Fail (mkParseError
                  ("Unexpected content after query: " ++ quoted (String c t))
                  (String.length expression - String.length (String c t))))
  /\ (forall text,
        parseWithName text = parseExpressionText (extractQueryExpression text)
        /\ parseWithName text <> NoFuel)
  /\ (forall text e,
        parse text = inl e ->
        pe_position e <= String.length (extractQueryExpression text))
  /\ ((forall value,
         (forall i, get i value <> Some "["%char /\ get i value <> Some "]"%char) ->
         Complete ("[[" ++ value ++ "]]") (Tag (Str.trim value)))
      /\ (forall uid,
            uid <> EmptyString -> (forall i, get i uid <> Some ")"%char) ->
            Complete ("((" ++ uid ++ "))") (BlockRef (Str.trim uid)))
      /\ (forall op ws siblings,
            validFrame (AndOrFrame op ws siblings) -> siblings <> [] ->
            exists nodes,
              List.length nodes = List.length siblings
              /\ Complete (frameText (AndOrFrame op ws siblings) ++ "}")
                          (andOrNode (Str.toLowerCase op) nodes))
      /\ (forall op ws child gap node,
            Str.toLowerCase op = "not" -> allWhiteSpace ws ->
            Complete child node -> allWhiteSpace gap ->
            Complete ("{" ++ op ++ ":" ++ ws ++ child ++ gap ++ "}") (Not node)))
  /\ parse "[[unclosed" = inl (mkParseError "Unclosed tag reference" 10)
  /\ parse "{unknown: [[tag]]}" = inl (mkParseError "Unknown operator: unknown" 10)
  /\ parse "{and: }"
     = inl (mkParseError "and operator requires at least one child" 6)
  /\ parse "{and: [[a]] [[b]]"
     = inl (mkParseError "Expected '}' at position 17, found 'EOF'" 17)
  /\ parse "[[a]] [[b]]"
     = inl (mkParseError ("Unexpected content after query: " ++ quoted "[[b]]") 6)
  /\ parse "{and: [[a]] {unknown: [[b]]}}"
     = inl (mkParseError "Unknown operator: unknown" 22)
  /\ parse "{or: [[a]] {not: {and: }}}"
     = inl (mkParseError "and operator requires at least one child" 23)
  /\ parse "{and: [[a]] {not: [[b}}"
     = inl (mkParseError "Unclosed tag reference" 23)
  /\ parse "{and: ((abc}"
     = inl (mkParseError "Expected '}' at position 12, found 'EOF'" 12).
Proof.
  split; [vm_compute; reflexivity|]. split; [vm_compute; reflexivity|].
  split; [exact parseExpressionText_unclosed_blockRef|].
  split; [exact nested_unclosed_tag|].
  split; [exact nested_open_and_or|].
  split; [exact nested_unknown_operator|].
  split; [exact nested_no_child|].
  split; [exact parseExpressionText_unclosed_brace|].
  split; [exact parseExpressionText_unclosed_name|].
  split.
  { intros expression result rest pos c t H Ht.
    rewrite (parseExpressionText_end _ _ _ _ H), Ht. reflexivity. }
  split; [intros text; split; [reflexivity|apply parseWithName_fuel]|].
  split; [exact parse_position|].
  split.
  { split; [exact Complete_tag|]. split; [exact Complete_blockRef|].
    split; [exact Complete_and_or|exact Complete_not]. }
  repeat split; vm_compute; reflexivity.
Qed.

End ParserFacts.

(* ================================================================== *)
(** * Further properties of the compiler *)
(* ================================================================== *)

(** ** The generator over a whole AST *)

Lemma generateEach_chain gen
  (R : QueryNode -> GenState -> DatalogClauses -> GenState -> Prop) children :
  Forall (fun child => forall st,
            match gen child st with
            | Ok (c, st') => R child st c st'
            | Throw _ => True
            end) children ->
  forall st,
    match generateEach gen children st with
    | Ok (cs, st') => Chain R children st cs st'
    | Throw _ => True
    end.
Proof.
  induction 1 as [|child rest Hc _ IH]; intros st; simpl.
  - constructor.
  - unfold bind. specialize (Hc st).
    destruct (gen child st) as [[c st1]|e]; auto.
    specialize (IH st1).
    destruct (generateEach gen rest st1) as [[cs st2]|e]; simpl; auto.
    econstructor; eauto.
Qed.

Lemma generateEach_throw gen children : forall st e,
  generateEach gen children st = Throw e ->
  exists child st0, In child children /\ gen child st0 = Throw e.
Proof.
  induction children as [|child rest IH]; intros st e; simpl.
  - discriminate.
  - unfold bind. destruct (gen child st) as [[c st1]|e1] eqn:E.
    + destruct (generateEach gen rest st1) as [[cs st2]|e2] eqn:E2; [discriminate|].
      intros [= <-]. destruct (IH _ _ E2) as (ch & st0 & Hin & Hth).
      exists ch, st0. auto.
    + intros [= <-]. exists child, st. auto.
Qed.

Lemma generateAnd_each gen children st :
  generateAnd gen children st =
  mapOk (fun cs =>
           mkClauses (List.concat (map where_ cs))
                     (List.concat (map inputs cs))
                     (List.concat (map inputValues cs)))
        (generateEach gen children st).
Proof. unfold generateAnd. now rewrite andLoop_each. Qed.

(** X1. An and node succeeds exactly when every child, generated in
    order against the same subject, succeeds; its fragments, inputs and
    input values are those of the children, concatenated in child order,
    with nothing added: no grouping, no fragment of its own.  An and
    without children gives the empty clause set. *)
Theorem and_concatenates_children (env : Env) (children : list QueryNode)
  (blockVar : string) (st : GenState) :
  generateNode env (And children) blockVar st =
    mapOk (fun cs =>
             mkClauses (List.concat (map where_ cs))
                       (List.concat (map inputs cs))
                       (List.concat (map inputValues cs)))
          (generateEach (fun child => generateNode env child blockVar) children st)
  /\ generateNode env (And []) blockVar st = Ok (emptyClauses, st)
  /\ (forall child,
        generateNode env (And [child]) blockVar st
        = mapOk (fun c => mkClauses (where_ c) (inputs c) (inputValues c))
            (generateNode env child blockVar st)).
Proof.
  split; [|split].
  - apply generateAnd_each.
  - reflexivity.
  - intros child.
    change (generateNode env (And [child]) blockVar st)
      with (generateAnd (fun c => generateNode env c blockVar) [child] st).
    rewrite generateAnd_each. simpl. unfold bind, ret.
    destruct (generateNode env child blockVar st) as [[c st']|e]; simpl; auto.
    now rewrite !app_nil_r.
Qed.

Lemma length_concat_where children st cs st' :
  Chain (fun child _ c _ => List.length (where_ c) = fragmentCount child)
        children st cs st' ->
  List.length (List.concat (map where_ cs))
  = fold_right (fun child n => fragmentCount child + n) 0 children.
Proof.
  induction 1 as [|child rest st c st1 cs st' Hc _ IH]; simpl; auto.
  rewrite length_app. lia.
Qed.

Lemma generateNode_fragments (env : Env) (node : QueryNode) (blockVar : string)
  (st : GenState) :
  match generateNode env node blockVar st with
  | Ok (clauses, _) => List.length (where_ clauses) = fragmentCount node
  | Throw _ => True
  end.
Proof.
  revert st.
  induction node as [children IH|children IH|child IH| | | | | | | | ]
    using QueryNode_nested_ind; intros st; try (simpl; reflexivity).
  - cbn [generateNode]. rewrite generateAnd_each.
    pose proof (generateEach_chain (fun child => generateNode env child blockVar)
                  (fun child _ c _ => List.length (where_ c) = fragmentCount child)
                  children IH st) as H.
    destruct (generateEach _ children st) as [[cs st']|e]; simpl; auto.
    eapply length_concat_where; eauto.
  - cbn [generateNode]. rewrite generateOr_each.
    destruct (generateEach _ children st) as [[cs st']|e]; simpl; auto.
  - cbn [generateNode]. unfold generateNot, bind.
    destruct (generateNode env child blockVar st) as [[c st']|e]; simpl; auto.
  - cbn [generateNode]. unfold generateBetween, bind, nextInput.
    destruct (roamDateToTimestamp env startDate _) as [[ts1 st1]|e]; auto.
    destruct (roamDateToTimestamp env endDate st1) as [[ts2 st2]|e]; auto.
    reflexivity.
Qed.

(** X2. The number of fragments of a generated clause set is fixed by
    the shape of the AST: three for a between or daily-notes node, two
    for a tag, block-reference, created-by or edited-by node, one for a
    search or by node, one for an or and for a not whatever they hold,
    and for an and the sum over its children.  The where-section of the
    main query has four fragments more, that of the count query three,
    and each one more under a page scope. *)
Theorem fragments_by_shape (env : Env) (node : QueryNode) (blockVar : string)
  (st : GenState) :
  match generateNode env node blockVar st with
  | Ok (clauses, _) => List.length (where_ clauses) = fragmentCount node
  | Throw _ => True
  end
  /\ match generate env node st with
     | Ok (clauses, _) =>
         forall pageUid,
           let scope := if truthy pageUid then 1 else 0 in
           List.length (allWhereClauses clauses pageUid)
           = 4 + scope + fragmentCount node
           /\ List.length (countWhereClauses clauses pageUid)
              = 3 + scope + fragmentCount node
     | Throw _ => True
     end.
Proof.
  split; [apply generateNode_fragments|].
  unfold generate.
  pose proof (generateNode_fragments env node "?b"
                (mkGenState 0 0 (clockReads st))) as H.
  destruct (generateNode env node "?b" _) as [[clauses st']|e]; [|exact I].
  intros page.
  unfold allWhereClauses, countWhereClauses, baseClauses, countBaseClauses, pageScope.
  rewrite !length_app, H.
  destruct (truthy page); split; reflexivity.
Qed.

Lemma inputNames_app a : forall i b,
  inputNames i (a + b) = (inputNames i a ++ inputNames (i + 2 * a) b)%list.
Proof.
  induction a as [|a IH]; intros i b.
  - simpl. now rewrite Nat.add_0_r.
  - change (S a + b) with (S (a + b)). cbn [inputNames]. rewrite IH.
    replace (i + 2 * S a) with (S (S i) + 2 * a) by lia. reflexivity.
Qed.

Lemma inputsOf_chain children st cs st' :
  Chain inputsOf children st cs st' ->
  let k := fold_right (fun child n => betweenNodes child + n) 0 children in
  List.concat (map inputs cs) = inputNames (inputCounter st) k
  /\ List.length (List.concat (map inputValues cs)) = 2 * k
  /\ inputCounter st' = inputCounter st + 2 * k
  /\ clockReads st' = clockReads st + 2 * k.
Proof.
  induction 1 as [|child rest st c st1 cs st' (H1 & H2 & H3 & H4) _ IH]; simpl.
  - repeat split; lia.
  - cbv zeta in IH. destruct IH as (I1 & I2 & I3 & I4).
    rewrite inputNames_app, H1, I1, H3, length_app, H2, I2.
    repeat split; auto; lia.
Qed.

Lemma generateNode_inputsOf env blockVar node : forall st,
  match generateNode env node blockVar st with
  | Ok (c, st') => inputsOf node st c st'
  | Throw _ => True
  end.
Proof.
  induction node as [children IH|children IH|child IH| | | | | | | | ]
    using QueryNode_nested_ind; intros st;
    try (unfold inputsOf; simpl; repeat split; lia).
  - cbn [generateNode]. rewrite generateAnd_each.
    pose proof (generateEach_chain _ inputsOf children IH st) as H.
    destruct (generateEach _ children st) as [[cs st']|e]; simpl; auto.
    apply inputsOf_chain in H. exact H.
  - cbn [generateNode]. rewrite generateOr_each.
    pose proof (generateEach_chain _ inputsOf children IH st) as H.
    destruct (generateEach _ children st) as [[cs st']|e]; simpl; auto.
    apply inputsOf_chain in H. exact H.
  - cbn [generateNode]. unfold generateNot, bind. specialize (IH st).
    destruct (generateNode env child blockVar st) as [[c st']|e]; simpl; auto.
  - cbn [generateNode]. unfold generateBetween, bind, nextInput.
    match goal with
    | |- context [roamDateToTimestamp env startDate ?s] =>
        pose proof (roamDateToTimestamp_state env startDate s) as H1;
        destruct (roamDateToTimestamp env startDate s) as [[ts1 st1]|e]; auto
    end.
    pose proof (roamDateToTimestamp_state env endDate st1) as H2.
    destruct (roamDateToTimestamp env endDate st1) as [[ts2 st2]|e]; auto.
    subst. unfold inputsOf. simpl. repeat split; lia.
Qed.

(** ** Decimal numerals *)

Lemma ofNat_inj n m : Str.ofNat n = Str.ofNat m -> n = m.
Proof.
  unfold Str.ofNat. intros H.
  apply (f_equal NilZero.uint_of_string) in H.
  assert (N : forall k, NilZero.uint_of_string (NilZero.string_of_uint (Nat.to_uint k))
                        = Some (Nat.to_uint k)
                        \/ k = 0).
  { intros k. destruct (NilZero.usu_gen (Nat.to_uint k)) as [E|E]; [now left|].
    destruct (Nat.to_uint k) eqn:Ek; try (left; now apply NilZero.usu).
    right. rewrite <- (Unsigned.of_to k), Ek. reflexivity. }
  assert (Z0 : NilZero.uint_of_string (NilZero.string_of_uint (Nat.to_uint 0))
               = Some (Nat.to_uint 0)) by reflexivity.
  assert (N' : forall k, NilZero.uint_of_string (NilZero.string_of_uint (Nat.to_uint k))
                         = Some (Nat.to_uint k)).
  { intros k. destruct (N k) as [E| ->]; auto. }
  rewrite !N' in H. injection H as H.
  rewrite <- (Unsigned.of_to n), <- (Unsigned.of_to m). now rewrite H.
Qed.

Lemma inputNames_index i k x :
  In x (inputNames i k) ->
  exists j, i <= j
            /\ (x = "?start-date-" ++ Str.ofNat j \/ x = "?end-date-" ++ Str.ofNat j).
Proof.
  revert i. induction k as [|k IH]; intros i; simpl; [tauto|].
  intros [<-|[<-|H]].
  - exists i. auto.
  - exists (S i). auto.
  - destruct (IH _ H) as (j & Hj & Hx). exists j. split; [lia|exact Hx].
Qed.

Lemma inputNames_NoDup k : forall i, NoDup (inputNames i k).
Proof.
  induction k as [|k IH]; intros i; simpl; constructor.
  - intros [H|H]; [discriminate H|].
    apply inputNames_index in H. destruct H as (j & Hj & [H|H]).
    + injection H as H. apply ofNat_inj in H. lia.
    + discriminate H.
  - constructor; [|apply IH].
    intros H. apply inputNames_index in H. destruct H as (j & Hj & [H|H]).
    + discriminate H.
    + injection H as H. apply ofNat_inj in H. lia.
Qed.

(** X3. The inputs of a generated clause set come from the between
    nodes alone, two per node: reading the AST from left to right, the
    n-th between node (from 0), under whatever and, or and not it sits,
    contributes [?start-date-(2n)] and [?end-date-(2n+1)].  The names are
    pairwise distinct, there is exactly one input value per name, the
    input counter ends at their number, and the clock has been read once
    per date. *)
Theorem inputs_pair_with_values (env : Env) (node : QueryNode) (st : GenState) :
  match generate env node st with
  | Ok (clauses, st') =>
      inputs clauses = inputNames 0 (betweenNodes node)
      /\ NoDup (inputs clauses)
      /\ List.length (inputValues clauses) = List.length (inputs clauses)
      /\ List.length (inputs clauses) = 2 * betweenNodes node
      /\ inputCounter st' = 2 * betweenNodes node
      /\ clockReads st' = clockReads st + 2 * betweenNodes node
  | Throw _ => True
  end.
Proof.
  unfold generate.
  pose proof (generateNode_inputsOf env "?b" node (mkGenState 0 0 (clockReads st))) as H.
  destruct (generateNode env node "?b" _) as [[c st']|e]; [|exact I].
  destruct H as (H1 & H2 & H3 & H4). cbn [inputCounter clockReads] in *.
  assert (L : forall k i, List.length (inputNames i k) = 2 * k).
  { induction k as [|k IHk]; intros i; simpl; [reflexivity|]. rewrite IHk. lia. }
  rewrite H1, H2, L. repeat split; auto. apply inputNames_NoDup.
Qed.

(** A failure of the generator is the failure of one of the dates. *)
Lemma generateNode_throw (env : Env) (node : QueryNode) (blockVar : string)
  (st : GenState) :
  match generateNode env node blockVar st with
  | Ok _ => True
  | Throw e =>
      exists d, In d (betweenDates node)
                /\ e = ErrorObj ("Cannot parse date: " ++ d)
                /\ DateParse env (stripOrdinal d) = NaN
                /\ DateParse env d = NaN
  end.
Proof.
  revert st.
  induction node as [children IH|children IH|child IH| | | | | | | | ]
    using QueryNode_nested_ind; intros st; try exact I.
  - cbn [generateNode]. rewrite generateAnd_each.
    destruct (generateEach _ children st) as [[cs st']|e] eqn:E; simpl; auto.
    apply generateEach_throw in E. destruct E as (child & st0 & Hin & Hth).
    rewrite Forall_forall in IH. specialize (IH child Hin st0). rewrite Hth in IH.
    destruct IH as (d & Hd & Rest). exists d. split; [|exact Rest].
    clear - Hin Hd. induction children as [|c cs IHc]; simpl in *; [tauto|].
    apply in_or_app. destruct Hin as [->|Hin]; auto.
  - cbn [generateNode]. rewrite generateOr_each.
    destruct (generateEach _ children st) as [[cs st']|e] eqn:E; simpl; auto.
    apply generateEach_throw in E. destruct E as (child & st0 & Hin & Hth).
    rewrite Forall_forall in IH. specialize (IH child Hin st0). rewrite Hth in IH.
    destruct IH as (d & Hd & Rest). exists d. split; [|exact Rest].
    clear - Hin Hd. induction children as [|c cs IHc]; simpl in *; [tauto|].
    apply in_or_app. destruct Hin as [->|Hin]; auto.
  - cbn [generateNode]. unfold generateNot, bind. specialize (IH st).
    destruct (generateNode env child blockVar st) as [[c st']|e]; simpl; auto.
  - cbn [generateNode]. unfold generateBetween, bind, nextInput.
    assert (R : forall d s,
              match roamDateToTimestamp env d s with
              | Ok _ => True
              | Throw e => e = ErrorObj ("Cannot parse date: " ++ d)
                           /\ DateParse env (stripOrdinal d) = NaN
                           /\ DateParse env d = NaN
              end).
    { intros d s. unfold roamDateToTimestamp, bind.
      destruct (parseRelativeDate_state env (Str.trim (Str.toLowerCase d)) s) as [r ->].
      destruct r as [r|]; [exact I|].
      destruct (DateParse env (stripOrdinal d)) eqn:E1; [exact I|].
      destruct (DateParse env d) eqn:E2; [exact I|]. unfold throw. auto. }
    match goal with
    | |- context [roamDateToTimestamp env startDate ?s] =>
        pose proof (R startDate s) as H1;
        destruct (roamDateToTimestamp env startDate s) as [[ts1 st1]|e]
    end.
    + pose proof (R endDate st1) as H2.
      destruct (roamDateToTimestamp env endDate st1) as [[ts2 st2]|e]; [exact I|].
      exists endDate. simpl. tauto.
    + exists startDate. simpl. tauto.
Qed.

Lemma betweenDates_length node :
  List.length (betweenDates node) = 2 * betweenNodes node.
Proof.
  induction node as [children IH|children IH|child IH| | | | | | | | ]
    using QueryNode_nested_ind; try reflexivity; try assumption;
    cbn [betweenDates betweenNodes];
    induction IH as [|child rest Hc _ IHr]; simpl; try reflexivity;
    rewrite length_app, Hc, IHr; lia.
Qed.

(** X4. The generator fails on dates only.  Whenever generating a node
    fails, the failure is the error [Cannot parse date: d] for a date [d]
    of one of its between nodes, a date that the host's [Date] takes
    neither with its ordinal suffix removed nor as it is written; so an
    AST without a between node always generates. *)
Theorem generate_fails_on_dates_only (env : Env) (node : QueryNode)
  (blockVar : string) (st : GenState) :
  match generateNode env node blockVar st with
  | Ok _ => True
  | Throw e =>
      exists d, In d (betweenDates node)
                /\ e = ErrorObj ("Cannot parse date: " ++ d)
                /\ DateParse env (stripOrdinal d) = NaN
                /\ DateParse env d = NaN
  end
  /\ (betweenNodes node = 0 ->
      exists clauses st', generateNode env node blockVar st = Ok (clauses, st')).
Proof.
  pose proof (generateNode_throw env node blockVar st) as H.
  split; [exact H|].
  intros Hz. destruct (generateNode env node blockVar st) as [[c st']|e]; [eauto|].
  destruct H as (d & Hd & _). exfalso.
  pose proof (betweenDates_length node) as L. rewrite Hz in L.
  destruct (betweenDates node); [destruct Hd|discriminate L].
Qed.

(** ** Escaping *)

Lemma replaceAllChar_app c by_ a b :
  Str.replaceAllChar c by_ (a ++ b)
  = Str.replaceAllChar c by_ a ++ Str.replaceAllChar c by_ b.
Proof.
  induction a as [|x a IH]; simpl; [reflexivity|].
  destruct (Ascii.eqb x c); simpl; rewrite IH; [|reflexivity].
  now rewrite append_assoc.
Qed.

Lemma escapeString_cons c s :
  escapeString (String c s)
  = (if Ascii.eqb c Str.backslash then String Str.backslash (Str.chr Str.backslash)
     else if Ascii.eqb c Str.dquote then String Str.backslash (Str.chr Str.dquote)
     else Str.chr c) ++ escapeString s.
Proof.
  unfold escapeString. cbn [Str.replaceAllChar].
  destruct (Ascii.eqb_spec c Str.backslash) as [->|Hb].
  - rewrite replaceAllChar_app. reflexivity.
  - cbn [Str.replaceAllChar]. destruct (Ascii.eqb c Str.dquote); reflexivity.
Qed.

Lemma readLiteralBody_escaped s rest :
  readLiteralBody (escapeString s ++ String Str.dquote rest) = Some (s, rest).
Proof.
  induction s as [|c s IH].
  - reflexivity.
  - rewrite escapeString_cons.
    destruct (Ascii.eqb_spec c Str.backslash) as [->|Hb].
    + change (readLiteralBody
                (String Str.backslash (String Str.backslash
                   (escapeString s ++ String Str.dquote rest)))
              = Some (String Str.backslash s, rest)).
      cbn [readLiteralBody]. rewrite IH. reflexivity.
    + destruct (Ascii.eqb_spec c Str.dquote) as [->|Hq].
      * change (readLiteralBody
                  (String Str.backslash (String Str.dquote
                     (escapeString s ++ String Str.dquote rest)))
                = Some (String Str.dquote s, rest)).
        cbn [readLiteralBody]. rewrite IH. reflexivity.
      * change (readLiteralBody
                  (String c (escapeString s ++ String Str.dquote rest))
                = Some (String c s, rest)).
        cbn [readLiteralBody]. rewrite IH.
        apply Ascii.eqb_neq in Hb, Hq. now rewrite Hb, Hq.
Qed.

(** X5. Escaping is undone by reading: the quoted escaped text,
    whatever follows it, reads back as one string literal whose body is
    the original text, the literal ending at the quote the generator
    wrote and nowhere before.  So no quote or backslash in a tag name, an
    identifier, a search text or a user name can end the literal early,
    and two different texts never give the same literal. *)
Theorem escapeString_reads_back (s : string) :
  (forall rest, readLiteral (quoted (escapeString s) ++ rest) = Some (s, rest))
  /\ (forall s', escapeString s = escapeString s' -> s = s').
Proof.
  assert (R : forall t rest,
            readLiteral (quoted (escapeString t) ++ rest) = Some (t, rest)).
  { intros t rest. unfold quoted. rewrite append_assoc.
    change (readLiteralBody ((escapeString t ++ Str.chr Str.dquote) ++ rest)
            = Some (t, rest)).
    rewrite append_assoc. apply readLiteralBody_escaped. }
  split; [apply R|].
  intros s' H. pose proof (R s EmptyString) as H1. rewrite H, R in H1.
  now injection H1.
Qed.

(** ** The [:in] clause and the arguments *)

Lemma spaced_app a b : spaced (a ++ b) = spaced a ++ spaced b.
Proof.
  induction a as [|x a IH]; simpl; [reflexivity|].
  now rewrite IH, append_assoc.
Qed.

Lemma join_spaced x xs : " " ++ Str.join " " (x :: xs) = spaced (x :: xs).
Proof.
  revert x. induction xs as [|y xs IH]; intros x.
  - cbn [spaced]. rewrite append_nil_r. reflexivity.
  - change (Str.join " " (x :: y :: xs)) with (x ++ " " ++ Str.join " " (y :: xs)).
    rewrite IH. reflexivity.
Qed.

Lemma inClause_spaced clauses pageUid :
  inClause clauses pageUid = ":in $" ++ spaced (inVariables clauses pageUid).
Proof.
  unfold inClause, inVariables. rewrite spaced_app.
  assert (E : match inputs clauses with
              | [] => ":in $"
              | _ :: _ => ":in $" ++ " " ++ Str.join " " (inputs clauses)
              end = ":in $" ++ spaced (inputs clauses)).
  { destruct (inputs clauses) as [|x xs]; [reflexivity|].
    now rewrite join_spaced. }
  cbv zeta. rewrite E. destruct (truthy pageUid).
  - now rewrite append_assoc.
  - cbn [spaced]. now rewrite append_nil_r.
Qed.

Lemma buildArgs_length clauses pageUid :
  List.length (buildArgs clauses pageUid)
  = List.length (inputValues clauses) + (if truthy pageUid then 1 else 0).
Proof.
  unfold buildArgs. destruct pageUid as [uid|]; simpl; [|lia].
  destruct uid; simpl; [lia|]. rewrite length_app. reflexivity.
Qed.

(** X6. Both built queries declare, after [:in $], exactly the input
    variables they are given arguments for, in the same order: the
    inputs of the generated clause set, then [?target-page-uid] when a
    page is given.  For clauses that come from the generator, the
    arguments of the main query and of the count query are as many as
    these variables. *)
Theorem in_variables_match_arguments (env : Env) (node : QueryNode)
  (st : GenState) (options : BuildOptions) :
  (forall clauses pageUid,
     inClause clauses pageUid = ":in $" ++ spaced (inVariables clauses pageUid))
  /\ match generate env node st with
     | Ok (clauses, _) =>
         let vars := inVariables clauses (bo_pageUid options) in
         List.length (args (buildDatalogQuery clauses options)) = List.length vars
         /\ List.length (args (buildCountQuery clauses (bo_pageUid options)))
            = List.length vars
     | Throw _ => True
     end.
Proof.
  split; [apply inClause_spaced|].
  unfold generate.
  pose proof (generateNode_inputsOf env "?b" node (mkGenState 0 0 (clockReads st))) as H.
  destruct (generateNode env node "?b" _) as [[c st']|e]; [|exact I].
  destruct H as (H1 & H2 & _).
  assert (L : forall k i, List.length (inputNames i k) = 2 * k).
  { induction k as [|k IHk]; intros i; simpl; [reflexivity|]. rewrite IHk. lia. }
  cbv zeta. cbn [args buildDatalogQuery buildCountQuery].
  rewrite buildArgs_length. unfold inVariables. rewrite length_app, H1, H2, L.
  destruct (truthy (bo_pageUid options)); auto.
Qed.

(** ** The executor *)

(** The [catch] block never reports a success. *)
Lemma failure_not_success e r : failure e = Ok r -> success r = false.
Proof. destruct e; cbn; intros H; [| |discriminate H]; now injection H as <-. Qed.

Lemma rowPromises_nth host rows : forall i j,
  nth_error (rowPromises host i rows) j
  = match nth_error rows j with
    | Some row =>
        Some (settledAt host (i + j),
              exc_bind (resolveRefs host (cell row 1)) (fun resolvedContent =>
              Ok (mkMatch (cell row 0) resolvedContent (cell row 2))))
    | None => None
    end.
Proof.
  induction rows as [|row rows IH]; intros i [|j]; cbn [rowPromises nth_error];
    try reflexivity.
  - now rewrite Nat.add_0_r.
  - rewrite IH. now replace (S i + j) with (i + S j) by lia.
Qed.

Lemma firstRejection_none {A} (promises : list (nat * Exc A)) :
  firstRejection promises = None ->
  forall j t e, nth_error promises j <> Some (t, Throw e).
Proof.
  induction promises as [|[t0 [a|e0]] rest IH]; cbn [firstRejection]; intros H j t e.
  - destruct j; discriminate.
  - destruct j as [|j]; [discriminate|]. cbn [nth_error]. now apply IH.
  - destruct (firstRejection rest) as [[t' e']|]; [|discriminate].
    destruct (t' <? t0)%nat; discriminate.
Qed.

(** The rejection of [Promise.all] is the one that comes first in time,
    the leftmost of those of one instant. *)
Lemma firstRejection_first {A} (promises : list (nat * Exc A)) : forall t e,
  firstRejection promises = Some (t, e) ->
  exists i, nth_error promises i = Some (t, Throw e)
    /\ forall j t' e', nth_error promises j = Some (t', Throw e') ->
         t <= t' /\ (t' = t -> i <= j).
Proof.
  induction promises as [|[t0 [a|e0]] rest IH]; cbn [firstRejection]; intros t e H.
  - discriminate.
  - destruct (IH t e H) as (i & Hi & Hmin). exists (S i). split; [exact Hi|].
    intros [|j] t' e' Hj; [discriminate|].
    destruct (Hmin j t' e' Hj). split; [assumption|lia].
  - destruct (firstRejection rest) as [[t1 e1]|] eqn:E.
    + destruct (IH t1 e1 eq_refl) as (i & Hi & Hmin).
      destruct (Nat.ltb_spec t1 t0) as [Hlt|Hge]; injection H as <- <-.
      * exists (S i). split; [exact Hi|].
        intros [|j] t' e' Hj.
        -- injection Hj as <- <-. lia.
        -- destruct (Hmin j t' e' Hj). split; [assumption|lia].
      * exists 0. split; [reflexivity|].
        intros [|j] t' e' Hj; [injection Hj as <- <-; lia|].
        destruct (Hmin j t' e' Hj). lia.
    + injection H as <- <-. exists 0. split; [reflexivity|].
      intros [|j] t' e' Hj; [injection Hj as <- <-; lia|].
      exfalso. exact (firstRejection_none rest E j t' e' Hj).
Qed.

(** When the resolution of the rows fails, it fails as a row whose
    references do not resolve, and no failing row settles before it. *)
Lemma resolveRows_rejection host rows e :
  resolveRows host rows = Throw e ->
  exists i row,
    nth_error rows i = Some row
    /\ resolveRefs host (cell row 1) = Throw e
    /\ forall j row' e',
         nth_error rows j = Some row' ->
         resolveRefs host (cell row' 1) = Throw e' ->
         settledAt host i <= settledAt host j
         /\ (settledAt host j = settledAt host i -> i <= j).
Proof.
  unfold resolveRows, promiseAll.
  destruct (firstRejection (rowPromises host 0 rows)) as [[t e0]|] eqn:E;
    [|discriminate].
  intros [= ->]. destruct (firstRejection_first _ t e E) as (i & Hi & Hmin).
  rewrite rowPromises_nth in Hi.
  destruct (nth_error rows i) as [row|] eqn:Hrow; [|discriminate].
  unfold exc_bind in Hi.
  destruct (resolveRefs host (cell row 1)) as [text|e1] eqn:R; [discriminate|].
  injection Hi as <- <-. exists i, row. split; [exact Hrow|]. split; [exact R|].
  intros j row' e' Hj R'. apply (Hmin j (settledAt host j) e').
  rewrite rowPromises_nth, Hj. unfold exc_bind. now rewrite R'.
Qed.

Lemma resolveRows_rows host rows : forall ms,
  resolveRows host rows = Ok ms ->
  Forall2 (fun row m =>
             block_uid m = cell row 0
             /\ resolveRefs host (cell row 1) = Ok (content m)
             /\ page_title m = cell row 2) rows ms.
Proof.
  unfold resolveRows.
  assert (H : forall i ms,
            promiseAll (rowPromises host i rows) = Ok ms ->
            Forall2 (fun row m =>
                       block_uid m = cell row 0
                       /\ resolveRefs host (cell row 1) = Ok (content m)
                       /\ page_title m = cell row 2) rows ms).
  { unfold promiseAll.
    induction rows as [|row rows IH]; intros i ms; cbn [rowPromises firstRejection].
    - intros [= <-]. constructor.
    - unfold exc_bind.
      destruct (resolveRefs host (cell row 1)) as [text|e] eqn:E.
      + specialize (IH (S i)).
        destruct (firstRejection (rowPromises host (S i) rows)) as [[t e]|];
          [discriminate|].
        intros [= <-]. cbn [fulfilled]. constructor; [now cbn|].
        apply IH. reflexivity.
      + destruct (firstRejection (rowPromises host (S i) rows)) as [[t e']|];
          [destruct (_ <? _)%nat|]; discriminate. }
  intros ms. apply H.
Qed.

(** C1. What [execute] makes of the first step that fails (the parser,
    the generator on a date it cannot resolve, the query capability on
    the main query, the resolution of references, the query capability on
    the count query).  When the failure is an [Error], the result is
    [{success: false, matches: [], message}] with the message of the
    error; when it is another value that [String] converts, the message
    is that rendering; when it is a value that [String] cannot convert,
    [execute] throws what the conversion throws.  The failures of the
    generator are the errors [Cannot parse date: d], those of the parser
    of the sources are its parse errors; among the rows, the failure is
    the one that settles first.  When no step fails, [success] is true.
    On a graph whose query capability rejects with an object that has no
    conversion to a string, [execute] throws. *)
Theorem execute_raises_without_conversion (host : Host) (env : Env)
  (queryBlock : string) (options : QueryOptions) (st : GenState) :
  let caught := fun e : Thrown =>
    match e with
    | ErrorObj message =>
        execute host env queryBlock options st
        = Ok (mkResult false [] message None None)
    | OtherValue rendered =>
        execute host env queryBlock options st
        = Ok (mkResult false [] rendered None None)
    | NoString raised =>
        execute host env queryBlock options st = Throw raised
    end in
  match parse host queryBlock with
  | Throw e => caught e
  | Ok ast =>
  match generate env ast st with
  | Throw e =>
      exists d, e = ErrorObj ("Cannot parse date: " ++ d)
                /\ execute host env queryBlock options st
                   = Ok (mkResult false [] ("Cannot parse date: " ++ d) None None)
  | Ok (clauses, _) =>
  let built := buildDatalogQuery clauses
                 (mkBuildOptions None (limit options) (offset options)
                    (if truthy (orderBy options) then orderBy options
                     else Some "?block-uid asc")
                    (pageUid options)) in
  match q host (query built) (args built) with
  | Throw e => caught e
  | Ok rawResults =>
  match resolveRows host rawResults with
  | Throw e =>
      caught e
      /\ exists i row,
           nth_error rawResults i = Some row
           /\ resolveRefs host (cell row 1) = Throw e
           /\ forall j row' e',
                nth_error rawResults j = Some row' ->
                resolveRefs host (cell row' 1) = Throw e' ->
                settledAt host i <= settledAt host j
  | Ok resolvedResults =>
  let countQuery := buildCountQuery clauses (pageUid options) in
  match limit options, q host (query countQuery) (args countQuery) with
  | Some l, Throw e =>
      if (l =? -1)%Z
      then exists r, execute host env queryBlock options st = Ok r
                     /\ success r = true /\ matches r = resolvedResults
      else caught e
  | _, _ =>
      exists r, execute host env queryBlock options st = Ok r
                /\ success r = true /\ matches r = resolvedResults
  end end end end end
  /\ (parse host = parseOrThrow ->
      forall e, QueryParser.parse queryBlock = inl e ->
        execute host env queryBlock options st
        = Ok (mkResult false [] (QueryParser.pe_message e) None None))
  /\ execute brokenGraph sampleEnv "[[Project]]" (mkOptions None None None None)
       freshState
     = Throw noPrimitive.
Proof.
  intros caught.
  assert (C : forall e, executeBody host env queryBlock options st = Throw e ->
                        caught e).
  { intros e H. subst caught. unfold execute, try_catch. rewrite H.
    destruct e; reflexivity. }
  split; [|split].
  - revert C. unfold execute, executeBody, try_catch, exc_bind.
    destruct options as [lim off ord pg]. cbn [limit offset orderBy pageUid].
    destruct (parse host queryBlock) as [ast|e]; [|now auto].
    pose proof (generateNode_throw env ast "?b" (mkGenState 0 0 (clockReads st))) as G.
    fold (generate env ast st) in G.
    destruct (generate env ast st) as [[clauses st']|e].
    2:{ intros C. destruct G as (d & _ & -> & _). exists d. split; reflexivity. }
    cbv zeta. simpl fst.
    set (built := buildDatalogQuery clauses _).
    destruct (q host (query built) (args built)) as [rawResults|e]; [|now auto].
    destruct (resolveRows host rawResults) as [resolvedResults|e] eqn:R.
    2:{ intros C. split; [now auto|].
        destruct (resolveRows_rejection host rawResults e R) as (i & row & H1 & H2 & H3).
        exists i, row. split; [exact H1|]. split; [exact H2|].
        intros j row' e' Hj Hr. now destruct (H3 j row' e' Hj Hr). }
    set (countQuery := buildCountQuery clauses pg).
    destruct lim as [l|].
    + destruct (q host (query countQuery) (args countQuery)) as [countResults|e];
        destruct (l =? -1)%Z; cbn [negb]; intros C;
        first [ now auto
              | eexists; (split; [reflexivity|]); split; reflexivity ].
    + intros _. eexists; (split; [reflexivity|]); split; reflexivity.
  - intros Hp e He. unfold execute, executeBody, try_catch, exc_bind.
    rewrite Hp. unfold parseOrThrow. rewrite He. reflexivity.
  - vm_compute. reflexivity.
Qed.

(** A between node whose date is no date: the failure of the generator
    becomes the message of the result. *)
Example execute_date_error :
  let host := mkHost (fun _ => Ok (Between "someday" "today"))
                     (fun _ _ => Ok []) (fun _ => Ok EmptyString) (fun i => i) in
  execute host sampleEnv "{between: [[someday]] [[today]]}"
    (mkOptions None None None None) freshState
  = Ok (mkResult false [] "Cannot parse date: someday" None None).
Proof. reflexivity. Qed.

(** An and without operand: the parse error becomes the message, and a
    query that parses runs to a successful result. *)
Example execute_parse_error :
  execute sampleHost sampleEnv "{and: }" (mkOptions None None None None) freshState
  = Ok (mkResult false [] "and operator requires at least one child" None None).
Proof. vm_compute. reflexivity. Qed.

Example execute_success :
  exists text,
    execute sampleHost sampleEnv "{{[[query]]: {and: [[Project]] [[TODO]]}}}"
      (mkOptions (Some 50%Z) None None None) freshState
    = Ok (mkResult true [] "Found 0 block(s) matching query"
            (Some (VNum (Num 0))) (Some text)).
Proof. eexists. vm_compute. reflexivity. Qed.

(** Two rows whose references both fail to resolve: the failure reported
    is that of the second row, which settles first. *)
Example execute_first_rejection_in_time :
  execute racingGraph sampleEnv "[[Project]]" (mkOptions None None None None)
    freshState
  = Ok (mkResult false [] "Cannot resolve fast" None None).
Proof. vm_compute. reflexivity. Qed.

(** What the body of [execute] has done when it returns. *)
Lemma executeBody_success host env queryBlock options st r :
  executeBody host env queryBlock options st = Ok r ->
  exists ast clauses st' rows ms total,
    parse host queryBlock = Ok ast
    /\ generate env ast st = Ok (clauses, st')
    /\ q host
         (query (buildDatalogQuery clauses
                   (mkBuildOptions None (limit options) (offset options)
                      (if truthy (orderBy options) then orderBy options
                       else Some "?block-uid asc")
                      (pageUid options))))
         (args (buildDatalogQuery clauses
                  (mkBuildOptions None (limit options) (offset options)
                     (if truthy (orderBy options) then orderBy options
                      else Some "?block-uid asc")
                     (pageUid options)))) = Ok rows
    /\ resolveRows host rows = Ok ms
    /\ r = mkResult true ms
             ("Found " ++ Str.ofNat (List.length ms) ++ " block(s) matching query")
             (Some total)
             (Some (query (buildDatalogQuery clauses
                             (mkBuildOptions None (limit options) (offset options)
                                (if truthy (orderBy options) then orderBy options
                                 else Some "?block-uid asc")
                                (pageUid options)))))
    /\ (limit options = None \/ limit options = Some (-1)%Z ->
        total = VNum (Num (Z.of_nat (List.length ms))))
    /\ (forall l, limit options = Some l -> l <> (-1)%Z ->
        exists countResults,
          q host (query (buildCountQuery clauses (pageUid options)))
                 (args (buildCountQuery clauses (pageUid options))) = Ok countResults
          /\ total = firstCount countResults).
Proof.
  unfold executeBody, exc_bind.
  destruct options as [lim off ord pg]. cbn [limit offset orderBy pageUid].
  destruct (parse host queryBlock) as [ast|e] eqn:P; [|discriminate].
  destruct (generate env ast st) as [[clauses st']|e] eqn:G; [|discriminate].
  cbv zeta. simpl fst.
  set (built := buildDatalogQuery clauses _).
  destruct (q host (query built) (args built)) as [rows|e] eqn:Q; [|discriminate].
  destruct (resolveRows host rows) as [ms|e] eqn:R; [|discriminate].
  destruct lim as [l|]; [destruct (Z.eqb_spec l (-1)) as [->|Hl]|]; cbn [negb].
  - intros [= <-].
    exists ast, clauses, st', rows, ms, (VNum (Num (Z.of_nat (List.length ms)))).
    repeat split; auto. intros l [= <-] Hl. contradiction.
  - destruct (q host (query (buildCountQuery clauses pg)) _) as [countResults|e] eqn:C;
      [|discriminate].
    intros [= <-]. exists ast, clauses, st', rows, ms, (firstCount countResults).
    repeat split; auto.
    + intros [H|H]; [discriminate H|]. injection H as H. contradiction.
    + intros l' _ _. exists countResults. auto.
  - intros [= <-].
    exists ast, clauses, st', rows, ms, (VNum (Num (Z.of_nat (List.length ms)))).
    repeat split; auto. intros l H. discriminate H.
Qed.

(** X7. A successful result reports the rows of the main query one for
    one and in their order: the i-th match has the first cell of the
    i-th row as identifier, the third as page title, and as content the
    resolution of the second.  The message counts the rows, the query of
    the result is the text that was run, and without a limit (or with
    the limit -1) the total is the number of rows. *)
Theorem execute_matches_rows (host : Host) (env : Env) (queryBlock : string)
  (options : QueryOptions) (st : GenState) (result : QueryResult) :
  execute host env queryBlock options st = Ok result ->
  success result = true ->
  exists ast clauses st' rows,
    parse host queryBlock = Ok ast
    /\ generate env ast st = Ok (clauses, st')
    /\ (let built := buildDatalogQuery clauses
                       (mkBuildOptions None (limit options) (offset options)
                          (if truthy (orderBy options) then orderBy options
                           else Some "?block-uid asc")
                          (pageUid options)) in
        q host (query built) (args built) = Ok rows
        /\ query_text result = Some (query built))
    /\ Forall2 (fun row m =>
                  block_uid m = cell row 0
                  /\ resolveRefs host (cell row 1) = Ok (content m)
                  /\ page_title m = cell row 2) rows (matches result)
    /\ message result
       = "Found " ++ Str.ofNat (List.length rows) ++ " block(s) matching query"
    /\ (limit options = None \/ limit options = Some (-1)%Z ->
        total_count result = Some (VNum (Num (Z.of_nat (List.length rows))))).
Proof.
  unfold execute, try_catch.
  destruct (executeBody host env queryBlock options st) as [r|e] eqn:E;
    [|intros H%failure_not_success; congruence].
  intros [= <-] _.
  apply executeBody_success in E.
  destruct E as (ast & clauses & st' & rows & ms & total & P & G & Q & R & -> & T & _).
  pose proof (resolveRows_rows host rows ms R) as F.
  pose proof (Forall2_length F) as L.
  exists ast, clauses, st', rows. cbn [matches message total_count query_text].
  split; [exact P|]. split; [exact G|]. split; [split; [exact Q|reflexivity]|].
  split; [exact F|]. split; [now rewrite L|].
  intros H. rewrite (T H), L. reflexivity.
Qed.

(** On the graph of the examples, the two rows come back as two
    matches. *)
Lemma execute_matches_rows_witness :
  exists rows,
    Forall2 (fun row m =>
               block_uid m = cell row 0
               /\ resolveRefs sampleGraph (cell row 1) = Ok (content m)
               /\ page_title m = cell row 2) rows (matches sampleResult)
    /\ message sampleResult
       = "Found " ++ Str.ofNat (List.length rows) ++ " block(s) matching query".
Proof.
  destruct (execute_matches_rows sampleGraph sampleEnv "[[Project]]"
              (mkOptions None None None None) freshState sampleResult)
    as (ast & clauses & st' & rows & _ & _ & _ & H4 & H5 & _).
  - vm_compute. reflexivity.
  - reflexivity.
  - exists rows. split; [exact H4|exact H5].
Defined.

(** X8. The parse-only entry point fails exactly when [execute] reports
    the failure of the parser or of the generator, with the same error:
    the result of [execute] is then the failure result with the message
    of the error, or with the rendering of a thrown value that is no
    [Error] (for a value that [String] cannot convert, [execute] throws
    what the conversion throws).  When it succeeds it returns the AST of
    the parser and the main query built without options: the default
    selection, no modifier, no page scope, the input values as arguments.
    It uses neither the query capability nor the resolution of
    references. *)
Theorem parse_only_validates (host : Host) (env : Env) (queryBlock : string)
  (st : GenState) :
  match parseOnly host env queryBlock st with
  | Throw e =>
      forall options,
        execute host env queryBlock options st
        = match e with
          | ErrorObj message => Ok (mkResult false [] message None None)
          | OtherValue rendered => Ok (mkResult false [] rendered None None)
          | NoString raised => Throw raised
          end
  | Ok (ast, datalog) =>
      parse host queryBlock = Ok ast
      /\ exists clauses st',
           generate env ast st = Ok (clauses, st')
           /\ query datalog
              = renderQuery ["?block-uid"; "?block-str"; "?page-title"]
                  (":in $" ++ spaced (inputs clauses)) []
                  ([ "[?b :block/string ?block-str]";
                     "[?b :block/uid ?block-uid]";
                     "[?b :block/page ?p]";
                     "[?p :node/title ?page-title]" ] ++ where_ clauses)%list
           /\ args datalog = inputValues clauses
  end
  /\ (forall q1 q2 r1 r2 t1 t2,
        parseOnly (mkHost (parse host) q1 r1 t1) env queryBlock st
        = parseOnly (mkHost (parse host) q2 r2 t2) env queryBlock st).
Proof.
  split; [|reflexivity].
  unfold parseOnly, execute, executeBody, try_catch, exc_bind.
  destruct (parse host queryBlock) as [ast|e] eqn:P;
    [|intros options; destruct e; reflexivity].
  destruct (generate env ast st) as [[clauses st']|e] eqn:G;
    [|intros options; destruct e; reflexivity].
  split; [reflexivity|]. exists clauses, st'. split; [exact G|].
  split; [|reflexivity].
  cbn [fst query buildDatalogQuery noOptions bo_select bo_pageUid].
  rewrite inClause_spaced. unfold inVariables. cbn [truthy].
  now rewrite app_nil_r.
Qed.

(** ** The blocks that [extractQueryBlocks] returns *)

Lemma substring_split s : forall i a b,
  substring i (a + b) s = substring i a s ++ substring (i + a) b s.
Proof.
  induction s as [|c s IH]; intros i a b.
  - destruct i, a, b; reflexivity.
  - destruct i as [|i].
    + destruct a as [|a]; [reflexivity|].
      cbn [Nat.add substring append]. now rewrite (IH 0 a b).
    + cbn [Nat.add substring]. apply IH.
Qed.

Lemma substring_full s : substring 0 (String.length s) s = s.
Proof. induction s as [|c s IH]; simpl; [reflexivity|]. now rewrite IH. Qed.

Lemma braceSum_split text from a : forall b,
  braceSum text from (a + b)
  = (braceSum text from a + braceSum text (from + a) b)%Z.
Proof.
  induction b as [|b IH].
  - rewrite Nat.add_0_r. simpl. lia.
  - replace (a + S b) with (S (a + b)) by lia. cbn [braceSum]. rewrite IH.
    replace (from + (a + b)) with (from + a + b) by lia. lia.
Qed.

Lemma braceSum_substring text i m from : forall n,
  from + n <= m ->
  braceSum (substring i m text) from n = braceSum text (i + from) n.
Proof.
  induction n as [|n IH]; intros H; [reflexivity|].
  cbn [braceSum]. rewrite IH by lia.
  rewrite substring_correct1 by lia.
  now replace (from + n + i) with (i + from + n) by lia.
Qed.

Lemma Extracted_blocks text start blocks :
  Extracted text start blocks -> Forall (blockOf text) blocks.
Proof.
  induction 1 as [start Hnone|start i j blocks Hi Hj Hzero Hpos _ IH|start i Hi Hopen];
    constructor; auto.
  exists i, j. destruct Hi as (_ & Ho & _). auto.
Qed.

Lemma Extracted_lengths text start blocks :
  Extracted text start blocks ->
  start <= String.length text ->
  fold_right (fun b n => String.length b + n) 0 blocks
  <= String.length text - start.
Proof.
  induction 1 as [start Hnone|start i j blocks Hi Hj Hzero Hpos _ IH|start i Hi Hopen];
    intros Hs; cbn [fold_right]; try lia.
  rewrite length_substring. destruct Hi as (Hi & _). specialize (IH (proj2 Hj)).
  change (String.length wrapperPrefix) with 12 in Hj. lia.
Qed.

Lemma extractQueryBlocks_Extracted text :
  Extracted text 0 (extractQueryBlocks text).
Proof.
  destruct (extractLoop_spec text (String.length text) 0 []) as (found & HE & Eq);
    [lia|].
  unfold extractQueryBlocks. now rewrite Eq.
Qed.

Lemma blockOf_prefix text b :
  blockOf text b ->
  exists i j, i + 12 <= j <= String.length text
              /\ b = wrapperPrefix ++ substring (i + 12) (j - i - 12) text
              /\ String.length b = j - i
              /\ b = substring i (String.length b) text.
Proof.
  intros (i & j & -> & Ho & Hj & _).
  change (String.length wrapperPrefix) with 12 in Hj.
  exists i, j. split; [exact Hj|].
  assert (L : String.length (substring i (j - i) text) = j - i).
  { rewrite length_substring. lia. }
  split; [|split; [exact L|now rewrite L]].
  replace (j - i) with (12 + (j - i - 12)) at 1 by lia.
  rewrite substring_split. unfold occursAt in Ho.
  change (String.length wrapperPrefix) with 12 in Ho. now rewrite Ho.
Qed.

Lemma blockOf_depth text b i j k :
  b = substring i (j - i) text ->
  i + 12 <= j <= String.length text ->
  12 <= k <= j - i ->
  depthAt b 12 k = depthAt text (i + 12) (i + k).
Proof.
  intros -> Hj Hk. unfold depthAt.
  rewrite braceSum_substring by lia.
  now replace (i + k - (i + 12)) with (k - 12) by lia.
Qed.

(** X9. Every block that [extractQueryBlocks] returns is a part of the
    text that starts with the wrapper prefix (so [isQueryBlock] holds of
    it) and has as many opening as closing braces.  The blocks together
    are no longer than the text, and a text in which the prefix does not
    occur yields no block. *)
Theorem extracted_blocks_are_closed_wrappers (text : string) :
  Forall (fun block =>
            (exists rest, block = wrapperPrefix ++ rest)
            /\ (exists i, block = substring i (String.length block) text)
            /\ braceBalance block = 0%Z
            /\ isQueryBlock block = true)
         (extractQueryBlocks text)
  /\ fold_right (fun b n => String.length b + n) 0 (extractQueryBlocks text)
     <= String.length text
  /\ (index 0 wrapperPrefix text = None -> extractQueryBlocks text = []).
Proof.
  pose proof (extractQueryBlocks_Extracted text) as HE.
  split; [|split].
  - apply Extracted_blocks in HE. revert HE. apply Forall_impl. intros b Hb.
    destruct (blockOf_prefix text b Hb) as (i & j & Hj & Hp & Hl & Hs).
    split; [eauto|]. split; [eauto|]. split.
    + destruct Hb as (i' & j' & E & Ho & Hj' & Hzero & _).
      change (String.length wrapperPrefix) with 12 in *.
      assert (Lb : String.length b = j' - i').
      { rewrite E, length_substring. lia. }
      unfold braceBalance. rewrite Lb, E, braceSum_substring by lia.
      replace (j' - i') with (12 + (j' - i' - 12)) by lia.
      rewrite braceSum_split.
      assert (P : braceSum text (i' + 0) 12 = 2%Z).
      { rewrite <- (braceSum_substring text i' 12 0 12) by lia.
        unfold occursAt in Ho. change (String.length wrapperPrefix) with 12 in Ho.
        rewrite Ho. reflexivity. }
      rewrite P. unfold depthAt in Hzero.
      replace (i' + 0 + 12) with (i' + 12) by lia.
      replace (j' - i' - 12) with (j' - (i' + 12)) by lia. lia.
    + rewrite Hp. reflexivity.
  - apply Extracted_lengths in HE; lia.
  - intros Hn. eapply Extracted_functional; [exact HE|].
    apply Extracted_none. now apply index_no_occurrence.
Qed.

(** X10. Extraction is stable: a block that [extractQueryBlocks]
    returns, given as a text of its own, is extracted whole and alone. *)
Theorem extract_again_is_identity (text block : string) :
  In block (extractQueryBlocks text) ->
  extractQueryBlocks block = [block].
Proof.
  intros Hin.
  pose proof (Extracted_blocks _ _ _ (extractQueryBlocks_Extracted text)) as HF.
  rewrite Forall_forall in HF. specialize (HF block Hin).
  destruct (blockOf_prefix text block HF) as (i0 & j0 & _ & Hp & _ & _).
  destruct HF as (i & j & E & Ho & Hj & Hzero & Hpos).
  change (String.length wrapperPrefix) with 12 in *.
  assert (L : String.length block = j - i).
  { rewrite E, length_substring. lia. }
  eapply Extracted_functional; [apply extractQueryBlocks_Extracted|].
  rewrite <- (substring_full block) at 2.
  replace (String.length block) with (String.length block - 0) at 1 by lia.
  apply Extracted_closed; change (String.length wrapperPrefix) with 12.
  - split; [lia|]. split; [|intros k H1 H2; lia].
    unfold occursAt. change (String.length wrapperPrefix) with 12.
    rewrite Hp. unfold wrapperPrefix. cbn [append substring].
    now destruct (substring (i0 + 12) (j0 - i0 - 12) text).
  - lia.
  - rewrite (blockOf_depth text block i j) by (auto; lia).
    rewrite L. now replace (i + (j - i)) with j by lia.
  - intros k H1 H2.
    rewrite (blockOf_depth text block i j) by (auto; lia).
    apply Hpos; lia.
  - apply Extracted_none. intros k Hk Hoc. apply occursAt_bound in Hoc.
    change (String.length wrapperPrefix) with 12 in Hoc. lia.
Qed.

(** A text with two wrappers: each of its blocks is extracted from
    itself. *)
Lemma extract_again_is_identity_witness :
  extractQueryBlocks "{{[[query]]: [[TODO]]}}" = ["{{[[query]]: [[TODO]]}}"].
Proof.
  apply (extract_again_is_identity
           "a {{[[query]]: {and: [[x]] [[y]]}}} b {{[[query]]: [[TODO]]}} c"
           "{{[[query]]: [[TODO]]}}").
  vm_compute. auto.
Defined.

(** ** [isQueryBlock] and the surroundings of the prefix *)

Lemma whiteSpace_not_brace w :
  Str.isWhiteSpace w = true -> (canonicalize "{" =? canonicalize w)%nat = false.
Proof.
  destruct w as [[] [] [] [] [] [] [] []]; vm_compute; intros H;
    first [reflexivity | discriminate H].
Qed.

Lemma matchLiteralCI_app pattern : forall text tail,
  matchLiteralCI pattern text = true ->
  matchLiteralCI pattern (text ++ tail) = true.
Proof.
  induction pattern as [|p pattern IH]; intros text tail; [reflexivity|].
  destruct text as [|c text]; simpl; [discriminate|].
  rewrite !andb_true_iff. intros [H1 H2]. auto.
Qed.

Lemma matchLiteralCI_length pattern : forall text,
  matchLiteralCI pattern text = true -> String.length pattern <= String.length text.
Proof.
  induction pattern as [|p pattern IH]; intros text; simpl; [lia|].
  destruct text as [|c text]; simpl; [discriminate|].
  rewrite andb_true_iff. intros [_ H]. apply IH in H. lia.
Qed.

(** X11. [isQueryBlock] looks at the start of the text only: white
    space before the text changes nothing, nor does anything appended to
    a text that is a query block; in particular it does not ask for the
    wrapper to be closed.  A query block has at least the twelve
    characters of the prefix. *)
Theorem isQueryBlock_looks_at_start_only :
  (forall ws text,
     allWhiteSpace ws -> isQueryBlock (ws ++ text) = isQueryBlock text)
  /\ (forall text, isQueryBlock (Str.trimStart text) = isQueryBlock text)
  /\ (forall text tail,
        isQueryBlock text = true -> isQueryBlock (text ++ tail) = true)
  /\ (forall text, isQueryBlock text = true -> 12 <= String.length text)
  /\ (forall rest, isQueryBlock (wrapperPrefix ++ rest) = true
                   /\ extractQueryBlocks wrapperPrefix = []).
Proof.
  assert (Step : forall w text,
            Str.isWhiteSpace w = true ->
            isQueryBlock (String w text) = isQueryBlock text).
  { intros w text Hw. unfold isQueryBlock. cbn [matchSpacesThen]. rewrite Hw.
    change (matchLiteralCI wrapperPrefix (String w text))
      with ((canonicalize "{" =? canonicalize w)%nat
            && matchLiteralCI "{[[query]]:" text).
    rewrite (whiteSpace_not_brace w Hw). cbn [andb]. apply orb_false_r. }
  split; [|split; [|split; [|split]]].
  - induction ws as [|w ws IH]; intros text Hws; [reflexivity|].
    apply allWhiteSpace_cons in Hws. destruct Hws as [Hw Hws].
    cbn [append]. rewrite Step by exact Hw. now apply IH.
  - induction text as [|c text IH]; [reflexivity|].
    cbn [Str.trimStart]. destruct (Str.isWhiteSpace c) eqn:Hc; [|reflexivity].
    now rewrite IH, Step.
  - intros text tail H. unfold isQueryBlock in *.
    apply matchSpacesThen_spec in H. destruct H as (ws & rest & -> & Hws & H).
    apply matchSpacesThen_spec. exists ws, (rest ++ tail).
    split; [apply append_assoc|]. split; [exact Hws|].
    now apply matchLiteralCI_app.
  - intros text H. unfold isQueryBlock in H.
    apply matchSpacesThen_spec in H. destruct H as (ws & rest & -> & Hws & H).
    apply matchLiteralCI_length in H.
    change (String.length wrapperPrefix) with 12 in H.
    rewrite length_append. lia.
  - intros rest. split; reflexivity.
Qed.

(** ** Numerals *)

Lemma allDigits_cons c s :
  allDigits (String c s) <-> Str.isDigit c = true /\ allDigits s.
Proof.
  unfold allDigits; simpl. split.
  - intros H; inversion H; auto.
  - intros [H1 H2]; constructor; auto.
Qed.

Lemma string_of_uint_digits d : allDigits (NilEmpty.string_of_uint d).
Proof.
  induction d; simpl; try (apply allDigits_cons; split; [reflexivity|assumption]).
  constructor.
Qed.

Lemma ofNat_digits n :
  allDigits (Str.ofNat n) /\ Str.ofNat n <> EmptyString.
Proof.
  unfold Str.ofNat, NilZero.string_of_uint.
  destruct (Nat.to_uint n) eqn:E;
    try (split; [apply string_of_uint_digits|discriminate]).
  split; [|discriminate]. apply allDigits_cons. split; [reflexivity|constructor].
Qed.

Lemma parseDigits_string_of_uint d : forall acc,
  parseDigits (Z.of_nat acc) (NilEmpty.string_of_uint d)
  = Z.of_nat (Nat.of_uint_acc d acc).
Proof.
  induction d; intros acc; cbn [NilEmpty.string_of_uint parseDigits Nat.of_uint_acc];
    [reflexivity|..];
    rewrite Nat.tail_mul_spec, <- IHd; f_equal;
    match goal with
    | |- context [Str.code ?c] =>
        let v := eval vm_compute in (Str.code c - 48) in
        change (Str.code c - 48) with v
    end; lia.
Qed.

Lemma parseInt10_ofNat n : parseInt10 (Str.ofNat n) = Z.of_nat n.
Proof.
  unfold parseInt10, Str.ofNat, NilZero.string_of_uint.
  rewrite <- (Unsigned.of_to n) at 2. unfold Nat.of_uint.
  destruct (Nat.to_uint n) eqn:E;
    rewrite <- (parseDigits_string_of_uint _ 0); reflexivity.
Qed.

(** ** The pattern [N units ago] *)

Lemma span_app p digits rest :
  Forall (fun c => p c = true) (list_ascii_of_string digits) ->
  match rest with EmptyString => True | String c _ => p c = false end ->
  span p (digits ++ rest) = (digits, rest).
Proof.
  intros Hd Hr. induction digits as [|c digits IH]; simpl.
  - destruct rest as [|r rest]; [reflexivity|]. simpl. now rewrite Hr.
  - simpl in Hd. inversion Hd as [|? ? Hc Hrest]; subst.
    rewrite Hc, IH by assumption. reflexivity.
Qed.

Lemma matchAgo_form digits tail unit :
  allDigits digits -> digits <> EmptyString -> In (tail, unit) agoForms ->
  matchAgo (digits ++ tail) = Some (digits, unit).
Proof.
  intros Hd Hne Hin. unfold matchAgo.
  assert (Hsp : span Str.isDigit (digits ++ tail) = (digits, tail)).
  { apply span_app; [exact Hd|].
    simpl in Hin.
    repeat (destruct Hin as [Hin|Hin]; [injection Hin as <- <-; reflexivity|]).
    destruct Hin. }
  rewrite Hsp. destruct digits as [|c digits]; [contradiction|].
  cbn [isEmpty]. simpl in Hin.
  repeat (destruct Hin as [Hin|Hin]; [injection Hin as <- <-; reflexivity|]).
  destruct Hin.
Qed.

Lemma digit_not_other c l :
  Str.isDigit c = true -> Str.isDigit l = false -> Ascii.eqb c l = false.
Proof.
  intros Hc Hl. destruct (Ascii.eqb_spec c l) as [->|]; congruence.
Qed.

(** A text that starts with a digit is none of the named dates. *)
Lemma parseRelativeDate_digit env c rest st :
  Str.isDigit c = true ->
  parseRelativeDate env (String c rest) st
  = Ok (match matchAgo (String c rest) with
        | Some (digits, unit) =>
            Some (subtractFromDate env
                    (startOfDay env (clock env (clockReads st)))
                    (parseInt10 digits) unit)
        | None => None
        end, afterClockRead st).
Proof.
  intros Hc. unfold parseRelativeDate, bind, newDateNow, ret.
  cbn [String.eqb].
  rewrite (digit_not_other c "t" Hc eq_refl), (digit_not_other c "y" Hc eq_refl),
    (digit_not_other c "l" Hc eq_refl), (digit_not_other c "a" Hc eq_refl),
    (digit_not_other c "n" Hc eq_refl).
  cbn [andb orb]. unfold startOfDay, afterClockRead. reflexivity.
Qed.

Lemma resolve_ago env s digits tail unit st :
  allDigits digits -> digits <> EmptyString -> In (tail, unit) agoForms ->
  Str.trim (Str.toLowerCase s) = digits ++ tail ->
  roamDateToTimestamp env s st
  = Ok (subtractFromDate env (startOfDay env (clock env (clockReads st)))
          (parseInt10 digits) unit, afterClockRead st).
Proof.
  intros Hd Hne Hin Hs. unfold roamDateToTimestamp, bind. rewrite Hs.
  pose proof (matchAgo_form digits tail unit Hd Hne Hin) as Hm.
  destruct digits as [|c digits]; [contradiction|].
  apply allDigits_cons in Hd. destruct Hd as [Hc _].
  change (String c digits ++ tail) with (String c (digits ++ tail)) in *.
  rewrite (parseRelativeDate_digit env c _ st Hc), Hm. reflexivity.
Qed.

Lemma resolve_yesterday env st :
  roamDateToTimestamp env "yesterday" st
  = Ok (JSDate.fromValue
          (jssub (startOfDay env (clock env (clockReads st))) (Num dayMs)),
        afterClockRead st).
Proof. resolve_literal. reflexivity. Qed.

Lemma resolve_last_week env st :
  roamDateToTimestamp env "last week" st
  = Ok (JSDate.fromValue
          (jssub (startOfDay env (clock env (clockReads st))) (Num (7 * dayMs)%Z)),
        afterClockRead st).
Proof. resolve_literal. reflexivity. Qed.

(** X12. [N day(s) ago] and [N week(s) ago], in any case and with
    white space around, resolve to the start of today minus N days, or
    N times seven days, and consume one reading of the clock.  With N = 1
    they are [yesterday] and [last week]. *)
Theorem days_and_weeks_ago (env : Env) (s : string) (n : nat) (plural : bool)
  (st : GenState) :
  let today := startOfDay env (clock env (clockReads st)) in
  (Str.trim (Str.toLowerCase s) = Str.ofNat n ++ " day" ++ pluralS plural ++ " ago" ->
   roamDateToTimestamp env s st
   = Ok (JSDate.fromValue (jssub today (Num (Z.of_nat n * dayMs)%Z)),
         afterClockRead st))
  /\ (Str.trim (Str.toLowerCase s)
      = Str.ofNat n ++ " week" ++ pluralS plural ++ " ago" ->
      roamDateToTimestamp env s st
      = Ok (JSDate.fromValue (jssub today (Num (Z.of_nat n * (7 * dayMs))%Z)),
            afterClockRead st))
  /\ roamDateToTimestamp env "1 day ago" st = roamDateToTimestamp env "yesterday" st
  /\ roamDateToTimestamp env "1 week ago" st = roamDateToTimestamp env "last week" st.
Proof.
  intros today.
  assert (Day_ : forall s n tail, In (tail, "day") agoForms ->
            Str.trim (Str.toLowerCase s) = Str.ofNat n ++ tail ->
            roamDateToTimestamp env s st
            = Ok (JSDate.fromValue (jssub today (Num (Z.of_nat n * dayMs)%Z)),
                  afterClockRead st)).
  { clear s n. intros s n tail Hin Hs. destruct (ofNat_digits n) as [Hd Hne].
    rewrite (resolve_ago env s _ tail "day" st Hd Hne Hin Hs), parseInt10_ofNat.
    unfold subtractFromDate. cbn [String.eqb Ascii.eqb Bool.eqb andb].
    replace (Z.of_nat n * 24 * 60 * 60 * 1000)%Z with (Z.of_nat n * dayMs)%Z
      by (unfold dayMs; lia).
    reflexivity. }
  assert (Week_ : forall s n tail, In (tail, "week") agoForms ->
            Str.trim (Str.toLowerCase s) = Str.ofNat n ++ tail ->
            roamDateToTimestamp env s st
            = Ok (JSDate.fromValue (jssub today (Num (Z.of_nat n * (7 * dayMs))%Z)),
                  afterClockRead st)).
  { clear s n Day_. intros s n tail Hin Hs. destruct (ofNat_digits n) as [Hd Hne].
    rewrite (resolve_ago env s _ tail "week" st Hd Hne Hin Hs), parseInt10_ofNat.
    unfold subtractFromDate. cbn [String.eqb Ascii.eqb Bool.eqb andb].
    replace (Z.of_nat n * 7 * 24 * 60 * 60 * 1000)%Z
      with (Z.of_nat n * (7 * dayMs))%Z by (unfold dayMs; lia).
    reflexivity. }
  assert (Day_1 := fun tail H => Day_ "1 day ago" 1 tail H).
  assert (Week_1 := fun tail H => Week_ "1 week ago" 1 tail H).
  split; [|split; [|split]].
  - intros Hs. destruct plural; apply (Day_ s n _) in Hs; auto; simpl; auto.
  - intros Hs. destruct plural; apply (Week_ s n _) in Hs; auto; simpl; auto 10.
  - rewrite resolve_yesterday. apply (Day_1 " day ago"); simpl; auto.
  - rewrite resolve_last_week. apply (Week_1 " week ago"); simpl; auto.
Qed.

(** Three days ago, written with capitals and spaces around. *)
Lemma days_and_weeks_ago_witness :
  roamDateToTimestamp sampleEnv "  3 Days Ago " freshState
  = Ok (Num (1793664000000 - 3 * 86400000), afterClockRead freshState).
Proof.
  destruct (days_and_weeks_ago sampleEnv "  3 Days Ago " 3 true freshState)
    as (H & _).
  rewrite H by reflexivity. vm_compute. reflexivity.
Defined.

(** ** Dates on a host with a fixed offset *)

Section FixedOffset.
Local Open Scope Z_scope.
Import JSDate.

Variable env : Env.
Variable c : Z.
Hypothesis zone : fixedOffset env c.

Lemma fixedOffset_within : zoneWithinADay env.
Proof. intros t b. destruct zone as [Hc Hz]. now rewrite Hz. Qed.

Lemma Day_of_day d : Day (d * msPerDay) = d.
Proof. unfold Day, msPerDay. apply Z.div_mul. lia. Qed.

Lemma fields_same_day t1 t2 :
  Day t1 = Day t2 ->
  YearFromTime t1 = YearFromTime t2
  /\ MonthFromTime t1 = MonthFromTime t2
  /\ DateFromTime t1 = DateFromTime t2.
Proof.
  intros H.
  unfold DateFromTime, MonthFromTime, InLeapYear, DayWithinYear, YearFromTime.
  now rewrite H.
Qed.

(** The start of today is the last local midnight. *)
Lemma startOfDay_fixed t :
  clockInEra t ->
  startOfDay env t = Num (Day (t + c) * msPerDay - c)
  /\ Day (t + c) * msPerDay - c <= t < Day (t + c) * msPerDay - c + msPerDay.
Proof.
  intros Ht. pose proof Ht as [Ht0 Ht1]. destruct zone as [Hc Hz].
  unfold startOfDay, fromFields, getFullYear, getMonth, getDate.
  rewrite (local_year_not_short env fixedOffset_within t Ht0), MakeDay_fields.
  unfold MakeDate, UTC, LocalTime. rewrite !Hz, Z.add_0_r.
  assert (HD : t + c - msPerDay < Day (t + c) * msPerDay <= t + c).
  { unfold Day, msPerDay. Z.div_mod_to_equations. lia. }
  split; [|lia].
  unfold TimeClip. destruct (_ >? _) eqn:E; [|reflexivity].
  exfalso. apply Z.gtb_lt in E. unfold maxTime, msPerDay in *. lia.
Qed.

(** The local fields of the start of today are those of now. *)
Lemma startOfDay_fields t :
  clockInEra t ->
  let L := LocalTime (LocalTZA env) t in
  getFullYear (LocalTZA env) (startOfDay env t) = Num (YearFromTime L)
  /\ getMonth (LocalTZA env) (startOfDay env t) = Num (MonthFromTime L)
  /\ getDate (LocalTZA env) (startOfDay env t) = Num (DateFromTime L).
Proof.
  intros Ht L. destruct (startOfDay_fixed t Ht) as [-> _].
  destruct zone as [Hc Hz].
  unfold getFullYear, getMonth, getDate, LocalTime in *. subst L.
  rewrite !Hz.
  replace (Day (t + c) * msPerDay - c + c) with (Day (t + c) * msPerDay) by lia.
  destruct (fields_same_day (Day (t + c) * msPerDay) (t + c) (Day_of_day _))
    as (-> & -> & ->).
  auto.
Qed.
End FixedOffset.

Lemma resolve_this_week env st :
  roamDateToTimestamp env "this week" st
  = Ok (JSDate.fromValue
          (jssub (startOfDay env (clock env (clockReads st)))
             (jsmul (JSDate.getDay (LocalTZA env) (Num (clock env (clockReads st))))
                (Num dayMs))),
        afterClockRead st).
Proof. resolve_literal. reflexivity. Qed.

Lemma resolve_last_year env st :
  roamDateToTimestamp env "last year" st
  = Ok (JSDate.fromFields (LocalTZA env)
          (jssub (JSDate.getFullYear (LocalTZA env)
                    (Num (clock env (clockReads st)))) (Num 1%Z))
          (JSDate.getMonth (LocalTZA env) (Num (clock env (clockReads st))))
          (JSDate.getDate (LocalTZA env) (Num (clock env (clockReads st)))),
        afterClockRead st).
Proof. resolve_literal. reflexivity. Qed.

(** X13. On a host whose local time is UTC plus a fixed offset,
    [N month(s) ago] and [N year(s) ago] are calendar subtractions: the
    date with the local year, month and day of now, N taken off the month
    or off the year, as [Date] carries it over.  With N = 1 they are
    [last month] and [last year]. *)
Theorem months_and_years_ago (env : Env) (c : Z) (s : string) (n : nat)
  (plural : bool) (st : GenState) :
  fixedOffset env c ->
  clockInEra (clock env (clockReads st)) ->
  let now := JSDate.LocalTime (LocalTZA env) (clock env (clockReads st)) in
  let year := JSDate.YearFromTime now in
  let month := JSDate.MonthFromTime now in
  let day := JSDate.DateFromTime now in
  (Str.trim (Str.toLowerCase s)
   = Str.ofNat n ++ " month" ++ pluralS plural ++ " ago" ->
   roamDateToTimestamp env s st
   = Ok (JSDate.fromFields (LocalTZA env)
           (Num year) (Num (month - Z.of_nat n)) (Num day),
         afterClockRead st))
  /\ (Str.trim (Str.toLowerCase s)
      = Str.ofNat n ++ " year" ++ pluralS plural ++ " ago" ->
      roamDateToTimestamp env s st
      = Ok (JSDate.fromFields (LocalTZA env)
              (Num (year - Z.of_nat n)) (Num month) (Num day),
            afterClockRead st))
  /\ roamDateToTimestamp env "1 month ago" st
     = roamDateToTimestamp env "last month" st
  /\ roamDateToTimestamp env "1 year ago" st
     = roamDateToTimestamp env "last year" st.
Proof.
  intros zone era now year month day.
  destruct (startOfDay_fields env c zone _ era) as (HY & HM & HD).
  fold now in HY, HM, HD. fold year in HY. fold month in HM. fold day in HD.
  assert (Month_ : forall s n tail, In (tail, "month") agoForms ->
            Str.trim (Str.toLowerCase s) = Str.ofNat n ++ tail ->
            roamDateToTimestamp env s st
            = Ok (JSDate.fromFields (LocalTZA env)
                    (Num year) (Num (month - Z.of_nat n)) (Num day),
                  afterClockRead st)).
  { clear s n. intros s n tail Hin Hs. destruct (ofNat_digits n) as [Hd Hne].
    rewrite (resolve_ago env s _ tail "month" st Hd Hne Hin Hs), parseInt10_ofNat.
    unfold subtractFromDate. cbn [String.eqb Ascii.eqb Bool.eqb andb].
    rewrite HY, HM, HD. reflexivity. }
  assert (Year_ : forall s n tail, In (tail, "year") agoForms ->
            Str.trim (Str.toLowerCase s) = Str.ofNat n ++ tail ->
            roamDateToTimestamp env s st
            = Ok (JSDate.fromFields (LocalTZA env)
                    (Num (year - Z.of_nat n)) (Num month) (Num day),
                  afterClockRead st)).
  { clear s n Month_. intros s n tail Hin Hs. destruct (ofNat_digits n) as [Hd Hne].
    rewrite (resolve_ago env s _ tail "year" st Hd Hne Hin Hs), parseInt10_ofNat.
    unfold subtractFromDate. cbn [String.eqb Ascii.eqb Bool.eqb andb].
    rewrite HY, HM, HD. reflexivity. }
  assert (Month_1 := fun tail H => Month_ "1 month ago" 1%nat tail H).
  assert (Year_1 := fun tail H => Year_ "1 year ago" 1%nat tail H).
  split; [|split; [|split]].
  - intros Hs. destruct plural; apply (Month_ s n _) in Hs; auto; simpl; auto 10.
  - intros Hs. destruct plural; apply (Year_ s n _) in Hs; auto; simpl; auto 10.
  - rewrite resolve_last_month. unfold sameDayLastMonth.
    apply (Month_1 " month ago"); simpl; auto 10.
  - rewrite resolve_last_year. apply (Year_1 " year ago"); simpl; auto 10.
Qed.

(** On the host of the examples, on 3 November 2026: three months ago
    is 3 August 2026. *)
Lemma months_and_years_ago_witness :
  roamDateToTimestamp sampleEnv " 3 Months ago" freshState
  = Ok (Num 1785715200000, afterClockRead freshState).
Proof.
  assert (Z0 : fixedOffset sampleEnv 0).
  { split; [reflexivity|]. intros t b. reflexivity. }
  assert (E0 : clockInEra (clock sampleEnv (clockReads freshState))).
  { unfold clockInEra; simpl; lia. }
  destruct (months_and_years_ago sampleEnv 0 " 3 Months ago" 3 true freshState Z0 E0)
    as (H & _).
  rewrite H by reflexivity. vm_compute. reflexivity.
Defined.

(** X14. On a host whose local time is UTC plus a fixed offset, [today]
    is the last local midnight: at most now, less than a day before.
    [this week] is the local midnight that began the last Sunday: a whole
    number of days before [today], less than seven. *)
Theorem today_and_this_week (env : Env) (c : Z) (st : GenState) :
  fixedOffset env c ->
  clockInEra (clock env (clockReads st)) ->
  let now := clock env (clockReads st) in
  exists today sunday,
    roamDateToTimestamp env "today" st = Ok (Num today, afterClockRead st)
    /\ roamDateToTimestamp env "this week" st = Ok (Num sunday, afterClockRead st)
    /\ (today <= now < today + JSDate.msPerDay)%Z
    /\ ((today + c) mod JSDate.msPerDay = 0)%Z
    /\ JSDate.WeekDay (JSDate.LocalTime (LocalTZA env) sunday) = 0%Z
    /\ (exists k, 0 <= k <= 6 /\ today - sunday = k * JSDate.msPerDay)%Z.
Proof.
  intros zone era now.
  destruct (startOfDay_fixed env c zone now era) as [E B].
  rewrite resolve_today, resolve_this_week. fold now. rewrite E.
  destruct zone as [Hc Hz].
  set (d := JSDate.Day (now + c)) in *.
  exists (d * JSDate.msPerDay - c)%Z.
  exists (d * JSDate.msPerDay - c - JSDate.WeekDay (now + c) * JSDate.msPerDay)%Z.
  assert (W : (0 <= JSDate.WeekDay (now + c) <= 6)%Z).
  { unfold JSDate.WeekDay. Z.div_mod_to_equations. lia. }
  split; [reflexivity|]. split; [|split; [exact B|split; [|split]]].
  - unfold JSDate.getDay, JSDate.LocalTime, jsmul, jssub, JSDate.fromValue.
    rewrite Hz. change dayMs with JSDate.msPerDay.
    unfold JSDate.TimeClip. destruct (_ >? _)%Z eqn:G; [|reflexivity].
    exfalso. apply Z.gtb_lt in G. destruct era as [e0 e1].
    unfold JSDate.maxTime, JSDate.msPerDay in *. fold now in e0, e1. lia.
  - replace (d * JSDate.msPerDay - c + c)%Z with (d * JSDate.msPerDay)%Z by lia.
    apply Z.mod_mul. unfold JSDate.msPerDay. lia.
  - unfold JSDate.LocalTime. rewrite Hz.
    replace (d * JSDate.msPerDay - c
             - JSDate.WeekDay (now + c) * JSDate.msPerDay + c)%Z
      with ((d - JSDate.WeekDay (now + c)) * JSDate.msPerDay)%Z by lia.
    unfold JSDate.WeekDay at 1. rewrite Day_of_day.
    unfold JSDate.WeekDay. fold d. Z.div_mod_to_equations. lia.
  - exists (JSDate.WeekDay (now + c)). split; [exact W|lia].
Qed.

(** On the host of the examples: 3 November 2026 is a Tuesday, the week
    began two days earlier. *)
Lemma today_and_this_week_witness :
  exists today sunday,
    roamDateToTimestamp sampleEnv "today" freshState
      = Ok (Num today, afterClockRead freshState)
    /\ roamDateToTimestamp sampleEnv "this week" freshState
      = Ok (Num sunday, afterClockRead freshState)
    /\ (today - sunday = 2 * JSDate.msPerDay)%Z.
Proof.
  assert (Z0 : fixedOffset sampleEnv 0).
  { split; [reflexivity|]. intros t b. reflexivity. }
  assert (E0 : clockInEra (clock sampleEnv (clockReads freshState))).
  { unfold clockInEra; simpl; lia. }
  destruct (today_and_this_week sampleEnv 0 freshState Z0 E0)
    as (today & sunday & H1 & H2 & _).
  exists today, sunday. split; [exact H1|]. split; [exact H2|].
  rewrite resolve_today in H1. rewrite resolve_this_week in H2.
  vm_compute in H1, H2. injection H1 as <-. injection H2 as <-. reflexivity.
Defined.

(** X15. The range [N days ago] to [today], for every N, on a host
    whose local time is UTC plus a fixed offset and whose clock does not
    run backwards.  The end is a number, at least one day less a
    millisecond after the start of today.  The start is the start of
    today minus N days when that instant lies within the range of [Date]
    (at most 8.64e15 milliseconds before the epoch): the end is then at
    least N days, and one day less a millisecond, after the start.  For
    a larger N the start is [NaN], and the query is built all the same. *)
Theorem between_days_ago_spans (env : Env) (c : Z) (s : string) (n : nat)
  (st : GenState) :
  fixedOffset env c ->
  clockInEra (clock env (clockReads st)) ->
  clockInEra (clock env (S (clockReads st))) ->
  (clock env (clockReads st) <= clock env (S (clockReads st)))%Z ->
  Str.trim (Str.toLowerCase s) = Str.ofNat n ++ " days ago" ->
  exists clauses st' today start endTs,
    startOfDay env (clock env (clockReads st)) = Num today
    /\ generate env (Between s "today") st = Ok (clauses, st')
    /\ inputValues clauses = [VNum start; VNum (Num endTs)]
    /\ (today + (dayMs - 1) <= endTs)%Z
    /\ ((Z.of_nat n * dayMs <= today + JSDate.maxTime)%Z ->
        start = Num (today - Z.of_nat n * dayMs))
    /\ ((today + JSDate.maxTime < Z.of_nat n * dayMs)%Z -> start = NaN)
    /\ (forall startTs, start = Num startTs ->
        (Z.of_nat n * dayMs + (dayMs - 1) <= endTs - startTs)%Z).
Proof.
  intros zone era1 era2 mono Hs.
  destruct (ofNat_digits n) as [Hd Hne].
  destruct (startOfDay_fixed env c zone _ era1) as [E1 B1].
  destruct (startOfDay_fixed env c zone _ era2) as [E2 B2].
  unfold generate.
  change (generateNode env (Between s "today") "?b" ?x)
    with (generateBetween env s "today" "?b" x).
  unfold generateBetween, bind, nextInput, ret.
  cbn [inputCounter refCounter clockReads].
  rewrite (resolve_ago env s _ " days ago" "day" _ Hd Hne); [|simpl; auto|exact Hs].
  rewrite resolve_today. cbn [inputCounter refCounter clockReads afterClockRead].
  rewrite parseInt10_ofNat, E1, E2.
  unfold subtractFromDate. cbn [String.eqb Ascii.eqb Bool.eqb andb].
  unfold jssub, JSDate.fromValue, jsadd.
  set (t1 := clock env (clockReads st)) in *.
  set (t2 := clock env (S (clockReads st))) in *.
  assert (M : (JSDate.Day (t1 + c) <= JSDate.Day (t2 + c))%Z).
  { unfold JSDate.Day, JSDate.msPerDay. apply Z.div_le_mono; lia. }
  destruct era1 as [a0 a1]. destruct era2 as [b0 b1].
  destruct zone as [Hc _].
  set (today := (JSDate.Day (t1 + c) * JSDate.msPerDay - c)%Z) in *.
  assert (T0 : (- JSDate.msPerDay < today <= 253402300799999)%Z) by lia.
  assert (N0 : (0 <= Z.of_nat n)%Z) by lia.
  eexists _, _, today, _, _.
  split; [reflexivity|]. split; [reflexivity|]. split; [reflexivity|].
  split; [unfold dayMs, JSDate.msPerDay in *; lia|].
  unfold JSDate.TimeClip.
  replace (Z.of_nat n * 24 * 60 * 60 * 1000)%Z with (Z.of_nat n * dayMs)%Z
    by (unfold dayMs; lia).
  destruct (_ >? _)%Z eqn:G.
  - apply Z.gtb_lt in G. split; [|split]; [|reflexivity|discriminate].
    intros H. exfalso.
    unfold JSDate.maxTime, JSDate.msPerDay, dayMs in *. lia.
  - assert (G' : (Z.abs (today - Z.of_nat n * dayMs) <= JSDate.maxTime)%Z).
    { destruct (Z.gtb_spec (Z.abs (today - Z.of_nat n * dayMs)) JSDate.maxTime);
        [discriminate G|assumption]. }
    split; [reflexivity|]. split.
    + intros H. exfalso. lia.
    + intros startTs [= <-]. unfold dayMs, JSDate.msPerDay in *. lia.
Qed.

(** The last seven days on the host of the examples. *)
Lemma between_days_ago_spans_witness :
  exists clauses st' startTs endTs,
    generate sampleEnv (Between "7 Days Ago" "today") freshState = Ok (clauses, st')
    /\ inputValues clauses = [VNum (Num startTs); VNum (Num endTs)]
    /\ (Z.of_nat 7 * dayMs + (dayMs - 1) <= endTs - startTs)%Z.
Proof.
  destruct (between_days_ago_spans sampleEnv 0 "7 Days Ago" 7 freshState)
    as (clauses & st' & today & start & endTs & T & G & I & _ & S1 & _ & S2).
  - split; [reflexivity|]. intros t b. reflexivity.
  - unfold clockInEra; simpl; lia.
  - unfold clockInEra; simpl; lia.
  - simpl; lia.
  - reflexivity.
  - exists clauses, st', (today - Z.of_nat 7 * dayMs)%Z, endTs.
    assert (E : start = Num (today - Z.of_nat 7 * dayMs)).
    { apply S1. vm_compute in T. injection T as <-. vm_compute. discriminate. }
    split; [exact G|]. split; [rewrite I, E; reflexivity|].
    apply S2. exact E.
Defined.

(** A number of days that reaches before the range of [Date]: the start
    is [NaN], the end is the last millisecond of today. *)
Example between_beyond_date_range :
  match generate sampleEnv (Between "100020761 days ago" "today") freshState with
  | Ok (clauses, _) => Some (inputValues clauses)
  | Throw _ => None
  end = Some [VNum NaN; VNum (Num (1793664000000 + 86399999))].
Proof. vm_compute. reflexivity. Qed.

(** ** Ordinal suffixes *)

Lemma noDigit_cons c s :
  noDigit (String c s) <-> Str.isDigit c = false /\ noDigit s.
Proof.
  unfold noDigit; simpl. split.
  - intros H; inversion H; auto.
  - intros [H1 H2]; constructor; auto.
Qed.

Lemma ordinalAt_noDigit c s : Str.isDigit c = false -> ordinalAt (String c s) = None.
Proof. intros H. unfold ordinalAt. cbn [span]. now rewrite H. Qed.

Lemma substring_drop2 a b rest :
  substring 2 (String.length (String a (String b rest)) - 2) (String a (String b rest))
  = rest.
Proof.
  cbn [String.length Nat.sub substring]. rewrite Nat.sub_0_r. apply substring_full.
Qed.

(** X16. Before a date goes to [Date], the first ordinal suffix is
    removed: in a text whose first digits are directly followed by [st],
    [nd], [rd] or [th], these two letters go and everything else stays,
    later ordinals included; a text without a digit is left as it is. *)
Theorem stripOrdinal_first_suffix (before digits suffix rest : string) :
  noDigit before ->
  allDigits digits -> digits <> EmptyString ->
  In suffix ordinalSuffixes ->
  stripOrdinal (before ++ digits ++ suffix ++ rest) = before ++ digits ++ rest
  /\ stripOrdinal before = before.
Proof.
  intros Hb Hd Hne Hs. split.
  - induction before as [|b before IH].
    + cbn [append].
      assert (O : ordinalAt (digits ++ suffix ++ rest) = Some (digits ++ rest)).
      { unfold ordinalAt.
        assert (Sp : span Str.isDigit (digits ++ suffix ++ rest)
                     = (digits, suffix ++ rest)).
        { apply span_app; [exact Hd|]. simpl in Hs.
          repeat (destruct Hs as [Hs|Hs]; [subst suffix; reflexivity|]).
          destruct Hs. }
        rewrite Sp. destruct digits as [|d digits]; [contradiction|].
        cbn [isEmpty]. simpl in Hs.
        repeat (destruct Hs as [Hs|Hs];
                [subst suffix; cbn [append]; rewrite substring_drop2;
                 cbn [prefix Ascii.eqb Bool.eqb andb orb];
                 destruct rest; reflexivity|]).
        destruct Hs. }
      destruct (digits ++ suffix ++ rest) eqn:E; cbn [stripOrdinal]; now rewrite O.
    + apply noDigit_cons in Hb. destruct Hb as [Hc Hb].
      cbn [append stripOrdinal]. rewrite (ordinalAt_noDigit b _ Hc), (IH Hb).
      reflexivity.
  - clear - Hb. induction before as [|b before IH]; [reflexivity|].
    apply noDigit_cons in Hb. destruct Hb as [Hc Hb].
    cbn [stripOrdinal]. rewrite (ordinalAt_noDigit b _ Hc), (IH Hb). reflexivity.
Qed.

(** A daily-note title. *)
Lemma stripOrdinal_first_suffix_witness :
  stripOrdinal "January 21st, 2026" = "January 21, 2026".
Proof.
  apply (stripOrdinal_first_suffix "January " "21" "st" ", 2026").
  - repeat constructor.
  - repeat constructor.
  - discriminate.
  - simpl; auto.
Defined.

(** ** The generated text and the host *)

(** Two generations of the same children, on two hosts, from states
    with the same counters. *)
Lemma generateEach_where env1 env2 blockVar children :
  Forall (fun child => forall st1 st2,
            refCounter st1 = refCounter st2 ->
            inputCounter st1 = inputCounter st2 ->
            match generateNode env1 child blockVar st1,
                  generateNode env2 child blockVar st2 with
            | Ok (c1, _), Ok (c2, _) => where_ c1 = where_ c2
            | _, _ => True
            end) children ->
  forall st1 st2,
    refCounter st1 = refCounter st2 ->
    inputCounter st1 = inputCounter st2 ->
    match generateEach (fun child => generateNode env1 child blockVar) children st1,
          generateEach (fun child => generateNode env2 child blockVar) children st2 with
    | Ok (cs1, _), Ok (cs2, _) => map where_ cs1 = map where_ cs2
    | _, _ => True
    end.
Proof.
  induction 1 as [|child rest Hc _ IH]; intros st1 st2 Hr Hi; simpl.
  - reflexivity.
  - unfold bind. specialize (Hc st1 st2 Hr Hi).
    pose proof (refCounter_generateNode env1 blockVar child st1) as R1.
    pose proof (refCounter_generateNode env2 blockVar child st2) as R2.
    pose proof (generateNode_inputsOf env1 blockVar child st1) as I1.
    pose proof (generateNode_inputsOf env2 blockVar child st2) as I2.
    destruct (generateNode env1 child blockVar st1) as [[c1 s1]|e1];
      destruct (generateNode env2 child blockVar st2) as [[c2 s2]|e2]; auto.
    + destruct I1 as (_ & _ & I1 & _). destruct I2 as (_ & _ & I2 & _).
      assert (Hr' : refCounter s1 = refCounter s2) by lia.
      assert (Hi' : inputCounter s1 = inputCounter s2) by lia.
      specialize (IH s1 s2 Hr' Hi').
      destruct (generateEach _ rest s1) as [[cs1 t1]|e1]; [|exact I].
      destruct (generateEach _ rest s2) as [[cs2 t2]|e2]; [|exact I].
      simpl. now rewrite Hc, IH.
    + destruct (generateEach _ rest s1) as [[cs1 t1]|e1]; auto.
Qed.

Lemma generateNode_where env1 env2 blockVar node : forall st1 st2,
  refCounter st1 = refCounter st2 ->
  inputCounter st1 = inputCounter st2 ->
  match generateNode env1 node blockVar st1,
        generateNode env2 node blockVar st2 with
  | Ok (c1, _), Ok (c2, _) => where_ c1 = where_ c2
  | _, _ => True
  end.
Proof.
  induction node as [children IH|children IH|child IH| | | | | | | | ]
    using QueryNode_nested_ind; intros st1 st2 Hr Hi; try reflexivity.
  - cbn [generateNode]. rewrite !generateAnd_each.
    pose proof (generateEach_where env1 env2 blockVar children IH st1 st2 Hr Hi) as H.
    destruct (generateEach _ children st1) as [[cs1 t1]|e1]; [|exact I].
    destruct (generateEach _ children st2) as [[cs2 t2]|e2]; [|exact I].
    simpl. now rewrite H.
  - cbn [generateNode]. rewrite !generateOr_each.
    pose proof (generateEach_where env1 env2 blockVar children IH st1 st2 Hr Hi) as H.
    destruct (generateEach _ children st1) as [[cs1 t1]|e1]; [|exact I].
    destruct (generateEach _ children st2) as [[cs2 t2]|e2]; [|exact I].
    simpl. rewrite <- !(map_map where_ oneOrGroup). now rewrite H.
  - cbn [generateNode]. unfold generateNot, bind. specialize (IH st1 st2 Hr Hi).
    destruct (generateNode env1 child blockVar st1) as [[c1 s1]|e1];
      destruct (generateNode env2 child blockVar st2) as [[c2 s2]|e2]; simpl; auto.
    now rewrite IH.
  - cbn [generateNode]. unfold generateBetween, bind, nextInput, ret.
    cbn [inputCounter].
    destruct (roamDateToTimestamp env1 startDate _) as [[a1 s1]|e1]; [|exact I].
    destruct (roamDateToTimestamp env1 endDate s1) as [[b1 s1']|e1]; [|exact I].
    destruct (roamDateToTimestamp env2 startDate _) as [[a2 s2]|e2]; [|exact I].
    destruct (roamDateToTimestamp env2 endDate s2) as [[b2 s2']|e2]; [|exact I].
    cbn [where_]. now rewrite Hi.
  - simpl. now rewrite Hr.
  - simpl. now rewrite Hr.
Qed.

(** X17. The text of a query is fixed by the AST: generated on two
    hosts (clocks, time zones, [Date] parsers) and whatever was generated
    before on the same generator, the fragments and the input names are
    the same, hence the text of the built query; the host enters through
    the input values only.  An AST without a between node gives the same
    clause set everywhere, never fails, and leaves the clock unread. *)
Theorem query_text_fixed_by_ast (env1 env2 : Env) (node : QueryNode)
  (st1 st2 : GenState) :
  match generate env1 node st1, generate env2 node st2 with
  | Ok (c1, _), Ok (c2, _) =>
      where_ c1 = where_ c2
      /\ inputs c1 = inputs c2
      /\ (forall options,
            query (buildDatalogQuery c1 options) = query (buildDatalogQuery c2 options))
      /\ (forall pageUid,
            query (buildCountQuery c1 pageUid) = query (buildCountQuery c2 pageUid))
  | _, _ => True
  end
  /\ (betweenNodes node = 0 ->
      exists clauses,
        generate env1 node st1
          = Ok (clauses, mkGenState (refNodes node) 0 (clockReads st1))
        /\ generate env2 node st2
          = Ok (clauses, mkGenState (refNodes node) 0 (clockReads st2))).
Proof.
  unfold generate.
  set (s1 := mkGenState 0 0 (clockReads st1)).
  set (s2 := mkGenState 0 0 (clockReads st2)).
  pose proof (generateNode_where env1 env2 "?b" node s1 s2 eq_refl eq_refl) as W.
  pose proof (generateNode_inputsOf env1 "?b" node s1) as I1.
  pose proof (generateNode_inputsOf env2 "?b" node s2) as I2.
  pose proof (refCounter_generateNode env1 "?b" node s1) as R1.
  pose proof (refCounter_generateNode env2 "?b" node s2) as R2.
  pose proof (generateNode_throw env1 node "?b" s1) as T1.
  pose proof (generateNode_throw env2 node "?b" s2) as T2.
  pose proof (betweenDates_length node) as L.
  assert (Same : forall c1 c2 : DatalogClauses,
            where_ c1 = where_ c2 -> inputs c1 = inputs c2 ->
            (forall options,
               query (buildDatalogQuery c1 options)
               = query (buildDatalogQuery c2 options))
            /\ (forall pageUid,
                  query (buildCountQuery c1 pageUid)
                  = query (buildCountQuery c2 pageUid))).
  { intros c1 c2 Hw Hi. split; intros o.
    - unfold buildDatalogQuery, allWhereClauses, inClause. cbn [query].
      now rewrite Hw, Hi.
    - unfold buildCountQuery, countWhereClauses, inClause. cbn [query].
      now rewrite Hw, Hi. }
  split.
  - destruct (generateNode env1 node "?b" s1) as [[c1 t1]|e1]; [|exact I].
    destruct (generateNode env2 node "?b" s2) as [[c2 t2]|e2]; [|exact I].
    destruct I1 as (I1 & _). destruct I2 as (I2 & _).
    assert (Hi : inputs c1 = inputs c2) by (now rewrite I1, I2).
    split; [exact W|]. split; [exact Hi|]. now apply Same.
  - intros Hz. rewrite Hz in *.
    destruct (generateNode env1 node "?b" s1) as [[c1 t1]|e1].
    2:{ destruct T1 as (d & Hd & _). destruct (betweenDates node);
          [destruct Hd|discriminate L]. }
    destruct (generateNode env2 node "?b" s2) as [[c2 t2]|e2].
    2:{ destruct T2 as (d & Hd & _). destruct (betweenDates node);
          [destruct Hd|discriminate L]. }
    destruct I1 as (I1 & V1 & N1 & K1). destruct I2 as (I2 & V2 & N2 & K2).
    rewrite Hz in *.
    destruct c1 as [w1 i1 v1], c2 as [w2 i2 v2]. cbn [where_ inputs inputValues] in *.
    destruct v1; [|simpl in V1; discriminate V1].
    destruct v2; [|simpl in V2; discriminate V2].
    destruct t1 as [r1 n1 k1], t2 as [r2 n2 k2].
    subst s1 s2. cbn [refCounter inputCounter clockReads] in *.
    exists (mkClauses w1 i1 []). subst. split; repeat f_equal; lia.
Qed.

(** ** The named dates *)

Section CalendarSteps.
Local Open Scope Z_scope.
Import JSDate.

Lemma InLeapYear_range t : 0 <= InLeapYear t <= 1.
Proof. unfold InLeapYear. destruct (isLeapYear _); lia. Qed.

Lemma DayWithinYear_nonneg t : 0 <= DayWithinYear t.
Proof.
  unfold DayWithinYear, YearFromTime.
  pose proof (yearFromDay_correct (Day t)). lia.
Qed.

(** The day of the month is at least 1. *)
Lemma DateFromTime_positive t : 1 <= DateFromTime t.
Proof.
  unfold DateFromTime, MonthFromTime.
  pose proof (DayWithinYear_nonneg t) as H0.
  pose proof (InLeapYear_range t) as Hl.
  set (dw := DayWithinYear t) in *. set (leap := InLeapYear t) in *.
  repeat match goal with
         | |- context [if ?a <? ?b then _ else _] =>
             destruct (Z.ltb_spec a b)
         end;
    cbv [monthStart Z.eqb Pos.eqb]; lia.
Qed.

Lemma monthStart_nonneg leap m : 0 <= leap -> 0 <= monthStart leap m.
Proof.
  intros H. unfold monthStart.
  repeat match goal with
         | |- context [?a =? ?b] => destruct (Z.eqb_spec a b); try lia
         end.
Qed.

(** The same day of the month after is 28 to 31 days later. *)
Lemma MakeDay_next_month y m d :
  0 <= m <= 11 -> 28 <= MakeDay y (m + 1) d - MakeDay y m d <= 31.
Proof.
  intros Hm. destruct (Z.eq_dec m 11) as [->|Hne].
  - unfold MakeDay.
    change ((11 + 1) / 12) with 1. change ((11 + 1) mod 12) with 0.
    change (11 / 12) with 0. change (11 mod 12) with 11.
    rewrite !Z.add_0_r, DayFromYear_succ. unfold DaysInYear.
    destruct (isLeapYear y); destruct (isLeapYear (y + 1));
      cbv [monthStart Z.eqb Pos.eqb]; lia.
  - pose proof (MakeDay_previous_month y (m + 1) d) as H.
    replace (m + 1 - 1) with m in H by lia. apply H. lia.
Qed.

(** The same day of the year after is 365 or 366 days later. *)
Lemma MakeDay_next_year y m d :
  0 <= m <= 11 -> 365 <= MakeDay (y + 1) m d - MakeDay y m d <= 366.
Proof.
  intros Hm. unfold MakeDay.
  replace (m / 12) with 0 by (Z.div_mod_to_equations; lia).
  replace (m mod 12) with m by (Z.div_mod_to_equations; lia).
  rewrite !Z.add_0_r, DayFromYear_succ. unfold DaysInYear, monthStart.
  destruct (isLeapYear y); destruct (isLeapYear (y + 1));
    repeat match goal with
           | |- context [?a =? ?b] => destruct (Z.eqb_spec a b); try lia
           end.
Qed.

(** The first of the month and the first of the year. *)
Lemma MakeDay_first y m dt :
  0 <= m <= 11 -> 1 <= dt ->
  MakeDay y 0 1 <= MakeDay y m 1 <= MakeDay y m dt.
Proof.
  intros Hm Hd. unfold MakeDay.
  replace (m / 12) with 0 by (Z.div_mod_to_equations; lia).
  replace (m mod 12) with m by (Z.div_mod_to_equations; lia).
  change (0 / 12) with 0. change (0 mod 12) with 0. rewrite !Z.add_0_r.
  pose proof (monthStart_nonneg (if isLeapYear y then 1 else 0) m) as H.
  change (monthStart (if isLeapYear y then 1 else 0) 0) with 0.
  destruct (isLeapYear y); lia.
Qed.
End CalendarSteps.

Lemma resolve_tomorrow env st :
  roamDateToTimestamp env "tomorrow" st
  = Ok (JSDate.fromValue
          (jsadd (startOfDay env (clock env (clockReads st))) (Num dayMs)),
        afterClockRead st).
Proof. resolve_literal. reflexivity. Qed.

Lemma resolve_next_week env st :
  roamDateToTimestamp env "next week" st
  = Ok (JSDate.fromValue
          (jsadd (startOfDay env (clock env (clockReads st))) (Num (7 * dayMs)%Z)),
        afterClockRead st).
Proof. resolve_literal. reflexivity. Qed.

Lemma resolve_next_month env st :
  roamDateToTimestamp env "next month" st
  = Ok (JSDate.fromFields (LocalTZA env)
          (JSDate.getFullYear (LocalTZA env) (Num (clock env (clockReads st))))
          (jsadd (JSDate.getMonth (LocalTZA env)
                    (Num (clock env (clockReads st)))) (Num 1%Z))
          (JSDate.getDate (LocalTZA env) (Num (clock env (clockReads st)))),
        afterClockRead st).
Proof. resolve_literal. reflexivity. Qed.

Lemma resolve_next_year env st :
  roamDateToTimestamp env "next year" st
  = Ok (JSDate.fromFields (LocalTZA env)
          (jsadd (JSDate.getFullYear (LocalTZA env)
                    (Num (clock env (clockReads st)))) (Num 1%Z))
          (JSDate.getMonth (LocalTZA env) (Num (clock env (clockReads st))))
          (JSDate.getDate (LocalTZA env) (Num (clock env (clockReads st)))),
        afterClockRead st).
Proof. resolve_literal. reflexivity. Qed.

Lemma resolve_this_month env st :
  roamDateToTimestamp env "this month" st
  = Ok (JSDate.fromFields (LocalTZA env)
          (JSDate.getFullYear (LocalTZA env) (Num (clock env (clockReads st))))
          (JSDate.getMonth (LocalTZA env) (Num (clock env (clockReads st))))
          (Num 1%Z),
        afterClockRead st).
Proof. resolve_literal. reflexivity. Qed.

Lemma resolve_this_year env st :
  roamDateToTimestamp env "this year" st
  = Ok (JSDate.fromFields (LocalTZA env)
          (JSDate.getFullYear (LocalTZA env) (Num (clock env (clockReads st))))
          (Num 0%Z) (Num 1%Z),
        afterClockRead st).
Proof. resolve_literal. reflexivity. Qed.

Section NamedDates.
Local Open Scope Z_scope.
Import JSDate.

Variable env : Env.
Variable c : Z.
Hypothesis zone : fixedOffset env c.

(** [new Date(y, m, d)] on a host with a fixed offset. *)
Lemma fromFields_fixed y m dt :
  100 <= y -> Z.abs (MakeDay y m dt) <= 10000000 ->
  fromFields (LocalTZA env) (Num y) (Num m) (Num dt)
  = Num (MakeDay y m dt * msPerDay - c).
Proof.
  intros Hy Hd. destruct zone as [Hc Hz]. unfold fromFields.
  replace ((0 <=? y) && (y <=? 99)) with false
    by (symmetry; apply andb_false_iff; right; apply Z.leb_gt; lia).
  unfold MakeDate, UTC. rewrite Hz, Z.add_0_r.
  unfold TimeClip. destruct (_ >? _) eqn:G; [|reflexivity].
  exfalso. apply Z.gtb_lt in G. unfold maxTime, msPerDay in *. lia.
Qed.

Lemma fromValue_day d :
  Z.abs d <= 10000000 ->
  fromValue (Num (d * msPerDay - c)) = Num (d * msPerDay - c).
Proof.
  intros Hd. destruct zone as [Hc Hz]. unfold fromValue, TimeClip.
  destruct (_ >? _) eqn:G; [|reflexivity].
  exfalso. apply Z.gtb_lt in G. unfold maxTime, msPerDay in *. lia.
Qed.

(** The local day, year, month and day of the month of a reading of
    the clock. *)
Lemma local_fields t :
  clockInEra t ->
  let L := LocalTime (LocalTZA env) t in
  -1 <= Day L <= 2932898
  /\ 1968 <= YearFromTime L
  /\ 0 <= MonthFromTime L <= 11
  /\ 1 <= DateFromTime L
  /\ MakeDay (YearFromTime L) (MonthFromTime L) (DateFromTime L) = Day L
  /\ Day L - 366 <= MakeDay (YearFromTime L) 0 1.
Proof.
  intros [Ht0 Ht1] L. destruct zone as [Hc Hz].
  assert (HL : L = t + c) by (unfold L, LocalTime; now rewrite Hz).
  assert (HD : -1 <= Day L <= 2932898).
  { rewrite HL. unfold Day, msPerDay in *. Z.div_mod_to_equations. lia. }
  split; [exact HD|]. split.
  - unfold YearFromTime. apply yearFromDay_lower. lia.
  - split; [apply MonthFromTime_range|].
    split; [apply DateFromTime_positive|]. split; [apply MakeDay_fields|].
    unfold MakeDay, YearFromTime.
    change (0 / 12) with 0. change (0 mod 12) with 0.
    change (monthStart (if isLeapYear (yearFromDay (Day L) + 0) then 1 else 0) 0)
      with 0.
    rewrite !Z.add_0_r.
    pose proof (yearFromDay_correct (Day L)) as Hy.
    rewrite DayFromYear_succ in Hy.
    pose proof (DaysInYear_range (yearFromDay (Day L))). lia.
Qed.
End NamedDates.

(** X18. On a host whose local time is UTC plus a fixed offset, the
    named dates resolve to numbers that lie in the order their names
    say: last year, last month, last week, yesterday, today, tomorrow,
    next week, next month, next year, each strictly before the next; and
    the start of this year is at most the start of this month, which is
    at most today. *)
Theorem named_dates_in_order (env : Env) (c : Z) (st : GenState) :
  fixedOffset env c ->
  clockInEra (clock env (clockReads st)) ->
  let resolves := fun name v =>
    roamDateToTimestamp env name st = Ok (Num v, afterClockRead st) in
  exists lastYear lastMonth lastWeek yesterday today tomorrow
         nextWeek nextMonth nextYear thisYear thisMonth,
    resolves "last year" lastYear /\ resolves "last month" lastMonth
    /\ resolves "last week" lastWeek /\ resolves "yesterday" yesterday
    /\ resolves "today" today /\ resolves "tomorrow" tomorrow
    /\ resolves "next week" nextWeek /\ resolves "next month" nextMonth
    /\ resolves "next year" nextYear
    /\ resolves "this year" thisYear /\ resolves "this month" thisMonth
    /\ (lastYear < lastMonth < lastWeek)%Z
    /\ (lastWeek < yesterday < today)%Z
    /\ (today < tomorrow < nextWeek)%Z
    /\ (nextWeek < nextMonth < nextYear)%Z
    /\ (thisYear <= thisMonth <= today)%Z.
Proof.
  intros zone era resolves. subst resolves. cbv beta.
  destruct (local_fields env c zone _ era) as (HD & HY & HM & HDt & HF & HJ).
  destruct (startOfDay_fixed env c zone _ era) as [E _].
  rewrite resolve_last_year, resolve_last_month, resolve_last_week,
    resolve_yesterday, resolve_today, resolve_tomorrow, resolve_next_week,
    resolve_next_month, resolve_next_year, resolve_this_year, resolve_this_month.
  unfold sameDayLastMonth. rewrite E.
  unfold JSDate.getFullYear, JSDate.getMonth, JSDate.getDate, jssub, jsadd.
  set (L := JSDate.LocalTime (LocalTZA env) (clock env (clockReads st))) in *.
  assert (EL : (clock env (clockReads st) + c)%Z = L).
  { unfold L, JSDate.LocalTime. destruct zone as [_ Hz]. now rewrite Hz. }
  rewrite EL.
  set (Y := JSDate.YearFromTime L) in *. set (M := JSDate.MonthFromTime L) in *.
  set (Dt := JSDate.DateFromTime L) in *. set (d := JSDate.Day L) in *.
  pose proof (MakeDay_previous_month Y M Dt HM) as Pm.
  pose proof (MakeDay_next_month Y M Dt HM) as Nm.
  pose proof (MakeDay_next_year Y M Dt HM) as Ny.
  pose proof (MakeDay_next_year (Y - 1) M Dt HM) as Py.
  replace (Y - 1 + 1)%Z with Y in Py by lia.
  pose proof (MakeDay_first Y M Dt HM HDt) as Fi.
  rewrite HF in *.
  rewrite (fromFields_fixed env c zone (Y - 1) M Dt); [|lia|lia].
  rewrite (fromFields_fixed env c zone Y (M - 1) Dt); [|lia|lia].
  rewrite (fromFields_fixed env c zone Y (M + 1) Dt); [|lia|lia].
  rewrite (fromFields_fixed env c zone (Y + 1) M Dt); [|lia|lia].
  rewrite (fromFields_fixed env c zone Y 0 1); [|lia|lia].
  rewrite (fromFields_fixed env c zone Y M 1); [|lia|lia].
  replace (d * JSDate.msPerDay - c - dayMs)%Z
    with ((d - 1) * JSDate.msPerDay - c)%Z by (unfold dayMs, JSDate.msPerDay; lia).
  replace (d * JSDate.msPerDay - c - 7 * dayMs)%Z
    with ((d - 7) * JSDate.msPerDay - c)%Z by (unfold dayMs, JSDate.msPerDay; lia).
  replace (d * JSDate.msPerDay - c + dayMs)%Z
    with ((d + 1) * JSDate.msPerDay - c)%Z by (unfold dayMs, JSDate.msPerDay; lia).
  replace (d * JSDate.msPerDay - c + 7 * dayMs)%Z
    with ((d + 7) * JSDate.msPerDay - c)%Z by (unfold dayMs, JSDate.msPerDay; lia).
  rewrite !(fromValue_day env c zone) by lia.
  do 11 eexists.
  repeat (split; [reflexivity|]).
  unfold JSDate.msPerDay. lia.
Qed.

(** The host of the examples, on 3 November 2026. *)
Lemma named_dates_in_order_witness :
  exists lastYear lastMonth lastWeek yesterday today tomorrow
         nextWeek nextMonth nextYear thisYear thisMonth,
    roamDateToTimestamp sampleEnv "last year" freshState
      = Ok (Num lastYear, afterClockRead freshState)
    /\ roamDateToTimestamp sampleEnv "last month" freshState
       = Ok (Num lastMonth, afterClockRead freshState)
    /\ roamDateToTimestamp sampleEnv "last week" freshState
       = Ok (Num lastWeek, afterClockRead freshState)
    /\ roamDateToTimestamp sampleEnv "yesterday" freshState
       = Ok (Num yesterday, afterClockRead freshState)
    /\ roamDateToTimestamp sampleEnv "today" freshState
       = Ok (Num today, afterClockRead freshState)
    /\ roamDateToTimestamp sampleEnv "tomorrow" freshState
       = Ok (Num tomorrow, afterClockRead freshState)
    /\ roamDateToTimestamp sampleEnv "next week" freshState
       = Ok (Num nextWeek, afterClockRead freshState)
    /\ roamDateToTimestamp sampleEnv "next month" freshState
       = Ok (Num nextMonth, afterClockRead freshState)
    /\ roamDateToTimestamp sampleEnv "next year" freshState
       = Ok (Num nextYear, afterClockRead freshState)
    /\ roamDateToTimestamp sampleEnv "this year" freshState
       = Ok (Num thisYear, afterClockRead freshState)
    /\ roamDateToTimestamp sampleEnv "this month" freshState
       = Ok (Num thisMonth, afterClockRead freshState)
    /\ (lastYear < lastMonth < lastWeek)%Z
    /\ (lastWeek < yesterday < today)%Z
    /\ (today < tomorrow < nextWeek)%Z
    /\ (nextWeek < nextMonth < nextYear)%Z
    /\ (thisYear <= thisMonth <= today)%Z.
Proof.
  apply (named_dates_in_order sampleEnv 0 freshState).
  - split; [reflexivity|]. intros t b. reflexivity.
  - unfold clockInEra; simpl; lia.
Defined.

(** ** Grouping under not and or *)

Lemma oneOrGroup_branchOf child c :
  List.length (where_ c) = fragmentCount child ->
  oneOrGroup (where_ c) = branchOf child c.
Proof.
  intros H. unfold branchOf, oneOrGroup, andGroup. rewrite <- H.
  destruct (where_ c) as [|f [|g fs]]; reflexivity.
Qed.

Lemma branches_of_chain children st cs st' :
  Chain (fun child _ c _ => List.length (where_ c) = fragmentCount child)
        children st cs st' ->
  map (fun c => oneOrGroup (where_ c)) cs
  = map (fun p => branchOf (fst p) (snd p)) (combine children cs).
Proof.
  induction 1 as [|child rest st c st1 cs st' Hc _ IH]; simpl; [reflexivity|].
  now rewrite IH, (oneOrGroup_branchOf child c Hc).
Qed.

(** X19. Whether a not or an or groups a child in [(and ...)] is told
    by the shape of the child alone: a child that contributes exactly one
    fragment (a search, a by, an or, a not, an and that sums to one) is
    taken as it is, every other child (a tag, a block reference, a
    between, a user clause, daily notes, an and of several fragments or of
    none) is grouped. *)
Theorem grouping_by_shape (env : Env) (blockVar : string) (st : GenState) :
  (forall child,
     generateNode env (Not child) blockVar st
     = mapOk (fun c =>
                mkClauses [ "(not " ++ branchOf child c ++ ")" ]
                          (inputs c) (inputValues c))
         (generateNode env child blockVar st))
  /\ (forall children,
        generateNode env (Or children) blockVar st
        = mapOk (fun cs =>
                   mkClauses
                     [ "(or-join [" ++ blockVar ++ "] "
                         ++ Str.join " "
                              (map (fun p => branchOf (fst p) (snd p))
                                   (combine children cs)) ++ ")" ]
                     (List.concat (map inputs cs))
                     (List.concat (map inputValues cs)))
            (generateEach (fun child => generateNode env child blockVar) children st)).
Proof.
  split.
  - intros child. cbn [generateNode]. unfold generateNot, bind.
    pose proof (generateNode_fragments env child blockVar st) as H.
    destruct (generateNode env child blockVar st) as [[c st']|e]; [|reflexivity].
    unfold ret, mapOk. now rewrite (oneOrGroup_branchOf child c H).
  - intros children. cbn [generateNode]. rewrite generateOr_each.
    pose proof (generateEach_chain (fun child => generateNode env child blockVar)
                  (fun child _ c _ => List.length (where_ c) = fragmentCount child)
                  children) as H.
    specialize (H (proj2 (Forall_forall _ _)
                     (fun child _ s => generateNode_fragments env child blockVar s)) st).
    destruct (generateEach _ children st) as [[cs st']|e]; [|reflexivity].
    unfold mapOk, orJoin. now rewrite (branches_of_chain _ _ _ _ H).
Qed.

(** ** Ordering and counting in [execute] *)


